(** * Markov: a verification development for [Markov.ipynb]

    The notebook defines two classes.  [WeightMap] is a [defaultdict] with
    default factory [int], whose [__call__] draws a key with
    [random.choices].  [MarkovNode] extends it with a payload [data], a
    [__hash__] computed from the payload, the list utilities [find] and
    [inc], and the generator [__iter__] that walks the graph.

    Python objects live in a store and are named by their address; a
    dictionary is the list of its entries in insertion order; the methods
    that mutate an object return the new state next to their result, and
    an exception is a value of [result].

    The draw is given twice.  [choices_float], [call_float] and
    [iter_float] have the floats of CPython: the total of the weights is
    converted to the nearest float, which raises [OverflowError] from
    [2**1024 - 2**970] on, and the product with the value of [random()]
    is rounded.  [choices], [call] and [iter] take both operations
    exactly, so that the random number is the place of the value searched
    within the total.  Whenever the total has a float, a draw with floats
    is an exact draw at some number of [[0, 1)] (lemmas [call_float_call]
    and [iter_float_exact]); what holds of the exact draw for every such
    number holds of the draw with floats. *)

From Stdlib Require Import ZArith QArith Lia String Ascii.
From Equations Require Import Equations.
From stdpp Require Import base list strings.

Open Scope Z_scope.

(** ** Exceptions *)

(** The exceptions the code can raise: [KeyError] by [MarkovNode.find],
    [IndexError], [ValueError] and [OverflowError] by [random.choices],
    [RecursionError] by the comparison of two nodes whose edges lead back
    to themselves. *)
Inductive exn : Set :=
  | KeyError
  | IndexError
  | ValueError
  | RecursionError
  | OverflowError.

Inductive result (A : Type) : Type :=
  | Ok (a : A)
  | Raise (e : exn).
Arguments Ok {A} a.
Arguments Raise {A} e.

Definition bind {A B} (r : result A) (k : A → result B) : result B :=
  match r with
  | Ok a => k a
  | Raise e => Raise e
  end.

Notation "'let*' x ':=' r 'in' k" := (bind r (λ x, k))
  (at level 10, x name, r at level 100, k at level 200).

#[global] Instance exn_eq_dec : EqDecision exn.
Proof. solve_decision. Defined.

(** ** The part of the [random] and [bisect] modules the code calls *)

Module random.

(** A float of Python, read as the rational it denotes. *)
Definition float := Q.

(** [x < c] for a float [x] and an integer [c]. *)
Definition float_lt (x : float) (c : Z) : bool :=
  Qnum x <? c * Zpos (Qden x).

(** [itertools.accumulate(weights)]: the running sums. *)
Fixpoint accumulate_from (acc : Z) (weights : list Z) : list Z :=
  match weights with
  | [] => []
  | w :: ws => (acc + w) :: accumulate_from (acc + w) ws
  end.

Definition accumulate (weights : list Z) : list Z :=
  accumulate_from 0 weights.

(** [bisect.bisect_right(a, x, lo, hi)]:
<<
    while lo < hi:
        mid = (lo + hi) // 2
        if x < a[mid]: hi = mid
        else: lo = mid + 1
    return lo
>>
    [a[mid]] raises [IndexError] outside the list. *)
Equations? bisect (a : list Z) (x : float) (lo hi : nat) : result nat
  by wf (hi - lo)%nat lt :=
  bisect a x lo hi with decide (lo < hi)%nat => {
    | right _ := Ok lo
    | left _ with a !! ((lo + hi) / 2)%nat => {
        | None := Raise IndexError
        | Some c with float_lt x c => {
            | true := bisect a x lo ((lo + hi) / 2)%nat
            | false := bisect a x (S ((lo + hi) / 2)%nat) hi } } }.
Proof.
  all: assert ((lo + hi) / 2 < hi)%nat by (apply Nat.Div0.div_lt_upper_bound; lia).
  all: assert (lo <= (lo + hi) / 2)%nat by (apply Nat.div_le_lower_bound; lia).
  all: lia.
Qed.

(** [random.choices(population, weights)] of CPython 3.10, the kernel of
    the notebook, for the one draw [k=1] the code asks for; [u] is the
    value [random()] returns:
<<
    n = len(population)
    cum_weights = list(accumulate(weights))
    if len(cum_weights) != n: raise ValueError
    total = cum_weights[-1] + 0.0
    if total <= 0.0: raise ValueError
    if not isfinite(total): raise ValueError
    hi = n - 1
    return [population[bisect(cum_weights, random() * total, 0, hi)]]
>>
    [cum_weights[-1]] raises [IndexError] on the empty list; the total of
    integer weights is finite.

    The two operations on floats are taken exactly here: [total] is the
    last cumulative weight itself and the value searched is [u * total],
    so that [u] is the place of the value searched within the total.
    [choices_float] below has the floats of CPython: the conversion of
    the total, which rounds and can raise [OverflowError], and the rounded
    product.  When the total has a float, [choices_float] at a value of
    [random()] is [choices] at the place of the rounded product within
    the total, a number of [[0, 1)]. *)
Definition choices {A} (population : list A) (weights : list Z) (u : float)
  : result (list A) :=
  let n := length population in
  let cum_weights := accumulate weights in
  if negb (length cum_weights =? n)%nat then Raise ValueError else
  match last cum_weights with
  | None => Raise IndexError
  | Some total =>
      if total <=? 0 then Raise ValueError else
      let hi := (n - 1)%nat in
      let* i := bisect cum_weights (Qmult u (inject_Z total)) 0 hi in
      match population !! i with
      | None => Raise IndexError
      | Some k => Ok [k]
      end
  end.

(** *** The floats of CPython *)

(** [sys.float_info.max], the largest float; it is an integer. *)
Definition DBL_MAX : Z := 2 ^ 1024 - 2 ^ 971.

(** The least positive integer whose nearest float is beyond [DBL_MAX]:
    half way between [DBL_MAX] and [2 ** 1024]. *)
Definition OVERFLOW : Z := 2 ^ 1024 - 2 ^ 970.

(** The integer nearest to [n / d], for [0 ≤ n] and [0 < d]; of two
    integers equally near, the even one. *)
Definition round_half_even (n d : Z) : Z :=
  let q := n / d in
  let r := n mod d in
  if 2 * r <? d then q
  else if d <? 2 * r then q + 1
  else if Z.even q then q else q + 1.

(** The float nearest to an integer [a ≥ 0], which has 53 significant bits;
    of two floats equally near, the one whose last bit is 0. *)
Definition nearest_float (a : Z) : Z :=
  let e := Z.max 0 (Z.log2 a - 52) in
  round_half_even a (2 ^ e) * 2 ^ e.

(** [n + 0.0] for an [int] [n]: the float nearest to [n], and
    [OverflowError] when that is beyond the largest float. *)
Definition float_of_int (n : Z) : result float :=
  let v := nearest_float (Z.abs n) in
  if DBL_MAX <? v then Raise OverflowError else Ok (inject_Z (Z.sgn n * v)).

(** The integer [l] with [2 ^ l ≤ n / d < 2 ^ (l + 1)], for positive [n]
    and [d]. *)
Definition floor_log2 (n d : Z) : Z :=
  let l := Z.log2 n - Z.log2 d in
  if n * 2 ^ Z.max 0 (- l) <? d * 2 ^ Z.max 0 l then l - 1 else l.

(** The float nearest to a rational [x ≥ 0], ties to even; the values the
    code rounds are 0 or at least [2 ** -53] and at most [DBL_MAX], where
    floats have 53 significant bits. *)
Definition round_float (x : Q) : float :=
  let n := Qnum x in
  let d := Zpos (Qden x) in
  if n <=? 0 then 0%Q
  else
    let e := floor_log2 n d - 52 in
    let m := round_half_even (n * 2 ^ Z.max 0 (- e)) (d * 2 ^ Z.max 0 e) in
    if 0 <=? e then inject_Z (m * 2 ^ e) else Qmake m (Z.to_pos (2 ^ (- e))).

(** [random() * total] *)
Definition float_mul (u total : float) : float := round_float (Qmult u total).

(** [random()] of CPython, [(a*67108864.0+b)*(1.0/9007199254740992.0)]
    for the 27 bits [a] and the 26 bits [b] of the generator: the float
    [k * 2**-53] for an integer [0 <= k < 2**53]. *)
Definition random_float (k : Z) : float := k # 9007199254740992.

(** The value the draw searches among the cumulative weights, for the
    value [k * 2**-53] of [random()] and a total that has a float:
    [random() * total]. *)
Definition searched (k total : Z) : float :=
  float_mul (random_float k) (inject_Z (nearest_float total)).

(** The place of [x] within the total: [x / total]. *)
Definition place (x : float) (total : Z) : float :=
  Qnum x # (Qden x * Z.to_pos total).

(** [random.choices(population, weights)], as above, with the floats of
    CPython: [total = cum_weights[-1] + 0.0] is the float nearest to the
    last cumulative weight, or [OverflowError]; the value searched is the
    float nearest to [random() * total]; [bisect] compares it with the
    cumulative weights, which are integers, exactly. *)
Definition choices_float {A} (population : list A) (weights : list Z) (u : float)
  : result (list A) :=
  let n := length population in
  let cum_weights := accumulate weights in
  if negb (length cum_weights =? n)%nat then Raise ValueError else
  match last cum_weights with
  | None => Raise IndexError
  | Some c =>
      let* total := float_of_int c in
      if Qle_bool total 0 then Raise ValueError else
      let hi := (n - 1)%nat in
      let* i := bisect cum_weights (float_mul u total) 0 hi in
      match population !! i with
      | None => Raise IndexError
      | Some k => Ok [k]
      end
  end.

End random.

(** ** WeightMap *)

(** A [WeightMap] is the list of its entries, in insertion order. *)
Abbreviation WeightMap K := (list (K * Z)%type) (only parsing).

Section WeightMap.
Context {K : Type}.
Implicit Types m a b : WeightMap K.

(** The test a dictionary applies to a stored key and the key looked up:
    [stored is key or (hash(stored) == hash(key) and stored == key)].
    It is a parameter here, since it belongs to the class of the keys, and
    may raise. *)
Variable key_eq : K → K → result bool.

Definition keys (m : WeightMap K) : list K := m.*1.
Definition values (m : WeightMap K) : list Z := m.*2.

(** The value stored under the first entry whose key passes the test. *)
Fixpoint lookup_item (m : WeightMap K) (key : K) : result (option Z) :=
  match m with
  | [] => Ok None
  | (stored, w) :: m' =>
      let* b := key_eq stored key in
      if b : bool then Ok (Some w) else lookup_item m' key
  end.

(** [dict.__setitem__]: the first matching entry keeps its key and its
    place and takes the new value; without one, a new entry is appended. *)
Fixpoint store_item (m : WeightMap K) (key : K) (v : Z) : result (WeightMap K) :=
  match m with
  | [] => Ok [(key, v)]
  | (stored, w) :: m' =>
      let* b := key_eq stored key in
      if b : bool then Ok ((stored, v) :: m')
      else let* m'' := store_item m' key v in Ok ((stored, w) :: m'')
  end.

(** [self[key] = v] *)
Definition setitem (m : WeightMap K) (key : K) (v : Z) : result unit * WeightMap K :=
  match store_item m key v with
  | Ok m' => (Ok tt, m')
  | Raise e => (Raise e, m)
  end.

(** [self[key]]: [dict.__getitem__], and for a key that is not stored
    [defaultdict.__missing__], which is
    [self[key] = value = self.default_factory(); return value] with
    [default_factory = int]. *)
Definition getitem (m : WeightMap K) (key : K) : result Z * WeightMap K :=
  match lookup_item m key with
  | Raise e => (Raise e, m)
  | Ok (Some w) => (Ok w, m)
  | Ok None =>
      match setitem m key 0 with
      | (Ok _, m') => (Ok 0, m')
      | (Raise e, m') => (Raise e, m')
      end
  end.

(** [self[key] += amount], that is
    [self.__setitem__(key, self.__getitem__(key) + amount)]. *)
Definition iadd_item (m : WeightMap K) (key : K) (amount : Z) : result unit * WeightMap K :=
  match getitem m key with
  | (Raise e, m') => (Raise e, m')
  | (Ok w, m') => setitem m' key (w + amount)
  end.

(** [WeightMap.__call__], with the exact draw:
    [return choices(list(self.keys()), list(self.values()))[0]] *)
Definition call (m : WeightMap K) (u : random.float) : result K * WeightMap K :=
  (let* drawn := random.choices (keys m) (values m) u in
   match drawn !! 0%nat with
   | Some k => Ok k
   | None => Raise IndexError
   end, m).

(** [WeightMap.__call__] with the floats of CPython; [u] is the value
    [random()] returns. *)
Definition call_float (m : WeightMap K) (u : random.float) : result K * WeightMap K :=
  (let* drawn := random.choices_float (keys m) (values m) u in
   match drawn !! 0%nat with
   | Some k => Ok k
   | None => Raise IndexError
   end, m).

(** [dict.__eq__], which [WeightMap] and [MarkovNode] inherit: equal
    lengths, and every key of [a] is found in [b] with an equal value. *)
Fixpoint dict_equal_items (a b : WeightMap K) : result bool :=
  match a with
  | [] => Ok true
  | (key, aval) :: a' =>
      let* found := lookup_item b key in
      match found with
      | None => Ok false
      | Some bval => if aval =? bval then dict_equal_items a' b else Ok false
      end
  end.

Definition dict_equal (a b : WeightMap K) : result bool :=
  if negb (length a =? length b)%nat then Ok false else dict_equal_items a b.

(** [bool(self)], which for a dictionary is [len(self) != 0]. *)
Definition truth (m : WeightMap K) : bool :=
  negb (length m =? 0)%nat.

End WeightMap.

(** [sum(self.values())], the total weight of the distribution. *)
Definition sum_weights (ws : list Z) : Z := foldr Z.add 0 ws.

Definition total_weight {K} (m : WeightMap K) : Z := sum_weights (values m).

(** The two exceptions [random.choices] raises on a distribution that has
    nothing to draw; the specification calls them EmptyDistribution. *)
Definition EmptyDistribution (e : exn) : Prop :=
  e = IndexError ∨ e = ValueError.

(** Keys compared by [is] alone, as for objects that are equal only to
    themselves. *)
Definition is_eq {K} `{EqDecision K} (a b : K) : result bool :=
  Ok (bool_decide (a = b)).

(** The key test answers as identity does on every key stored in [m]. *)
Definition agrees {K} `{EqDecision K} (key_eq : K → K → result bool)
    (m : WeightMap K) (k : K) : Prop :=
  Forall (λ stored, key_eq stored k = is_eq stored k) (keys m).

(** [wmp = WeightMap({'a':1, 'b':2})], the example of the notebook. *)
Definition wmp : WeightMap string := [("a"%string, 1); ("b"%string, 2)].

(** The weight stored under the key object [k], 0 without such an entry. *)
Fixpoint weight_of {K} `{EqDecision K} (m : WeightMap K) (k : K) : Z :=
  match m with
  | [] => 0
  | (stored, w) :: m' => if decide (stored = k) then w else weight_of m' k
  end.

(** ** MarkovNode *)

(** The address of a node object: two names denote the same object ([is])
    when the addresses are equal. *)
Abbreviation ref := nat (only parsing).

Section MarkovNode.
(** The payload of a node is any Python value that can be compared and
    hashed; [hash] is Python's [hash] on payloads, [recursion_limit] the
    depth at which the interpreter raises [RecursionError]. *)
Context {payload : Type} `{EqDecision payload} `{Inhabited payload}.
Variable hash : payload → Z.
Variable recursion_limit : nat.

(** [self.data] and the dictionary the node is. *)
Record MarkovNode := { data : payload; edges : WeightMap ref }.

(** The objects created so far; a new object takes the next address. *)
Abbreviation store := (list MarkovNode) (only parsing).

(** [MarkovNode.__init__]: an empty dictionary and [self.data = data]. *)
Definition init (d : payload) : MarkovNode := {| data := d; edges := [] |}.

#[global] Instance MarkovNode_inhabited : Inhabited MarkovNode :=
  populate (init inhabitant).

(** The object at an address (an address outside the store does not
    arise in a program and reads as a node without edges). *)
Definition obj (σ : store) (r : ref) : MarkovNode := σ !!! r.

(** The store and the list [nodes] the caller passes to [find] and [inc]. *)
Record state := { heap : store; nodes : list ref }.

(** [MarkovNode.__hash__]: [return hash(self.data)] *)
Definition node_hash (σ : store) (r : ref) : Z := hash (data (obj σ r)).

(** The key test of a dictionary on nodes: identity first, then equal
    hashes and [==], which [MarkovNode] does not define and inherits
    from [dict]. *)
Definition key_test (eq : ref → ref → result bool) (σ : store)
    (stored key : ref) : result bool :=
  if (stored =? key)%nat then Ok true
  else if node_hash σ stored =? node_hash σ key then eq stored key
  else Ok false.

(** [a == b] on nodes is [dict.__eq__] on their entries, whose keys are
    nodes again. *)
Fixpoint node_eq (depth : nat) (σ : store) (a b : ref) : result bool :=
  match depth with
  | O => Raise RecursionError
  | S d =>
      dict_equal (key_test (node_eq d σ) σ) (edges (obj σ a)) (edges (obj σ b))
  end.

Definition key_match (σ : store) : ref → ref → result bool :=
  key_test (node_eq recursion_limit σ) σ.

(** Methods read and write the state and may raise. *)
Definition M (A : Type) : Type := state → result A * state.

Definition mbind {A B} (m : M A) (k : A → M B) : M B :=
  λ st,
    match m st with
    | (Ok a, st') => k a st'
    | (Raise e, st') => (Raise e, st')
    end.

Notation "'let!' x ':=' m 'in' k" := (mbind m (λ x, k))
  (at level 10, x name, m at level 100, k at level 200).

Definition set_edges (σ : store) (r : ref) (m : WeightMap ref) : store :=
  alter (λ n, {| data := data n; edges := m |}) r σ.

Definition with_edges (st : state) (self : ref) (m : WeightMap ref) : state :=
  {| heap := set_edges (heap st) self m; nodes := nodes st |}.

(** A method of [WeightMap] run on the node [self]. *)
Definition on_node {A} (self : ref)
    (method : (ref → ref → result bool) → WeightMap ref → result A * WeightMap ref)
    : M A :=
  λ st,
    let '(r, m) := method (key_match (heap st)) (edges (obj (heap st) self)) in
    (r, with_edges st self m).

(** [MarkovNode.find(nodes, data, add)]:
<<
    node = next((node for node in nodes if node.data==data), None)
    if node == None:
        if not add:
            raise KeyError
        node = MarkovNode(data)
        nodes += [node]
    return node
>>     *)
Definition find (d : payload) (add : bool) : M ref :=
  λ st,
    match list_find (λ node, data (obj (heap st) node) = d) (nodes st) with
    | Some (_, node) => (Ok node, st)
    | None =>
        if add then
          let node := length (heap st) in
          (Ok node, {| heap := heap st ++ [init d];
                       nodes := nodes st ++ [node] |})
        else (Raise KeyError, st)
    end.

(** [MarkovNode.inc(self, nodes, childData, increment)]:
<<
    childNode = MarkovNode.find(nodes, childData, True)
    self[childNode] += increment
    return childNode
>>     *)
Definition inc (self : ref) (childData : payload) (increment : Z) : M ref :=
  let! childNode := find childData true in
  let! w := on_node self (λ eq m, getitem eq m childNode) in
  let! _ := on_node self (λ eq m, setitem eq m childNode (w + increment)) in
  λ st, (Ok childNode, st).

(** What a consumer of the generator sees: the values yielded, and how
    the generator ended. *)
Inductive trace : Type :=
  | Stop (out : list payload)
  | Abort (out : list payload) (e : exn)
  | More (out : list payload).

Definition yield (d : payload) (t : trace) : trace :=
  match t with
  | Stop out => Stop (d :: out)
  | Abort out e => Abort (d :: out) e
  | More out => More (d :: out)
  end.

(** [MarkovNode.__iter__]:
<<
    node = self
    while node:
        yield node.data
        node = node()
    yield node.data
>>
    [rand i] is the value of the [i]-th call of [random()]; [fuel] bounds
    the number of turns of the loop. *)
Fixpoint iter (fuel : nat) (σ : store) (rand : nat → random.float) (i : nat)
    (node : ref) : trace :=
  if truth (edges (obj σ node)) then
    match fuel with
    | O => More []
    | S fuel' =>
        yield (data (obj σ node))
          match (call (edges (obj σ node)) (rand i)).1 with
          | Ok node' => iter fuel' σ rand (S i) node'
          | Raise e => Abort [] e
          end
    end
  else Stop [data (obj σ node)].

(** [MarkovNode.__iter__] with the floats of CPython: the same loop, with
    the draw of [call_float]. *)
Fixpoint iter_float (fuel : nat) (σ : store) (rand : nat → random.float) (i : nat)
    (node : ref) : trace :=
  if truth (edges (obj σ node)) then
    match fuel with
    | O => More []
    | S fuel' =>
        yield (data (obj σ node))
          match (call_float (edges (obj σ node)) (rand i)).1 with
          | Ok node' => iter_float fuel' σ rand (S i) node'
          | Raise e => Abort [] e
          end
    end
  else Stop [data (obj σ node)].

(** The loop of the test cell:
<<
    node = nodes[0]
    for c in training:
        node = node.inc(nodes, c)
>>     *)
Fixpoint train (node : ref) (training : list payload) : M ref :=
  match training with
  | [] => λ st, (Ok node, st)
  | c :: cs => let! node' := inc node c 1 in train node' cs
  end.

(** *** The notions the properties are stated with *)

(** The payloads of the nodes of the list, in order. *)
Definition payloads (st : state) : list payload :=
  (λ node, data (obj (heap st) node)) <$> nodes st.

(** The weight of the edge from [self] to the node object [child]. *)
Definition edge_weight (σ : store) (self child : ref) : Z :=
  weight_of (edges (obj σ self)) child.

(** No two payloads of the list share a hash. *)
Definition hash_inj_on (ps : list payload) : Prop :=
  ∀ p q, p ∈ ps → q ∈ ps → hash p = hash q → p = q.

(** Different objects of the store have different hashes. *)
Definition hash_distinct (σ : store) : Prop :=
  ∀ a b, (a < length σ)%nat → (b < length σ)%nat →
         node_hash σ a = node_hash σ b → a = b.

(** Every key of every dictionary is an object of the store. *)
Definition closed (σ : store) : Prop :=
  Forall (λ n, Forall (λ k, (k < length σ)%nat) (keys (edges n))) σ.

(** Every entry of the list is an object of the store. *)
Definition listed (st : state) : Prop :=
  Forall (λ node, (node < length (heap st))%nat) (nodes st).

(** A graph as [find] builds it: the list holds every node object, and
    no two node objects carry the same payload. *)
Record graph (st : state) : Prop := {
  graph_nodes : listed st;
  graph_all : ∀ node, (node < length (heap st))%nat → node ∈ nodes st;
  graph_closed : closed (heap st);
  graph_payloads : NoDup (data <$> heap st)
}.

(** The states a program reaches that starts from the list
    [[MarkovNode(d)]] and calls only [find(nodes, d, True)] and [inc]. *)
Inductive reachable : state → Prop :=
  | reach_start d :
      reachable {| heap := [init d]; nodes := [0%nat] |}
  | reach_find st d :
      reachable st → reachable (find d true st).2
  | reach_inc st self d amount :
      reachable st → reachable (inc self d amount st).2.

(** [path σ rand i node visited target]: the walk that starts at [node]
    with the [i]-th random number leaves the nodes [visited] one after
    the other and arrives at [target]. *)
Inductive path (σ : store) (rand : nat → random.float)
    : nat → ref → list ref → ref → Prop :=
  | path_here i node : path σ rand i node [] node
  | path_step i node node' visited target :
      truth (edges (obj σ node)) = true →
      (call (edges (obj σ node)) (rand i)).1 = Ok node' →
      path σ rand (S i) node' visited target →
      path σ rand i node (node :: visited) target.

End MarkovNode.

Arguments MarkovNode payload : clear implicits.
Abbreviation store payload := (list (MarkovNode payload)) (only parsing).
Arguments state payload : clear implicits.
Arguments trace payload : clear implicits.

(** ** The test cell *)

(** Iterating over a [str] gives its characters as strings of length one. *)
Definition chars (s : string) : list string :=
  (λ c, String c EmptyString) <$> list_ascii_of_string s.

Definition newline : string := String "010"%char EmptyString.

(** [training = 'abababbbabababbbababaaaababababababa\n'] *)
Definition training : string :=
  ("abababbbabababbbababaaaababababababa" ++ newline)%string.

(** [nodes = [MarkovNode('')]] *)
Definition start : state string :=
  {| heap := [init ""%string]; nodes := [0%nat] |}.

(** The graph the cell prints after the loop:
    [[{''| 'a':1}, {'a'| 'b':14, 'a':3, '\n':1}, {'b'| 'a':14, 'b':4}, {'\n'| }]] *)
Definition trained : state string :=
  {| heap := [ {| data := ""%string; edges := [(1%nat, 1)] |};
               {| data := "a"%string;
                  edges := [(2%nat, 14); (1%nat, 3); (3%nat, 1)] |};
               {| data := "b"%string; edges := [(1%nat, 14); (2%nat, 4)] |};
               {| data := newline; edges := [] |} ];
     nodes := [0%nat; 1%nat; 2%nat; 3%nat] |}.

(** The cell of basic usage,
    [nodes = [MarkovNode('a'), MarkovNode('b')]; nodes[0].inc(nodes, 'b')],
    followed by a third object [MarkovNode('a')]. *)
Definition usage : store string :=
  [ {| data := "a"%string; edges := [(1%nat, 1)] |}; init "b"%string; init "a"%string ].

(** A node whose only edge has weight 0, as [nodes[0][nodes[1]]] leaves it
    when read on [[MarkovNode('a'), MarkovNode('b')]]. *)
Definition stalled : store string :=
  [ {| data := "a"%string; edges := [(1%nat, 0)] |}; init "b"%string ].

(** A hash function for the examples: the code of the first character. *)
Definition ord_hash (s : string) : Z :=
  match s with
  | EmptyString => 0
  | String c _ => Z.of_nat (nat_of_ascii c)
  end.

(** The number of places of the sequence where [p] is followed by [q]. *)
Fixpoint transition_count (tokens : list string) (p q : string) : Z :=
  match tokens with
  | a :: (b :: _) as rest =>
      (if decide (a = p ∧ b = q) then 1 else 0) + transition_count rest p q
  | _ => 0
  end.

(** ** The cell of names *)

Section cells.
Context {payload : Type} `{EqDecision payload} `{Inhabited payload}.
Variable hash : payload → Z.
Variable recursion_limit : nat.

(** [nodes = [MarkovNode(s)]] *)
Definition start_at (s : payload) : state payload :=
  {| heap := [init s]; nodes := [0%nat] |}.

(** [nodes[0]], which raises [IndexError] on the empty list. *)
Definition first_node : @M payload nat :=
  λ st,
    match nodes st !! 0%nat with
    | Some node => (Ok node, st)
    | None => (Raise IndexError, st)
    end.

(** The training loop of the cell of names, on the sequences
    [name.upper()]:
<<
    for name in names:
        node = nodes[0]
        for c in name.upper():
            node = node.inc(nodes, c)
>>     *)
Fixpoint train_names (names : list (list payload)) : @M payload unit :=
  match names with
  | [] => λ st, (Ok tt, st)
  | name :: rest =>
      mbind first_node (λ node,
        mbind (train hash recursion_limit node name) (λ _, train_names rest))
  end.

(** *** The notions the further properties are stated with *)

(** The number of places of the sequence where [p] is followed by [q]. *)
Fixpoint count_pairs (tokens : list payload) (p q : payload) : Z :=
  match tokens with
  | a :: (b :: _) as rest =>
      (if decide (a = p ∧ b = q) then 1 else 0) + count_pairs rest p q
  | _ => 0
  end.

(** The transitions of all sequences, each begun at the start payload. *)
Fixpoint count_all (s : payload) (names : list (list payload)) (p q : payload) : Z :=
  match names with
  | [] => 0
  | name :: rest => count_pairs (s :: name) p q + count_all s rest p q
  end.

(** The node of the list [find] returns for the payload, if there is one. *)
Definition node_of (st : state payload) (d : payload) : option nat :=
  snd <$> list_find (λ node, data (obj (heap st) node) = d) (nodes st).

(** The weight of the edge between the nodes of two payloads, 0 when one
    of the payloads has no node. *)
Definition weight_between (st : state payload) (p q : payload) : Z :=
  match node_of st p, node_of st q with
  | Some a, Some b => edge_weight (heap st) a b
  | _, _ => 0
  end.

(** Every stored weight is positive. *)
Definition weights_positive (σ : list (MarkovNode payload)) : Prop :=
  Forall (λ n, Forall (λ w, 0 < w) (values (edges n))) σ.

(** The total weight of every node has a float. *)
Definition totals_bounded (σ : list (MarkovNode payload)) : Prop :=
  Forall (λ n, Z.abs (total_weight (edges n)) < random.OVERFLOW) σ.

(** No dictionary stores a node twice. *)
Definition keys_distinct (σ : list (MarkovNode payload)) : Prop :=
  Forall (λ n, NoDup (keys (edges n))) σ.

(** The values a consumer of the generator has received. *)
Definition emitted (t : trace payload) : list payload :=
  match t with
  | Stop out => out
  | Abort out _ => out
  | More out => out
  end.

End cells.

(** [x] is followed by [y] somewhere in the list. *)
Definition adjacent {A} (l : list A) (x y : A) : Prop :=
  ∃ l1 l2, l = l1 ++ x :: y :: l2.

(** The draw by a scan from the left: the first key whose cumulative weight
    exceeds [x]. *)
Fixpoint scan {K} (m : list (K * Z)) (acc : Z) (x : random.float) : option K :=
  match m with
  | [] => None
  | (k, w) :: m' =>
      if random.float_lt x (acc + w) then Some k else scan m' (acc + w) x
  end.

(** The hash of an [int] in CPython on a 64-bit build: the value modulo
    [2**61 - 1], with the sign of the value, and [-2] in place of [-1]. *)
Definition int_hash (z : Z) : Z :=
  let h := Z.rem z (2 ^ 61 - 1) in
  if h =? -1 then -2 else h.

(** [MarkovNode(-1)] and [MarkovNode(-2)], whose payloads have the same
    hash. *)
Definition collided : store Z := [init (-1); init (-2)].

(** The same two nodes with an edge to itself each, as [a.inc(nodes, -1)]
    and [b.inc(nodes, -2)] leave them. *)
Definition looped : store Z :=
  [ {| data := -1; edges := [(0%nat, 1)] |}; {| data := -2; edges := [(1%nat, 1)] |} ].

(** ** The cell of n-grams *)

Section ngrams.
Context {C : Type} `{EqDecision C}.
Variable hash : list C → Z.
Variable recursion_limit : nat.

(** [str.upper], a function on strings. *)
Variable upper : list C → list C.

(** The character ['\n']. *)
Variable newline_char : C.

(** [n], which the cell sets to 3. *)
Variable n : nat.

(** [window.append(x)] on a [deque] with [maxlen = k]. *)
Definition deque_append (k : nat) (window : list C) (x : C) : list C :=
  drop (length (window ++ [x]) - k) (window ++ [x]).

(** The loop of [more_itertools.sliding_window]:
<<
    for x in iterator:
        window.append(x)
        yield tuple(window)
>>     *)
Fixpoint slide (k : nat) (window rest : list C) : list (list C) :=
  match rest with
  | [] => []
  | x :: rest' =>
      let window' := deque_append k window x in
      window' :: slide k window' rest'
  end.

(** [sliding_window(seq, n+1)], which begins with
    [window = deque(islice(iterator, n), maxlen=n+1)]. *)
Definition windows (l : list C) : list (list C) :=
  slide (S n) (take n l) (drop n l).

(** The body of the inner loop:
<<
    gram, letter = ''.join(gramnletter[:-1]), gramnletter[-1]
    MarkovNode.find(nodes, gram, True).inc(nodes, letter)
>>     *)
Definition gram_step (gramnletter : list C) : @M (list C) unit :=
  match last gramnletter with
  | None => λ st, (Raise IndexError, st)
  | Some letter =>
      let gram := take (length gramnletter - 1) gramnletter in
      mbind (find gram true) (λ node,
        mbind (inc hash recursion_limit node [letter] 1) (λ _ st, (Ok tt, st)))
  end.

Fixpoint train_windows (ws : list (list C)) : @M (list C) unit :=
  match ws with
  | [] => λ st, (Ok tt, st)
  | w :: ws' => mbind (gram_step w) (λ _, train_windows ws')
  end.

(** The training loop of the cell of n-grams:
<<
    for name in names:
        nodes[0].inc(nodes, name[:n].upper())
        for gramnletter in sliding_window(name.upper(), n+1):
            ...
>>     *)
Fixpoint train_grams (names : list (list C)) : @M (list C) unit :=
  match names with
  | [] => λ st, (Ok tt, st)
  | name :: rest =>
      mbind first_node (λ node,
        mbind (inc hash recursion_limit node (upper (take n name)) 1) (λ _,
          mbind (train_windows (windows (upper name))) (λ _, train_grams rest)))
  end.

(** [s[-n:]]: the last [n] characters, and all of [s] for [n = 0]. *)
Definition suffix (s : list C) : list C :=
  if (n =? 0)%nat then s else drop (length s - n) s.

(** The loop that prints one name:
<<
    while s[-1] != '\n':
        s += MarkovNode.find(nodes, s[-n:])().data
>>
    [Ok None] stands for a loop that is still running when the fuel is
    used up. *)
Fixpoint extend (fuel : nat) (st : state (list C)) (rand : nat → random.float)
    (i : nat) (s : list C) : result (option (list C)) :=
  match last s with
  | None => Raise IndexError
  | Some c =>
      if decide (c = newline_char) then Ok (Some s)
      else
        match fuel with
        | O => Ok None
        | S fuel' =>
            let* node := (find (suffix s) false st).1 in
            let* child := (call (edges (obj (heap st) node)) (rand i)).1 in
            extend fuel' st rand (S i) (s ++ data (obj (heap st) child))
        end
  end.

(** [s = nodes[0]().data], and the loop. *)
Definition generate (fuel : nat) (st : state (list C)) (rand : nat → random.float)
    : result (option (list C)) :=
  let* node := (first_node st).1 in
  let* child := (call (edges (obj (heap st) node)) (rand 0%nat)).1 in
  extend fuel st rand 1 (data (obj (heap st) child)).

(** *** The notions the properties of the cell are stated with *)

(** The transitions one name is trained with: from the start payload to its
    first gram, and from every gram to the letter after it. *)
Definition gram_pairs (u : list C) : list (list C * list C) :=
  (λ i, (take n (drop i u), take 1 (drop (i + n) u))) <$> seq 0 (length u - n).

Definition name_pairs (name : list C) : list (list C * list C) :=
  ([], upper (take n name)) :: gram_pairs (upper name).

End ngrams.

(** How often a pair occurs in a list of pairs. *)
Definition count_pair {A} `{EqDecision A} (l : list (A * A)) (p q : A) : Z :=
  Z.of_nat (length (filter (λ e, e = (p, q)) l)).

(** The components of the pairs of a list. *)
Definition pair_payloads {A} (l : list (A * A)) : list A :=
  l ≫= λ e, [e.1; e.2].

(** A graph with positive weights and distinct keys whose first node is the
    first object and carries the payload [s]. *)
Definition rooted {payload} `{Inhabited payload} (s : payload) (st : state payload) : Prop :=
  graph st ∧ weights_positive (heap st) ∧ keys_distinct (heap st) ∧
  nodes st !! 0%nat = Some 0%nat ∧ (0 < length (heap st))%nat ∧
  data (obj (heap st) 0%nat) = s.

(** [str.upper] on a string of ASCII characters. *)
Definition ascii_upper (s : list ascii) : list ascii :=
  (λ c, let k := nat_of_ascii c in
        if ((97 <=? k) && (k <=? 122))%nat then ascii_of_nat (k - 32) else c) <$> s.

(** A hash function for the examples on strings of characters: the codes of
    the characters, read as the digits of a number. *)
Definition codes_hash (s : list ascii) : Z :=
  foldl (λ h c, h * 257 + Z.of_nat (nat_of_ascii c) + 1) 0 s.

(** Two names for the examples, [['Anna\n', 'Al\n']]. *)
Definition gram_names : list (list ascii) :=
  [list_ascii_of_string ("Anna" ++ newline); list_ascii_of_string ("Al" ++ newline)].

(** * Properties *)

(** ** The draw *)

Import random.

Lemma length_accumulate_from acc ws : length (accumulate_from acc ws) = length ws.
Proof. revert acc. induction ws as [|w ws IH]; intros acc; simpl; [done|]. by rewrite IH. Qed.

Lemma lookup_accumulate_from acc ws i :
  (i < length ws)%nat →
  accumulate_from acc ws !! i = Some (acc + sum_weights (take (S i) ws)).
Proof.
  revert acc i. induction ws as [|w ws IH]; intros acc i Hi; simpl in *; [lia|].
  destruct i as [|i]; simpl.
  - f_equal. lia.
  - rewrite IH by lia. simpl. f_equal. lia.
Qed.

Lemma last_accumulate_from acc w ws :
  last (accumulate_from acc (w :: ws)) = Some (acc + sum_weights (w :: ws)).
Proof.
  rewrite last_lookup, length_accumulate_from.
  simpl length. replace (Nat.pred (S (length ws))) with (length ws) by done.
  rewrite lookup_accumulate_from by (simpl; lia).
  rewrite firstn_all2 by (simpl; lia). done.
Qed.

Lemma mid_bounds lo hi :
  (lo < hi)%nat → (lo ≤ (lo + hi) / 2)%nat ∧ ((lo + hi) / 2 < hi)%nat.
Proof.
  intros Hlt. split.
  - apply Nat.div_le_lower_bound; lia.
  - apply Nat.Div0.div_lt_upper_bound; lia.
Qed.

Lemma bisect_spec a x lo hi :
  (lo ≤ hi)%nat → (hi < length a)%nat →
  ∃ i, bisect a x lo hi = Ok i ∧ (lo ≤ i ≤ hi)%nat ∧
       (i = lo ∨ ∃ c, a !! (i - 1)%nat = Some c ∧ float_lt x c = false) ∧
       (i = hi ∨ ∃ c, a !! i = Some c ∧ float_lt x c = true).
Proof.
  funelim (bisect a x lo hi); intros Hle Hhi.
  - exists lo. repeat split; auto; lia.
  - apply lookup_ge_None in Heq. pose proof (mid_bounds lo hi l). lia.
  - pose proof (mid_bounds lo hi l) as [Hlo Hmid].
    destruct H as (i & Hi & Hrange & Hleft & Hright); [lia | lia |].
    exists i. repeat split; [done | lia | lia | done |].
    destruct Hright as [-> | ?]; [right; eauto | by right].
  - pose proof (mid_bounds lo hi l) as [Hlo Hmid].
    destruct H as (i & Hi & Hrange & Hleft & Hright); [lia | lia |].
    exists i. repeat split; [done | lia | lia | | done].
    destruct Hleft as [-> | ?]; [right | by right].
    exists c. by rewrite Nat.sub_1_r.
Qed.

Lemma sum_app l1 l2 : sum_weights (l1 ++ l2) = sum_weights l1 + sum_weights l2.
Proof. induction l1 as [|a l1 IH]; simpl; lia. Qed.

Lemma sum_take_S ws i w :
  ws !! i = Some w → sum_weights (take (S i) ws) = sum_weights (take i ws) + w.
Proof. intros Hw. rewrite (take_S_r _ _ _ Hw), sum_app. simpl. lia. Qed.

Lemma float_lt_scaled u t c :
  float_lt (Qmult u (inject_Z t)) c = (Qnum u * t <? c * Zpos (Qden u)).
Proof. unfold float_lt. simpl. by rewrite Pos.mul_1_r. Qed.

Lemma unit_interval u :
  (0 <= u)%Q → (u < 1)%Q → 0 ≤ Qnum u < Zpos (Qden u).
Proof. unfold Qle, Qlt. simpl. lia. Qed.

Lemma accumulate_last ws :
  last (accumulate ws) = match ws with [] => None | _ => Some (sum_weights ws) end.
Proof.
  destruct ws as [|w ws]; [done|].
  unfold accumulate. by rewrite last_accumulate_from.
Qed.

Lemma accumulate_lookup ws i :
  (i < length ws)%nat → accumulate ws !! i = Some (sum_weights (take (S i) ws)).
Proof. intros Hi. unfold accumulate. by rewrite lookup_accumulate_from. Qed.

Lemma choices_empty {A} (population : list A) u :
  choices population [] u = Raise (if decide (population = []) then IndexError else ValueError).
Proof. by destruct population. Qed.

Lemma choices_nonpositive {A} (population : list A) ws u :
  length population = length ws → ws ≠ [] → sum_weights ws ≤ 0 →
  choices population ws u = Raise ValueError.
Proof.
  intros Hlen Hne Hsum. unfold choices.
  unfold accumulate at 1. rewrite length_accumulate_from, Hlen, Nat.eqb_refl. simpl.
  rewrite accumulate_last. destruct ws; [done|].
  by destruct (Z.leb_spec (sum_weights (z :: ws)) 0); [|lia].
Qed.

Lemma choices_positive {A} (population : list A) ws u :
  length population = length ws → 0 < sum_weights ws →
  ∃ i k, choices population ws u = Ok [k] ∧ population !! i = Some k ∧
         bisect (accumulate ws) (Qmult u (inject_Z (sum_weights ws))) 0 (length ws - 1) = Ok i.
Proof.
  intros Hlen Hsum. unfold choices.
  unfold accumulate at 1. rewrite length_accumulate_from, Hlen, Nat.eqb_refl. simpl.
  rewrite accumulate_last. destruct ws as [|w ws]; [simpl in Hsum; lia|].
  destruct (Z.leb_spec (sum_weights (w :: ws)) 0); [lia|].
  destruct (bisect_spec (accumulate (w :: ws)) (Qmult u (inject_Z (sum_weights (w :: ws)))) 0
              (length (w :: ws) - 1)) as (i & Hi & Hrange & _).
  { lia. }
  { unfold accumulate. rewrite length_accumulate_from. simpl. lia. }
  rewrite Hi. simpl bind.
  destruct (lookup_lt_is_Some_2 population i) as [k Hk]; [simpl in *; lia|].
  exists i, k. by rewrite Hk.
Qed.

Lemma choices_Ok_inv {A} (population : list A) ws u drawn :
  length population = length ws →
  choices population ws u = Ok drawn → 0 < sum_weights ws.
Proof.
  intros Hlen Hok.
  destruct (decide (ws = [])) as [-> | Hne].
  { by rewrite choices_empty in Hok. }
  destruct (Z.lt_ge_cases 0 (sum_weights ws)); [done|].
  rewrite choices_nonpositive in Hok by (done || lia). done.
Qed.

Lemma choices_weight {A} (population : list A) ws u drawn :
  length population = length ws → (0 <= u)%Q → (u < 1)%Q →
  choices population ws u = Ok drawn →
  ∃ i k w, drawn = [k] ∧ population !! i = Some k ∧ ws !! i = Some w ∧ 0 < w.
Proof.
  intros Hlen H0 H1 Hok.
  pose proof (choices_Ok_inv _ _ _ _ Hlen Hok) as Hsum.
  destruct (choices_positive population ws u Hlen Hsum) as (i & k & Hch & Hk & Hbis).
  rewrite Hch in Hok. injection Hok as <-.
  assert (length ws ≠ 0%nat) as Hn by (destruct ws; simpl in *; [lia | done]).
  destruct (bisect_spec (accumulate ws) (Qmult u (inject_Z (sum_weights ws))) 0 (length ws - 1))
    as (i' & Hi' & Hrange & Hleft & Hright).
  { lia. }
  { unfold accumulate. rewrite length_accumulate_from. lia. }
  rewrite Hbis in Hi'. injection Hi' as <-.
  destruct (lookup_lt_is_Some_2 ws i) as [w Hw]; [lia|].
  exists i, k, w. repeat split; [done..|].
  pose proof (unit_interval u H0 H1) as Hu.
  assert (Qnum u * sum_weights ws < sum_weights (take (S i) ws) * Zpos (Qden u)) as Hupper.
  { destruct Hright as [-> | (c & Hc & Hlt)].
    - replace (S (length ws - 1)) with (length ws) by lia.
      rewrite firstn_all. nia.
    - rewrite accumulate_lookup in Hc by lia. injection Hc as <-.
      rewrite float_lt_scaled in Hlt. lia. }
  rewrite (sum_take_S _ _ _ Hw) in Hupper.
  destruct Hleft as [-> | (c & Hc & Hlt)].
  - simpl in Hupper. nia.
  - destruct i as [|i]; [simpl in Hupper; nia|].
    replace (S i - 1)%nat with i in Hc by lia.
    rewrite accumulate_lookup in Hc by lia. injection Hc as <-.
    rewrite float_lt_scaled in Hlt.
    apply Z.ltb_ge in Hlt. nia.
Qed.

(** *** The draw with the floats of CPython *)

Lemma round_half_even_cases n d :
  0 ≤ n → 0 < d →
  (round_half_even n d = n / d ∧ 2 * (n mod d) ≤ d ∧
   (d = 2 * (n mod d) → Z.even (n / d) = true)) ∨
  (round_half_even n d = n / d + 1 ∧ d ≤ 2 * (n mod d) ∧
   (d = 2 * (n mod d) → Z.even (n / d) = false)).
Proof.
  intros Hn Hd. unfold round_half_even.
  destruct (Z.ltb_spec (2 * (n mod d)) d) as [Hlt | Hge]; [left; lia|].
  destruct (Z.ltb_spec d (2 * (n mod d))) as [Hgt | Hle]; [right; lia|].
  destruct (Z.even (n / d)) eqn:He; [left; lia | right; lia].
Qed.

Lemma nearest_float_small a : 0 ≤ a → a < 2 ^ 53 → nearest_float a = a.
Proof.
  intros H0 Hlt. unfold nearest_float.
  assert (Z.log2 a - 52 ≤ 0) as Hl.
  { destruct (decide (a = 0)) as [-> | Hne]; [simpl; lia|].
    assert (Z.log2 a < 53); [|lia]. apply Z.log2_lt_pow2; lia. }
  rewrite Z.max_l by lia. change (2 ^ 0) with 1.
  unfold round_half_even. rewrite Z.mod_1_r, Z.div_1_r. simpl. lia.
Qed.

(** The nearest float of a positive integer is positive, and it is beyond
    the largest float from [OVERFLOW] on. *)
Lemma nearest_float_pos a :
  0 < a → 0 < nearest_float a ∧ (DBL_MAX < nearest_float a ↔ OVERFLOW ≤ a).
Proof.
  intros Ha.
  destruct (Z.lt_ge_cases a (2 ^ 53)) as [Hsmall | Hbig].
  { rewrite nearest_float_small by lia. split; [done|].
    assert (2 ^ 53 < DBL_MAX ∧ 2 ^ 53 < OVERFLOW) as [? ?] by (by vm_compute). lia. }
  pose proof (Z.log2_spec a Ha) as [Hlo Hhi].
  assert (53 ≤ Z.log2 a) as HL by (apply Z.log2_le_pow2; lia).
  unfold nearest_float.
  rewrite Z.max_r by lia. set (e := Z.log2 a - 52) in *.
  assert (0 < 2 ^ e) as Hpe by (apply Z.pow_pos_nonneg; lia).
  assert (2 ^ Z.log2 a = 2 ^ 52 * 2 ^ e) as HpL.
  { rewrite <- Z.pow_add_r by lia. f_equal. lia. }
  assert (2 ^ Z.succ (Z.log2 a) = 2 ^ 53 * 2 ^ e) as HpL'.
  { rewrite <- Z.pow_add_r by lia. f_equal. lia. }
  pose proof (Z.div_mod a (2 ^ e) ltac:(lia)) as Hdm.
  pose proof (Z.mod_pos_bound a (2 ^ e) Hpe) as Hr.
  set (q := a / 2 ^ e) in *. set (r := a mod 2 ^ e) in *.
  assert (2 ^ 52 ≤ q < 2 ^ 53) as Hq by nia.
  set (m := round_half_even a (2 ^ e)).
  assert (m = q ∧ 2 * r ≤ 2 ^ e ∧ (2 ^ e = 2 * r → Z.even q = true) ∨
          m = q + 1 ∧ 2 ^ e ≤ 2 * r ∧ (2 ^ e = 2 * r → Z.even q = false)) as Hm
    by (apply round_half_even_cases; lia).
  assert (0 < m) as Hm0 by (destruct Hm as [(-> & _) | (-> & _)]; lia).
  split; [by apply Z.mul_pos_pos|].
  destruct (Z.lt_trichotomy (Z.log2 a) 1023) as [Hl | [Hl | Hl]].
  - (* below the last binade *)
    assert (2 ^ 53 * 2 ^ e ≤ 2 ^ 1023) as Hle.
    { rewrite <- HpL'. apply Z.pow_le_mono_r; lia. }
    assert (2 ^ 1023 ≤ DBL_MAX ∧ 2 ^ 1023 < OVERFLOW) as [HD HO] by (by vm_compute).
    assert (m * 2 ^ e ≤ 2 ^ 53 * 2 ^ e) as Hv
      by (apply Z.mul_le_mono_nonneg_r; destruct Hm as [(-> & _) | (-> & _)]; lia).
    lia.
  - (* the last binade *)
    assert (e = 971) as He by (unfold e; lia).
    clearbody q r m. rewrite He in *. clear He HpL HpL' Hlo Hhi HL Hl e.
    assert (DBL_MAX = (2 ^ 53 - 1) * (2 * 2 ^ 970)) as -> by (by vm_compute).
    assert (OVERFLOW = (2 ^ 53 - 1) * (2 * 2 ^ 970) + 2 ^ 970) as -> by (by vm_compute).
    assert (2 ^ 971 = 2 * 2 ^ 970) as HB by (by vm_compute). rewrite HB in *.
    assert (0 < 2 ^ 970) as HB0 by (by vm_compute).
    generalize dependent (2 ^ 970). intros B Hpe Hdm Hr Hm HB HB0.
    change (2 ^ 53) with 9007199254740992 in *.
    change (2 ^ 52) with 4503599627370496 in *.
    destruct (decide (q = 9007199254740991)) as [-> | Hq'].
    + destruct Hm as [(-> & Hhalf & Heven) | (-> & Hhalf & _)]; [|nia].
      assert (2 * r < 2 * B) as Hlt; [|nia].
      destruct (decide (2 * B = 2 * r)) as [Heq | Hne]; [|lia].
      apply Heven in Heq. vm_compute in Heq. discriminate.
    + assert (m ≤ 9007199254740991) as Hmle by (destruct Hm as [(-> & _) | (-> & _)]; lia).
      nia.
  - (* beyond *)
    assert (2 ^ 1024 ≤ 2 ^ Z.log2 a) as Hge by (apply Z.pow_le_mono_r; lia).
    assert (2 ^ 1024 ≤ m * 2 ^ e) as Hv.
    { rewrite HpL in Hge. etrans; [exact Hge|]. apply Z.mul_le_mono_nonneg_r; [lia|].
      destruct Hm as [(-> & _) | (-> & _)]; lia. }
    assert (DBL_MAX < 2 ^ 1024 ∧ OVERFLOW < 2 ^ 1024) as [HD HO] by (by vm_compute).
    lia.
Qed.

(** [n + 0.0]: a float of the sign of [n], or [OverflowError] from
    [OVERFLOW] on. *)
Lemma float_of_int_spec n :
  (Z.abs n < OVERFLOW →
   ∃ v, float_of_int n = Ok (inject_Z v) ∧ (0 < v ↔ 0 < n) ∧ (v < 0 ↔ n < 0)) ∧
  (OVERFLOW ≤ Z.abs n → float_of_int n = Raise OverflowError).
Proof.
  unfold float_of_int.
  destruct (decide (n = 0)) as [-> | Hne].
  { split; [|by vm_compute]. intros _. exists 0. by vm_compute. }
  destruct (nearest_float_pos (Z.abs n) ltac:(lia)) as [Hpos Hov].
  destruct (Z.ltb_spec DBL_MAX (nearest_float (Z.abs n))) as [Hbig | Hsmall].
  - split; [lia | done].
  - split; [|lia]. intros _. eexists. split; [done|]. nia.
Qed.

Lemma round_half_even_bounds n d :
  0 ≤ n → 0 < d →
  2 * n - d ≤ 2 * (round_half_even n d * d) ≤ 2 * n + d.
Proof.
  intros Hn Hd.
  pose proof (Z.div_mod n d ltac:(lia)) as Hdm.
  pose proof (Z.mod_pos_bound n d Hd) as Hr.
  destruct (round_half_even_cases n d Hn Hd) as [(-> & Hh & _) | (-> & Hh & _)]; nia.
Qed.

Lemma round_half_even_exact c d : 0 < d → round_half_even (c * d) d = c.
Proof.
  intros Hd. unfold round_half_even.
  rewrite Z.div_mul, Z.mod_mul by lia.
  by destruct (Z.ltb_spec (2 * 0) d); [|lia].
Qed.

(** Powers of two with exponents of either sign, as a pair of a numerator
    and a denominator. *)
Lemma pow2_split (x y : Z) :
  2 ^ Z.max 0 x * 2 ^ Z.max 0 (- y) * 2 ^ Z.max 0 (y - x)
  = 2 ^ Z.max 0 y * 2 ^ Z.max 0 (- x) * 2 ^ Z.max 0 (x - y).
Proof.
  rewrite <- !Z.pow_add_r by lia. f_equal. lia.
Qed.

Lemma pow2_pos x : 0 < 2 ^ Z.max 0 x.
Proof. apply Z.pow_pos_nonneg; lia. Qed.

(** The arithmetic of the rounded product, with [C] for [2 ^ 52]. *)
Lemma rounded_product_below (C k m J M R t : Z) :
  0 < C → 1 ≤ k → k < 2 * C → 0 < R → 1 ≤ J →
  C * R ≤ t →
  - R ≤ 2 * (m * R - t) → 2 * (m * R - t) ≤ R →
  2 * C * C ≤ k * m * J → k * m * J < 4 * C * C →
  4 * C * M ≤ 2 * (k * m * J) + 2 * C →
  M * R < t * J.
Proof.
  intros HC Hk1 Hk2 HR HJ Ht Hlo Hhi Hn1 Hn2 HM.
  destruct (decide (J = 1)) as [-> | HJ1].
  - rewrite !Z.mul_1_r in *.
    assert (C < m) as Hm by nia.
    assert (M < m) as HMm by nia.
    nia.
  - assert (M ≤ 2 * C) as HM2 by nia.
    destruct (decide (M = 2 * C)) as [-> | HM3]; [|nia].
    destruct (decide (t = C * R)) as [-> | Ht2]; [|nia].
    assert (m = C) as -> by nia.
    destruct (decide (J = 2)) as [-> | HJ2]; [|nia].
    assert (4 * C - 1 ≤ 2 * k ∧ 2 * k < 4 * C) by nia. lia.
Qed.

(** The nearest float of [T] in the binade of [T]: a multiple [m] of the
    unit [2 ^ e] of the binade, at most half a unit from [T]. *)
Lemma nearest_float_binade T :
  0 < T →
  let e := Z.log2 T - 52 in
  ∃ m, nearest_float T * 2 ^ Z.max 0 (- e) = m * 2 ^ Z.max 0 e ∧
       2 ^ 52 * 2 ^ Z.max 0 e ≤ T * 2 ^ Z.max 0 (- e) ∧
       - 2 ^ Z.max 0 e ≤ 2 * (m * 2 ^ Z.max 0 e - T * 2 ^ Z.max 0 (- e)) ∧
       2 * (m * 2 ^ Z.max 0 e - T * 2 ^ Z.max 0 (- e)) ≤ 2 ^ Z.max 0 e ∧
       nearest_float T ≤ 2 ^ (Z.log2 T + 1).
Proof.
  intros HT e.
  pose proof (Z.log2_spec T HT) as [Hlo Hhi].
  pose proof (Z.log2_nonneg T) as HL.
  destruct (Z.le_gt_cases e 0) as [He | He].
  - assert (T < 2 ^ 53) as Hsmall.
    { eapply Z.lt_le_trans; [exact Hhi|]. apply Z.pow_le_mono_r; lia. }
    rewrite nearest_float_small by lia.
    rewrite (Z.max_l 0 e) by lia. change (2 ^ 0) with 1.
    rewrite (Z.max_r 0 (- e)) by lia.
    exists (T * 2 ^ (- e)).
    assert (2 ^ Z.log2 T * 2 ^ (- e) = 2 ^ 52) as Hp.
    { rewrite <- Z.pow_add_r by lia. f_equal. lia. }
    assert (0 < 2 ^ (- e)) as Hpe by (apply Z.pow_pos_nonneg; lia).
    split; [lia|]. split; [nia|]. split; [lia|]. split; [lia|].
    unfold Z.succ in Hhi. lia.
  - unfold nearest_float. fold e.
    rewrite (Z.max_r 0 e) by lia.
    rewrite (Z.max_l 0 (- e)) by lia. change (2 ^ 0) with 1.
    assert (0 < 2 ^ e) as Hpe by (apply Z.pow_pos_nonneg; lia).
    assert (2 ^ Z.log2 T = 2 ^ 52 * 2 ^ e) as HpL.
    { rewrite <- Z.pow_add_r by lia. f_equal. lia. }
    assert (2 ^ (Z.log2 T + 1) = 2 ^ 53 * 2 ^ e) as HpL'.
    { rewrite <- Z.pow_add_r by lia. f_equal. lia. }
    unfold Z.succ in Hhi. rewrite HpL' in *. rewrite HpL in *.
    pose proof (round_half_even_bounds T (2 ^ e) ltac:(lia) Hpe) as [Hb1 Hb2].
    exists (round_half_even T (2 ^ e)).
    set (m := round_half_even T (2 ^ e)) in *.
    change (2 ^ 53) with (2 * 2 ^ 52) in *.
    assert (0 < 2 ^ 52) as HC by done.
    set (C := 2 ^ 52) in *. set (R := 2 ^ e) in *.
    clearbody m C R. clear HpL HpL'.
    split; [lia|]. split; [lia|]. split; [lia|]. split; [lia|].
    assert (m ≤ 2 * C); nia.
Qed.

Lemma floor_log2_random n :
  0 < n → floor_log2 n 9007199254740992 = Z.log2 n - 53.
Proof.
  intros Hn. unfold floor_log2.
  change (Z.log2 9007199254740992) with 53.
  pose proof (Z.log2_spec n Hn) as [Hlo _].
  pose proof (Z.log2_nonneg n) as HL.
  set (l := Z.log2 n - 53).
  destruct (Z.ltb_spec (n * 2 ^ Z.max 0 (- l)) (9007199254740992 * 2 ^ Z.max 0 l))
    as [Hlt | Hge]; [|done].
  exfalso.
  assert (2 ^ Z.log2 n * 2 ^ Z.max 0 (- l) = 2 ^ 53 * 2 ^ Z.max 0 l) as Hp.
  { rewrite <- !Z.pow_add_r by lia. f_equal. lia. }
  change 9007199254740992 with (2 ^ 53) in Hlt.
  pose proof (pow2_pos (- l)). nia.
Qed.

Lemma float_lt_rounded (M E T : Z) :
  float_lt (if 0 <=? E then inject_Z (M * 2 ^ E) else Qmake M (Z.to_pos (2 ^ (- E)))) T
  = (M * 2 ^ Z.max 0 E <? T * 2 ^ Z.max 0 (- E)).
Proof.
  unfold float_lt. destruct (Z.leb_spec 0 E) as [HE | HE].
  - rewrite (Z.max_r 0 E), (Z.max_l 0 (- E)) by lia. done.
  - rewrite (Z.max_l 0 E), (Z.max_r 0 (- E)) by lia. cbn [Qnum Qden].
    rewrite Z2Pos.id by (apply Z.pow_pos_nonneg; lia).
    by rewrite Z.mul_1_r.
Qed.

(** [random() * total] is below the total the float [total] was made of. *)
Lemma float_mul_random_below k T :
  0 ≤ k < 2 ^ 53 → 0 < T →
  float_lt (float_mul (random_float k) (inject_Z (nearest_float T))) T = true.
Proof.
  intros [Hk0 Hk1] HT.
  destruct (nearest_float_pos T HT) as [Hv _].
  destruct (nearest_float_binade T HT) as (m & Hm & Hlo & Hb1 & Hb2 & Hvle).
  set (v := nearest_float T) in *. clearbody v.
  unfold float_mul, random_float, round_float, Qmult. cbn [Qnum Qden inject_Z].
  change (9007199254740992 * 1)%positive with 9007199254740992%positive.
  destruct (Z.leb_spec (k * v) 0) as [Hn | Hn].
  { unfold float_lt. simpl. apply Z.ltb_lt. lia. }
  rewrite floor_log2_random by done.
  rewrite float_lt_rounded. apply Z.ltb_lt.
  assert (1 ≤ k) as Hk by nia.
  pose proof (Z.log2_spec (k * v) Hn) as [Hn1 Hn2].
  pose proof (Z.log2_nonneg (k * v)) as HLn.
  pose proof (Z.log2_nonneg T) as HL.
  set (e := Z.log2 T - 52) in *.
  set (E := Z.log2 (k * v) - 53 - 52) in *.
  assert (E ≤ e) as HEe.
  { assert (Z.log2 (k * v) < Z.log2 T + 54); [|lia].
    apply Z.log2_lt_pow2; [done|].
    replace (Z.log2 T + 54) with (53 + (Z.log2 T + 1)) by lia.
    rewrite Z.pow_add_r by lia.
    assert (0 < 2 ^ (Z.log2 T + 1)) by (apply Z.pow_pos_nonneg; lia). nia. }
  pose proof (pow2_split E e) as Hsplit.
  rewrite (Z.max_l 0 (E - e)) in Hsplit by lia. change (2 ^ 0) with 1 in Hsplit.
  rewrite Z.mul_1_r in Hsplit.
  assert (1 ≤ 2 ^ Z.max 0 (e - E)) as HJ by (pose proof (pow2_pos (e - E)); lia).
  assert (2 ^ Z.log2 (k * v) * 2 ^ Z.max 0 (- E) = 2 ^ 105 * 2 ^ Z.max 0 E) as HpE.
  { rewrite <- !Z.pow_add_r by lia. f_equal. lia. }
  assert (2 ^ Z.succ (Z.log2 (k * v)) * 2 ^ Z.max 0 (- E) = 2 ^ 106 * 2 ^ Z.max 0 E) as HpE'.
  { rewrite <- !Z.pow_add_r by lia. f_equal. lia. }
  pose proof (pow2_pos E) as HR. pose proof (pow2_pos (- E)) as HP.
  pose proof (pow2_pos e) as HR'. pose proof (pow2_pos (- e)) as HP'.
  pose proof (round_half_even_bounds (k * v * 2 ^ Z.max 0 (- E))
                (9007199254740992 * 2 ^ Z.max 0 E) ltac:(nia) ltac:(nia)) as [_ HM].
  set (M := round_half_even _ _) in *. clearbody M.
  set (R := 2 ^ Z.max 0 E) in *. set (P := 2 ^ Z.max 0 (- E)) in *.
  set (R' := 2 ^ Z.max 0 e) in *. set (P' := 2 ^ Z.max 0 (- e)) in *.
  set (J := 2 ^ Z.max 0 (e - E)) in *.
  assert (2 ^ 105 * R ≤ k * v * P) as HN1 by nia.
  assert (k * v * P < 2 ^ 106 * R) as HN2 by nia.
  clear Hn1 Hn2 HpE HpE'.
  change 9007199254740992 with (2 * 2 ^ 52) in HM.
  change (2 ^ 53) with (2 * 2 ^ 52) in Hk1.
  change (2 ^ 105) with (2 * 2 ^ 52 * 2 ^ 52) in HN1.
  change (2 ^ 106) with (4 * 2 ^ 52 * 2 ^ 52) in HN2.
  assert (0 < 2 ^ 52) as HC by done.
  set (C := 2 ^ 52) in *.
  clearbody C R P R' P' J. clear HLn HL HEe Hvle e E.
  (* everything on the scale of the binade of [T] *)
  assert (k * v * P * (P' * J) = k * m * J * (R' * P)) as Hscale.
  { transitivity (k * (v * P') * P * J); [ring|]. rewrite Hm. ring. }
  assert (0 < R' * P) as HW by nia.
  assert (0 < P' * J) as HW' by nia.
  assert (R * (P' * J) = R' * P) as Hsplit' by lia.
  assert (2 * C * C ≤ k * m * J) as Hc1.
  { apply (Z.mul_le_mono_pos_r _ _ (R' * P) HW).
    rewrite <- Hscale.
    transitivity (2 * C * C * R * (P' * J)); [rewrite <- Hsplit'; lia|].
    by apply Z.mul_le_mono_nonneg_r; [lia|]. }
  assert (k * m * J < 4 * C * C) as Hc2.
  { apply (Z.mul_lt_mono_pos_r (R' * P) _ _ HW).
    rewrite <- Hscale.
    apply Z.lt_le_trans with (4 * C * C * R * (P' * J)); [|rewrite <- Hsplit'; lia].
    by apply Z.mul_lt_mono_pos_r. }
  assert (4 * C * M ≤ 2 * (k * m * J) + 2 * C) as Hc3.
  { apply (Z.mul_le_mono_pos_r _ _ (R' * P) HW).
    transitivity (2 * (M * (2 * C * R)) * (P' * J)); [rewrite <- Hsplit'; lia|].
    transitivity ((2 * (k * v * P) + 2 * C * R) * (P' * J)).
    - by apply Z.mul_le_mono_nonneg_r; [lia|].
    - rewrite Z.mul_add_distr_r, Z.mul_add_distr_r.
      replace (2 * (k * v * P) * (P' * J)) with (2 * (k * v * P * (P' * J))) by ring.
      rewrite Hscale. rewrite <- Hsplit'. lia. }
  pose proof (rounded_product_below C k m J M R' (T * P')
                HC Hk Hk1 HR' HJ Hlo Hb1 Hb2 Hc1 Hc2 Hc3) as Hcore.
  apply (Z.mul_lt_mono_pos_r (P' * J)); [done|].
  replace (M * R * (P' * J)) with (M * (R * (P' * J))) by ring.
  rewrite Hsplit'. nia.
Qed.

Lemma float_of_int_pos n :
  0 < n → n < OVERFLOW → float_of_int n = Ok (inject_Z (nearest_float n)).
Proof.
  intros Hn Hov. unfold float_of_int.
  rewrite Z.abs_eq, Z.sgn_pos, Z.mul_1_l by lia.
  destruct (nearest_float_pos n Hn) as [_ Hmax].
  by destruct (Z.ltb_spec DBL_MAX (nearest_float n)) as [Hbig | _]; [lia|].
Qed.

Lemma round_half_even_nonneg n d : 0 ≤ n → 0 < d → 0 ≤ round_half_even n d.
Proof.
  intros Hn Hd. pose proof (Z.div_pos n d Hn Hd).
  destruct (round_half_even_cases n d Hn Hd) as [(-> & _) | (-> & _)]; lia.
Qed.

Lemma round_float_nonneg x : 0 ≤ Qnum (round_float x).
Proof.
  unfold round_float. destruct (Z.leb_spec (Qnum x) 0) as [|Hn]; [done|].
  set (e := floor_log2 _ _ - 52).
  assert (0 ≤ round_half_even (Qnum x * 2 ^ Z.max 0 (- e))
                (Zpos (Qden x) * 2 ^ Z.max 0 e)) as HM.
  { pose proof (pow2_pos e). pose proof (pow2_pos (- e)).
    apply round_half_even_nonneg; nia. }
  destruct (0 <=? e); cbn [Qnum inject_Z]; [|done].
  apply Z.mul_nonneg_nonneg; [done|]. apply Z.pow_nonneg. lia.
Qed.

Lemma bisect_ext a x y lo hi :
  (∀ c, float_lt x c = float_lt y c) → bisect a x lo hi = bisect a y lo hi.
Proof.
  intros Hxy. remember (hi - lo)%nat as n eqn:Hn. revert lo hi Hn.
  induction n as [n IH] using lt_wf_ind. intros lo hi Hn.
  simp bisect. destruct (decide (lo < hi)%nat) as [Hlt | Hge]; cbn -[Nat.div]; [|done].
  destruct (a !! ((lo + hi) / 2)%nat) as [c|]; cbn -[Nat.div]; [|done].
  pose proof (mid_bounds lo hi Hlt) as [Hlo Hmid].
  rewrite <- Hxy. destruct (float_lt x c); cbn -[Nat.div].
  - apply (IH ((lo + hi) / 2 - lo)%nat); lia.
  - apply (IH (hi - S ((lo + hi) / 2))%nat); lia.
Qed.

Lemma float_lt_place x total c :
  0 < total → float_lt (Qmult (place x total) (inject_Z total)) c = float_lt x c.
Proof.
  intros Ht. unfold float_lt, place, Qmult. cbn [Qnum Qden inject_Z].
  rewrite Pos.mul_1_r, Pos2Z.inj_mul, Z2Pos.id by done.
  destruct (Z.ltb_spec (Qnum x) (c * Zpos (Qden x))) as [Hlt | Hge].
  - apply Z.ltb_lt. nia.
  - apply Z.ltb_ge. nia.
Qed.

Lemma place_unit x total :
  0 < total → float_lt x 0 = false → float_lt x total = true →
  (0 <= place x total)%Q ∧ (place x total < 1)%Q.
Proof.
  unfold float_lt, place, Qle, Qlt. cbn [Qnum Qden].
  intros Ht H0 H1. apply Z.ltb_ge in H0. apply Z.ltb_lt in H1.
  rewrite Pos2Z.inj_mul, Z2Pos.id by done. lia.
Qed.

Lemma searched_unit k total :
  0 ≤ k < 2 ^ 53 → 0 < total →
  (0 <= place (searched k total) total)%Q ∧ (place (searched k total) total < 1)%Q.
Proof.
  intros Hk Ht. apply place_unit; [done | |by apply float_mul_random_below].
  unfold float_lt. apply Z.ltb_ge. simpl. apply round_float_nonneg.
Qed.

Lemma Qle_bool_inject_Z v : Qle_bool (inject_Z v) 0 = (v <=? 0).
Proof.
  unfold Qle_bool. simpl. by rewrite Z.mul_1_r.
Qed.

Lemma choices_float_empty {A} (population : list A) u :
  choices_float population [] u
  = Raise (if decide (population = []) then IndexError else ValueError).
Proof. by destruct population. Qed.

Lemma choices_float_overflow {A} (population : list A) ws u :
  length population = length ws → ws ≠ [] → OVERFLOW ≤ Z.abs (sum_weights ws) →
  choices_float population ws u = Raise OverflowError.
Proof.
  intros Hlen Hne Hov. unfold choices_float.
  unfold accumulate at 1. rewrite length_accumulate_from, Hlen, Nat.eqb_refl. simpl.
  rewrite accumulate_last. destruct ws as [|w ws]; [done|].
  by rewrite (proj2 (float_of_int_spec _) Hov).
Qed.

Lemma choices_float_nonpositive {A} (population : list A) ws u :
  length population = length ws → ws ≠ [] →
  sum_weights ws ≤ 0 → - OVERFLOW < sum_weights ws →
  choices_float population ws u = Raise ValueError.
Proof.
  intros Hlen Hne Hsum Hov. unfold choices_float.
  unfold accumulate at 1. rewrite length_accumulate_from, Hlen, Nat.eqb_refl. simpl.
  rewrite accumulate_last. destruct ws as [|w ws]; [done|].
  destruct (proj1 (float_of_int_spec (sum_weights (w :: ws))) ltac:(lia))
    as (v & -> & Hpos & Hneg).
  cbn [bind]. rewrite Qle_bool_inject_Z.
  by destruct (Z.leb_spec v 0); [|lia].
Qed.

Lemma choices_float_positive {A} (population : list A) ws u :
  length population = length ws →
  0 < sum_weights ws → sum_weights ws < OVERFLOW →
  ∃ v i k,
    float_of_int (sum_weights ws) = Ok (inject_Z v) ∧ 0 < v ∧
    choices_float population ws u = Ok [k] ∧ population !! i = Some k ∧
    bisect (accumulate ws) (float_mul u (inject_Z v)) 0 (length ws - 1) = Ok i.
Proof.
  intros Hlen Hsum Hov. unfold choices_float.
  unfold accumulate at 1. rewrite length_accumulate_from, Hlen, Nat.eqb_refl. simpl.
  rewrite accumulate_last. destruct ws as [|w ws]; [simpl in Hsum; lia|].
  destruct (proj1 (float_of_int_spec (sum_weights (w :: ws))) ltac:(lia))
    as (v & -> & Hpos & Hneg).
  cbn [bind]. rewrite Qle_bool_inject_Z.
  destruct (Z.leb_spec v 0); [lia|].
  destruct (bisect_spec (accumulate (w :: ws)) (float_mul u (inject_Z v)) 0
              (length (w :: ws) - 1)) as (i & Hi & Hrange & _).
  { lia. }
  { unfold accumulate. rewrite length_accumulate_from. simpl. lia. }
  rewrite Hi. simpl bind.
  destruct (lookup_lt_is_Some_2 population i) as [k Hk]; [simpl in *; lia|].
  exists v, i, k. rewrite Hk. split; [done|]. split; [lia|]. done.
Qed.

(** With a total that has a float, the draw with the floats of CPython is
    the exact draw at the place of the value searched. *)
Lemma choices_float_exact {A} (population : list A) ws k :
  length population = length ws →
  0 < sum_weights ws → sum_weights ws < OVERFLOW →
  choices_float population ws (random_float k)
  = choices population ws (place (searched k (sum_weights ws)) (sum_weights ws)).
Proof.
  intros Hlen Hsum Hov. unfold choices_float, choices.
  assert (length (accumulate ws) = length ws) as Hacc
    by (unfold accumulate; apply length_accumulate_from).
  rewrite Hacc, Hlen, Nat.eqb_refl. cbn [negb].
  rewrite accumulate_last. destruct ws as [|w ws]; [simpl in Hsum; lia|].
  rewrite float_of_int_pos by done. cbn [bind].
  rewrite Qle_bool_inject_Z.
  destruct (nearest_float_pos _ Hsum) as [Hv _].
  destruct (Z.leb_spec (nearest_float (sum_weights (w :: ws))) 0); [lia|].
  destruct (Z.leb_spec (sum_weights (w :: ws)) 0); [lia|].
  rewrite (bisect_ext _ (Qmult (place (searched k (sum_weights (w :: ws)))
                                  (sum_weights (w :: ws)))
                           (inject_Z (sum_weights (w :: ws))))
             (searched k (sum_weights (w :: ws)))); [done|].
  intros c. by apply float_lt_place.
Qed.

Lemma choices_float_same {A} (population : list A) ws u u' :
  length population = length ws →
  sum_weights ws ≤ 0 → - OVERFLOW < sum_weights ws →
  choices_float population ws u = choices population ws u'.
Proof.
  intros Hlen Hsum Hov.
  destruct (decide (ws = [])) as [-> | Hne].
  { by rewrite choices_float_empty, choices_empty. }
  by rewrite choices_float_nonpositive, choices_nonpositive.
Qed.

(** ** Dictionaries *)

Section dict_facts.
Context {K : Type}.
Implicit Types m : WeightMap K.

Lemma length_keys_values m : length (keys m) = length (values m).
Proof. unfold keys, values. by rewrite !length_fmap. Qed.

Lemma sum_nonneg ws : Forall (λ w, 0 ≤ w) ws → 0 ≤ sum_weights ws.
Proof. induction 1; simpl; lia. Qed.

Lemma sum_zero_iff ws :
  Forall (λ w, 0 ≤ w) ws → sum_weights ws = 0 ↔ Forall (λ w, w = 0) ws.
Proof.
  induction 1 as [|w ws Hw Hws IH]; simpl.
  - split; [constructor | done].
  - pose proof (sum_nonneg ws Hws). split.
    + intros Hs. constructor; [lia | apply IH; lia].
    + intros Hz. inversion Hz; subst. apply IH in H3. lia.
Qed.

Lemma sum_elem_of_pos ws w :
  Forall (λ w, 0 ≤ w) ws → w ∈ ws → 0 < w → 0 < sum_weights ws.
Proof.
  induction 1 as [|w' ws Hw Hws IH]; intros Hin Hpos.
  - by apply not_elem_of_nil in Hin.
  - simpl. pose proof (sum_nonneg ws Hws).
    apply elem_of_cons in Hin as [-> | Hin]; [lia | specialize (IH Hin Hpos); lia].
Qed.

Lemma call_Raise m u e :
  (call m u).1 = Raise e ↔
  (m = [] ∧ e = IndexError) ∨ (m ≠ [] ∧ total_weight m ≤ 0 ∧ e = ValueError).
Proof.
  unfold call, total_weight. simpl.
  destruct (decide (m = [])) as [-> | Hne].
  { simpl. split; [intros [= <-]; by left | intros [[_ ->] | [? _]]; done]. }
  assert (values m ≠ []) as Hv by (by destruct m).
  destruct (Z.lt_ge_cases 0 (sum_weights (values m))) as [Hpos | Hnp].
  - destruct (choices_positive (keys m) (values m) u (length_keys_values m) Hpos)
      as (i & k & -> & _). simpl.
    split; [done | intros [[? _] | (_ & ? & _)]; [done | lia]].
  - rewrite choices_nonpositive by (done || apply length_keys_values || lia). simpl.
    split; [intros [= <-]; right; repeat split; [done | lia] | ].
    intros [[? _] | (_ & _ & ->)]; done.
Qed.

Lemma call_Ok m u :
  0 < total_weight m → ∃ k, (call m u).1 = Ok k ∧ k ∈ keys m.
Proof.
  intros Hpos. unfold call. simpl.
  destruct (choices_positive (keys m) (values m) u (length_keys_values m) Hpos)
    as (i & k & -> & Hk & _). simpl.
  exists k. split; [done|]. by eapply list_elem_of_lookup_2.
Qed.

Lemma call_entry m u k :
  (0 <= u)%Q → (u < 1)%Q → (call m u).1 = Ok k →
  ∃ i w, m !! i = Some (k, w) ∧ 0 < w.
Proof.
  intros H0 H1. unfold call. simpl.
  destruct (choices (keys m) (values m) u) as [drawn|e] eqn:Hch; [|done].
  destruct (choices_weight _ _ _ _ (length_keys_values m) H0 H1 Hch)
    as (i & k' & w & -> & Hk & Hw & Hpos).
  simpl. intros [= <-]. exists i, w. split; [|done].
  unfold keys, values in *. rewrite list_lookup_fmap in Hk. rewrite list_lookup_fmap in Hw.
  apply fmap_Some in Hk as ([k0 w0] & Hm & ->).
  apply fmap_Some in Hw as ([k1 w1] & Hm' & ->).
  rewrite Hm in Hm'. by injection Hm' as <- <-.
Qed.

(** *** Dictionaries whose key test is identity *)

Context `{EqDecision K}.
Variable key_eq : K → K → result bool.

Lemma lookup_item_agrees m k :
  agrees key_eq m k → lookup_item key_eq m k = lookup_item is_eq m k.
Proof.
  induction m as [|[stored w] m IH]; intros Hag; [done|].
  apply Forall_cons in Hag as [Hs Hag]. simpl in Hs. simpl. rewrite Hs.
  unfold is_eq. simpl. destruct (bool_decide (stored = k)); [done | exact (IH Hag)].
Qed.

Lemma store_item_agrees m k v :
  agrees key_eq m k → store_item key_eq m k v = store_item is_eq m k v.
Proof.
  induction m as [|[stored w] m IH]; intros Hag; [done|].
  apply Forall_cons in Hag as [Hs Hag]. simpl in Hs. simpl. rewrite Hs.
  unfold is_eq. simpl. destruct (bool_decide (stored = k)); [done|].
  by rewrite (IH Hag).
Qed.

Lemma is_eq_true (k : K) : is_eq k k = Ok true.
Proof. unfold is_eq. by rewrite bool_decide_eq_true_2. Qed.

Lemma is_eq_false (a b : K) : a ≠ b → is_eq a b = Ok false.
Proof. intros Hne. unfold is_eq. by rewrite bool_decide_eq_false_2. Qed.

Lemma keys_cons (stored : K) w m : keys ((stored, w) :: m) = stored :: keys m.
Proof. done. Qed.

Lemma lookup_item_is m k :
  lookup_item is_eq m k =
    Ok (if decide (k ∈ keys m) then Some (weight_of m k) else None).
Proof.
  induction m as [|[stored w] m IH]; [done|].
  cbn [lookup_item weight_of]. rewrite keys_cons.
  destruct (decide (stored = k)) as [-> | Hne].
  - rewrite is_eq_true. cbn [bind]. rewrite decide_True; [done | by left].
  - rewrite is_eq_false by done. cbn [bind]. rewrite IH.
    destruct (decide (k ∈ keys m)) as [Hin | Hin].
    + rewrite decide_True; [done | by right].
    + rewrite decide_False; [done|]. intros Hc. apply elem_of_cons in Hc as [? | ?]; done.
Qed.

(** The entries after [self[k] = v] under the identity test. *)
Lemma store_item_is m k v :
  ∃ m', store_item is_eq m k v = Ok m' ∧
        weight_of m' k = v ∧
        (∀ k', k' ≠ k → weight_of m' k' = weight_of m k') ∧
        keys m' = (if decide (k ∈ keys m) then keys m else keys m ++ [k]).
Proof.
  induction m as [|[stored w] m (m' & Hm' & Hk & Hother & Hkeys)].
  - exists [(k, v)]. cbn [store_item weight_of]. rewrite decide_True by done.
    repeat split. intros k' Hne. by rewrite decide_False.
  - cbn [store_item]. rewrite keys_cons. destruct (decide (stored = k)) as [-> | Hne].
    + rewrite is_eq_true. cbn [bind]. exists ((k, v) :: m). cbn [weight_of].
      rewrite decide_True by done. repeat split.
      * intros k' Hne. by rewrite !decide_False.
      * rewrite decide_True; [done | by left].
    + rewrite is_eq_false by done. cbn [bind]. rewrite Hm'. cbn [bind].
      exists ((stored, w) :: m'). cbn [weight_of]. rewrite decide_False by done.
      repeat split; [done | |].
      * intros k' Hne'. destruct (decide (stored = k')); [done | by apply Hother].
      * rewrite keys_cons, Hkeys. destruct (decide (k ∈ keys m)) as [Hin | Hin].
        -- rewrite decide_True; [done | by right].
        -- rewrite decide_False; [done|].
           intros Hc. apply elem_of_cons in Hc as [? | ?]; done.
Qed.

Lemma weight_of_not_elem m k : k ∉ keys m → weight_of m k = 0.
Proof.
  induction m as [|[stored w] m IH]; [done|]. rewrite keys_cons. intros Hnin.
  apply not_elem_of_cons in Hnin as [Hne Hnin]. cbn [weight_of].
  rewrite decide_False by done. auto.
Qed.

Lemma store_item_is_new m k v :
  k ∉ keys m → store_item is_eq m k v = Ok (m ++ [(k, v)]).
Proof.
  induction m as [|[stored w] m IH]; [done|]. rewrite keys_cons. intros Hnin.
  apply not_elem_of_cons in Hnin as [Hne Hnin].
  cbn [store_item]. rewrite is_eq_false by done. cbn [bind].
  by rewrite IH.
Qed.

Lemma getitem_agrees m k : agrees key_eq m k → getitem key_eq m k = getitem is_eq m k.
Proof.
  intros Hag. unfold getitem, setitem.
  by rewrite lookup_item_agrees, store_item_agrees.
Qed.

Lemma setitem_agrees m k v : agrees key_eq m k → setitem key_eq m k v = setitem is_eq m k v.
Proof. intros Hag. unfold setitem. by rewrite store_item_agrees. Qed.

Lemma getitem_is m k :
  getitem is_eq m k =
    (Ok (weight_of m k), if decide (k ∈ keys m) then m else m ++ [(k, 0)]).
Proof.
  unfold getitem, setitem. rewrite lookup_item_is.
  destruct (decide (k ∈ keys m)) as [Hin | Hin]; [done|].
  by rewrite store_item_is_new, weight_of_not_elem.
Qed.

Lemma weight_of_app_new m k k' v :
  k ∉ keys m → weight_of (m ++ [(k, v)]) k' = if decide (k = k') then v else weight_of m k'.
Proof.
  induction m as [|[stored w] m IH]; [done|]. rewrite keys_cons. intros Hnin.
  apply not_elem_of_cons in Hnin as [Hne Hnin].
  cbn [app weight_of]. destruct (decide (stored = k')) as [-> | Hne'].
  - by rewrite decide_False.
  - by apply IH.
Qed.

Lemma weight_of_lookup m i k w :
  NoDup (keys m) → m !! i = Some (k, w) → weight_of m k = w.
Proof.
  revert i. induction m as [|[stored w'] m IH]; intros i Hnd Hi; [done|].
  rewrite keys_cons in Hnd. apply NoDup_cons in Hnd as [Hnin Hnd].
  cbn [weight_of]. destruct i as [|i]; simpl in Hi.
  - injection Hi as -> ->. by rewrite decide_True.
  - rewrite decide_False; [by apply (IH i)|].
    intros ->. apply Hnin. apply list_elem_of_lookup_2 in Hi.
    unfold keys. apply list_elem_of_fmap. by exists (k, w).
Qed.

Lemma iadd_item_is m k amount :
  ∃ m', iadd_item is_eq m k amount = (Ok (), m') ∧
        weight_of m' k = weight_of m k + amount ∧
        (∀ k', k' ≠ k → weight_of m' k' = weight_of m k') ∧
        keys m' = (if decide (k ∈ keys m) then keys m else keys m ++ [k]).
Proof.
  unfold iadd_item. rewrite getitem_is. unfold setitem.
  destruct (decide (k ∈ keys m)) as [Hin | Hin].
  - destruct (store_item_is m k (weight_of m k + amount)) as (m' & -> & Hk & Ho & Hkeys).
    exists m'. rewrite decide_True in Hkeys by done. done.
  - destruct (store_item_is (m ++ [(k, 0)]) k (weight_of m k + amount))
      as (m' & -> & Hk & Ho & Hkeys).
    exists m'. repeat split; [done | |].
    + intros k' Hne. rewrite Ho by done. rewrite weight_of_app_new by done.
      by rewrite decide_False.
    + rewrite Hkeys. unfold keys. rewrite fmap_app. simpl.
      rewrite decide_True; [done|]. apply elem_of_app. right. by left.
Qed.

End dict_facts.

(** ** The properties of [WeightMap] *)

Section call_float_facts.
Context {K : Type}.
Implicit Types m : list (K * Z).

(** When [__call__] raises, and what. *)
Lemma call_float_Raise m u e :
  (call_float m u).1 = Raise e ↔
  (m = [] ∧ e = IndexError) ∨
  (m ≠ [] ∧ total_weight m ≤ 0 ∧ - OVERFLOW < total_weight m ∧ e = ValueError) ∨
  (m ≠ [] ∧ OVERFLOW ≤ Z.abs (total_weight m) ∧ e = OverflowError).
Proof.
  unfold call_float, total_weight. simpl.
  destruct (decide (m = [])) as [-> | Hne].
  { simpl. split; [intros [= <-]; by left | intros [[_ ->] | [[? _] | [? _]]]; done]. }
  assert (values m ≠ []) as Hv by (by destruct m).
  assert (0 < OVERFLOW) as HO by (by vm_compute).
  destruct (Z.le_gt_cases OVERFLOW (Z.abs (sum_weights (values m)))) as [Hov | Hin].
  { rewrite choices_float_overflow by (done || apply length_keys_values). simpl.
    split; [intros [= <-]; do 2 right; by repeat split|].
    intros [[? _] | [(_ & ? & ? & _) | (_ & _ & ->)]]; [done | lia | done]. }
  destruct (Z.lt_ge_cases 0 (sum_weights (values m))) as [Hpos | Hnp].
  - destruct (choices_float_positive (keys m) (values m) u (length_keys_values m) Hpos)
      as (v & i & k & _ & _ & -> & _); [lia|]. simpl.
    split; [done | intros [[? _] | [(_ & ? & _) | (_ & ? & _)]]; [done | lia | lia]].
  - rewrite choices_float_nonpositive by (done || apply length_keys_values || lia). simpl.
    split; [intros [= <-]; right; left; repeat split; [done | lia | lia] | ].
    intros [[? _] | [(_ & _ & _ & ->) | (_ & ? & _)]]; [done | done | lia].
Qed.

Lemma call_float_Ok m u :
  0 < total_weight m → total_weight m < OVERFLOW →
  ∃ k, (call_float m u).1 = Ok k ∧ k ∈ keys m.
Proof.
  intros Hpos Hov. unfold call_float. simpl.
  destruct (choices_float_positive (keys m) (values m) u (length_keys_values m) Hpos Hov)
    as (v & i & k & _ & _ & -> & Hk & _). simpl.
  exists k. split; [done|]. by eapply list_elem_of_lookup_2.
Qed.
Lemma call_float_exact m k :
  0 < total_weight m → total_weight m < OVERFLOW →
  call_float m (random_float k)
  = call m (place (searched k (total_weight m)) (total_weight m)).
Proof.
  intros Hpos Hov. unfold call_float, call.
  by rewrite (choices_float_exact _ _ _ (length_keys_values m) Hpos Hov).
Qed.

Lemma call_float_same m u u' :
  total_weight m ≤ 0 → - OVERFLOW < total_weight m →
  call_float m u = call m u'.
Proof.
  intros Hle Hov. unfold call_float, call.
  by rewrite (choices_float_same _ _ u u' (length_keys_values m) Hle Hov).
Qed.

(** With a total that has a float, the draw with the floats of CPython
    is a draw of the exact model. *)
Lemma call_float_call m k :
  0 ≤ k < 2 ^ 53 → Z.abs (total_weight m) < OVERFLOW →
  ∃ u, (0 <= u)%Q ∧ (u < 1)%Q ∧ call_float m (random_float k) = call m u.
Proof.
  intros Hk Hov. destruct (Z.lt_ge_cases 0 (total_weight m)) as [Hpos | Hle].
  - exists (place (searched k (total_weight m)) (total_weight m)).
    destruct (searched_unit k (total_weight m) Hk Hpos) as [H0 H1].
    split; [done|]. split; [done|]. apply call_float_exact; lia.
  - exists 0%Q. split; [done|]. split; [done|]. apply call_float_same; lia.
Qed.
End call_float_facts.

(** C6, as the code has it: on a mapping with non-negative weights,
    [__call__] raises one of the two exceptions the specification calls
    EmptyDistribution if and only if the total weight is zero, that is
    when the mapping has no keys or every stored weight is zero; when some
    key has a positive weight and the total weight is below [OVERFLOW],
    so that it has a float, a key of the mapping is returned; and from
    [OVERFLOW] on the total has no float and [__call__] raises
    [OverflowError]. *)
Theorem sample_fails_iff_total_zero {K} (m : list (K * Z)) (u : random.float) :
  Forall (λ w, 0 ≤ w) (values m) →
  ((∃ e, (call_float m u).1 = Raise e ∧ EmptyDistribution e) ↔ total_weight m = 0) ∧
  (total_weight m = 0 ↔ keys m = [] ∨ Forall (λ w, w = 0) (values m)) ∧
  ((∃ k w, (k, w) ∈ m ∧ 0 < w) → total_weight m < OVERFLOW →
   ∃ k, (call_float m u).1 = Ok k ∧ k ∈ keys m) ∧
  (OVERFLOW ≤ total_weight m → (call_float m u).1 = Raise OverflowError).
Proof.
  intros Hnn. pose proof (sum_nonneg _ Hnn) as Hsum. fold (total_weight m) in Hsum.
  assert (0 < OVERFLOW) as HO by (by vm_compute).
  split; [|split; [|split]].
  - split.
    + intros (e & He & Hempty). apply call_float_Raise in He
        as [[-> _] | [(_ & Hle & _) | (_ & _ & ->)]]; [done | lia |].
      by destruct Hempty.
    + intros Hz. destruct (decide (m = [])) as [-> | Hne].
      * exists IndexError. split; [|by left]. apply call_float_Raise. by left.
      * exists ValueError. split; [|by right]. apply call_float_Raise. right. left.
        repeat split; [done | lia | lia].
  - split.
    + intros Hz. right. by apply sum_zero_iff.
    + intros [Hk | Hz]; [by destruct m | by apply sum_zero_iff].
  - intros (k & w & Hin & Hpos) Hov. apply call_float_Ok; [|done].
    apply (sum_elem_of_pos _ w); [done | | done].
    unfold values. apply list_elem_of_fmap. by exists (k, w).
  - intros Hov. apply call_float_Raise. do 2 right.
    split; [intros ->; unfold total_weight in Hov; simpl in Hov; lia|].
    split; [lia | done].
Qed.

Lemma sample_fails_iff_total_zero_witness :
  Forall (λ w, 0 ≤ w) (values wmp) ∧
  (((∃ e, (call_float wmp (1 # 2)).1 = Raise e ∧ EmptyDistribution e)
    ↔ total_weight wmp = 0) ∧
   (total_weight wmp = 0 ↔ keys wmp = [] ∨ Forall (λ w, w = 0) (values wmp)) ∧
   ((∃ k w, (k, w) ∈ wmp ∧ 0 < w) → total_weight wmp < OVERFLOW →
    ∃ k, (call_float wmp (1 # 2)).1 = Ok k ∧ k ∈ keys wmp) ∧
   (OVERFLOW ≤ total_weight wmp → (call_float wmp (1 # 2)).1 = Raise OverflowError)).
Proof.
  assert (Forall (λ w, 0 ≤ w) (values wmp)) as Hnn.
  { repeat constructor; simpl; lia. }
  split; [exact Hnn | exact (sample_fails_iff_total_zero wmp (1 # 2) Hnn)].
Defined.

(** [WeightMap({'a': 10**400})()]: the key has a positive weight, and the
    draw raises [OverflowError], which is no EmptyDistribution. *)
Lemma sample_overflows :
  ("a"%string, 10 ^ 400) ∈ [("a"%string, 10 ^ 400)] ∧ 0 < 10 ^ 400 ∧
  (call_float [("a"%string, 10 ^ 400)] (1 # 2)).1 = Raise OverflowError ∧
  ¬ EmptyDistribution OverflowError.
Proof.
  split; [by left|]. split; [by vm_compute|]. split; [by vm_compute|].
  by intros [? | ?].
Qed.

(** The draw of the test of rounding: with the weights 2 and 1 and this
    value of [random()], the product [3 * u] is rounded to 2.0 and the
    second key is drawn, where the exact product draws the first. *)
Example rounded_draw :
  (call_float [("a"%string, 2); ("b"%string, 1)] (6004799503160661 # 9007199254740992)).1
    = Ok "b"%string ∧
  (call [("a"%string, 2); ("b"%string, 1)] (6004799503160661 # 9007199254740992)).1
    = Ok "a"%string.
Proof. by vm_compute. Qed.

(** C8: whatever value in [0, 1) [random()] returns, the key [__call__]
    returns is stored with a positive weight; a key that is stored only
    with weight 0, or not stored at all, is never returned; in a mapping
    (no key stored twice) the weight of the returned key is positive. *)
Theorem sample_positive_weight {K} `{EqDecision K} (m : list (K * Z))
    (u : random.float) (k : K) :
  (0 <= u)%Q → (u < 1)%Q → (call m u).1 = Ok k →
  (∃ i w, m !! i = Some (k, w) ∧ 0 < w) ∧
  ¬ (∀ w, (k, w) ∈ m → w = 0) ∧
  (NoDup (keys m) → 0 < weight_of m k).
Proof.
  intros H0 H1 Hcall.
  destruct (call_entry m u k H0 H1 Hcall) as (i & w & Hi & Hpos).
  split; [by exists i, w|]. split.
  - intros Hz. apply list_elem_of_lookup_2 in Hi. apply Hz in Hi. lia.
  - intros Hnd. by rewrite (weight_of_lookup m i k w Hnd Hi).
Qed.

Lemma sample_positive_weight_witness :
  (0 <= 1 # 2)%Q ∧ (1 # 2 < 1)%Q ∧ (call wmp (1 # 2)).1 = Ok "b"%string ∧
  ((∃ i w, wmp !! i = Some ("b"%string, w) ∧ 0 < w) ∧
   ¬ (∀ w, ("b"%string, w) ∈ wmp → w = 0) ∧
   (NoDup (keys wmp) → 0 < weight_of wmp "b"%string)).
Proof.
  assert (0 <= 1 # 2)%Q as H0 by (unfold Qle; simpl; lia).
  assert (1 # 2 < 1)%Q as H1 by reflexivity.
  assert ((call wmp (1 # 2)).1 = Ok "b"%string) as Hcall by reflexivity.
  split; [exact H0|]. split; [exact H1|]. split; [exact Hcall|].
  exact (sample_positive_weight wmp (1 # 2) "b"%string H0 H1 Hcall).
Defined.

Lemma store_item_absent {K} (key_eq : K → K → result bool) (m : list (K * Z)) k v :
  lookup_item key_eq m k = Ok None → store_item key_eq m k v = Ok (m ++ [(k, v)]).
Proof.
  induction m as [|[stored w] m IH]; [done|]. cbn [lookup_item store_item].
  destruct (key_eq stored k) as [[]|]; cbn [bind]; [done | | done].
  intros Hl. by rewrite (IH Hl).
Qed.

Lemma getitem_cases {K} (key_eq : K → K → result bool) (m : list (K * Z)) k :
  match lookup_item key_eq m k with
  | Ok (Some w) => getitem key_eq m k = (Ok w, m)
  | Ok None => getitem key_eq m k = (Ok 0, m ++ [(k, 0)])
  | Raise e => getitem key_eq m k = (Raise e, m)
  end.
Proof.
  unfold getitem, setitem. destruct (lookup_item key_eq m k) as [[w|]|e] eqn:Hl; [done | | done].
  by rewrite (store_item_absent _ _ _ _ Hl).
Qed.

(** C10, as the code has it: [__call__] leaves the mapping as it is, and
    so does [self[key]] on a key that is stored; on a key that is not
    stored, [self[key]] returns 0 and appends the entry [(key, 0)], which
    changes the key set and no stored weight: the weight read for any key
    is the same before and after. *)
Theorem get_and_sample_frame {K} `{EqDecision K} (key_eq : K → K → result bool)
    (m : list (K * Z)) (k : K) (u : random.float) :
  (call m u).2 = m ∧
  match lookup_item key_eq m k with
  | Ok (Some w) => getitem key_eq m k = (Ok w, m)
  | Ok None => getitem key_eq m k = (Ok 0, m ++ [(k, 0)])
  | Raise e => getitem key_eq m k = (Raise e, m)
  end ∧
  (∀ k', weight_of (getitem is_eq m k).2 k' = weight_of m k').
Proof.
  split; [done|]. split; [apply getitem_cases|].
  intros k'. rewrite getitem_is. simpl. case_decide as Hin; [done|].
  rewrite weight_of_app_new by done. case_decide as Hk; [|done].
  subst k'. by rewrite weight_of_not_elem.
Qed.

(** [wmp['c']] on the mapping of the notebook: the key ['c'] is not stored,
    the read returns 0, and the mapping has the key afterwards. *)
Lemma get_absent_key_inserts :
  lookup_item is_eq wmp "c"%string = Ok None ∧
  getitem is_eq wmp "c"%string = (Ok 0, wmp ++ [("c"%string, 0)]) ∧
  keys (getitem is_eq wmp "c"%string).2 ≠ keys wmp.
Proof. repeat split. discriminate. Qed.

(** ** Nodes *)

Section node_facts.
Context {payload : Type} `{EqDecision payload} `{Inhabited payload}.
Variable hash : payload → Z.
Variable recursion_limit : nat.
Implicit Types (σ : list (MarkovNode payload)) (st : state payload) (r node : nat) (d : payload).

Lemma obj_lookup σ r n : σ !! r = Some n → obj σ r = n.
Proof. intros Hn. unfold obj. by rewrite list_lookup_total_alt, Hn. Qed.

Lemma obj_outside σ r : (length σ ≤ r)%nat → obj σ r = inhabitant.
Proof.
  intros Hr. unfold obj. by rewrite list_lookup_total_alt, lookup_ge_None_2.
Qed.

Lemma obj_elem_of σ r : (r < length σ)%nat → σ !! r = Some (obj σ r).
Proof.
  intros Hr. destruct (lookup_lt_is_Some_2 σ r Hr) as [n Hn].
  by rewrite (obj_lookup _ _ _ Hn).
Qed.

Lemma obj_app_l σ σ' r : (r < length σ)%nat → obj (σ ++ σ') r = obj σ r.
Proof. intros Hr. unfold obj. by rewrite lookup_total_app_l. Qed.

Lemma obj_app_new σ n : obj (σ ++ [n]) (length σ) = n.
Proof. apply obj_lookup. by rewrite lookup_app_r, Nat.sub_diag. Qed.

Lemma obj_app_beyond σ n r : (length σ < r)%nat → obj (σ ++ [n]) r = obj σ r.
Proof.
  intros Hr. rewrite !obj_outside; [done | lia |]. rewrite length_app. simpl. lia.
Qed.

Lemma length_set_edges σ r m : length (set_edges σ r m) = length σ.
Proof. unfold set_edges. apply length_alter. Qed.

Lemma obj_set_edges_ne σ r r' m : r ≠ r' → obj (set_edges σ r m) r' = obj σ r'.
Proof.
  intros Hne. unfold obj, set_edges.
  by rewrite !list_lookup_total_alt, list_lookup_alter_ne.
Qed.

Lemma obj_set_edges_eq σ r m :
  (r < length σ)%nat →
  obj (set_edges σ r m) r = {| data := data (obj σ r); edges := m |}.
Proof.
  intros Hr. apply obj_lookup. unfold set_edges.
  by rewrite list_lookup_alter_eq, (obj_elem_of _ _ Hr).
Qed.

Lemma data_set_edges σ r r' m : data (obj (set_edges σ r m) r') = data (obj σ r').
Proof.
  destruct (decide (r = r')) as [<- | Hne]; [|by rewrite obj_set_edges_ne].
  destruct (decide (r < length σ)%nat) as [Hr | Hr].
  - by rewrite obj_set_edges_eq.
  - rewrite !obj_outside; [done | lia |]. rewrite length_set_edges. lia.
Qed.

Lemma fmap_data_set_edges σ r m : data <$> set_edges σ r m = data <$> σ.
Proof.
  unfold set_edges. apply list_eq. intros i.
  rewrite !list_lookup_fmap.
  destruct (decide (r = i)) as [<- | Hne].
  - rewrite list_lookup_alter_eq. by destruct (σ !! r).
  - by rewrite list_lookup_alter_ne.
Qed.

(** *** [find] *)

Lemma find_found st d add i node :
  list_find (λ node, data (obj (heap st) node) = d) (nodes st) = Some (i, node) →
  find d add st = (Ok node, st).
Proof. intros Hf. unfold find. by rewrite Hf. Qed.

Lemma find_new st d :
  list_find (λ node, data (obj (heap st) node) = d) (nodes st) = None →
  find d true st =
    (Ok (length (heap st)),
     {| heap := heap st ++ [init d];
        nodes := nodes st ++ [length (heap st)] |}).
Proof. intros Hf. unfold find. by rewrite Hf. Qed.

Lemma find_again st d :
  list_find (λ node, data (obj (heap st) node) = d) (nodes st) = None →
  ∃ i, list_find
         (λ node, data (obj (heap st ++ [init d]) node) = d)
         (nodes st ++ [length (heap st)]) = Some (i, length (heap st)).
Proof.
  intros Hf. set (σ' := heap st ++ _).
  destruct (list_find (λ node, data (obj σ' node) = d) (nodes st ++ [length (heap st)]))
    as [[i node]|] eqn:Hf'.
  - exists i. apply list_find_Some in Hf' as (Hi & Hd & _).
    destruct (decide (node = length (heap st))) as [-> | Hne]; [done|].
    exfalso. apply list_find_None in Hf.
    assert (node ∈ nodes st) as Hin.
    { apply list_elem_of_lookup_2 in Hi. apply elem_of_app in Hi as [? | Hi]; [done|].
      by apply list_elem_of_singleton in Hi. }
    rewrite Forall_forall in Hf. apply (Hf node Hin).
    rewrite <- Hd. unfold σ'.
    destruct (decide (node < length (heap st))%nat).
    + by rewrite obj_app_l.
    + rewrite obj_app_beyond; [done | lia].
  - exfalso. apply list_find_None in Hf'. rewrite Forall_app, Forall_singleton in Hf'.
    destruct Hf' as [_ Hf']. apply Hf'. unfold σ'. by rewrite obj_app_new.
Qed.

Lemma find_twice st d node st1 :
  find d true st = (Ok node, st1) → find d true st1 = (Ok node, st1).
Proof.
  destruct (list_find (λ node, data (obj (heap st) node) = d) (nodes st))
    as [[i node']|] eqn:Hf.
  - rewrite (find_found _ _ _ _ _ Hf). intros [= <- <-]. by apply (find_found _ _ _ i).
  - rewrite (find_new _ _ Hf). intros [= <- <-].
    destruct (find_again _ _ Hf) as [i Hi]. by apply (find_found _ _ _ i).
Qed.

(** *** What [find] and [inc] preserve *)

Lemma inc_preserves (P : state payload → Prop) self d amount st :
  (∀ st, P st → P (find d true st).2) →
  (∀ st m, P st → P (with_edges st self m)) →
  P st → P (inc hash recursion_limit self d amount st).2.
Proof.
  intros Hfind Hedges HP. unfold inc, mbind, on_node.
  specialize (Hfind st HP).
  destruct (find d true st) as [[child|e] st1]; simpl in *; [|done].
  destruct (getitem _ _ _) as [[w|e] m1]; simpl; [|by apply Hedges].
  destruct (setitem _ _ _ _) as [[?|e] m2]; simpl; by do 2 apply Hedges.
Qed.

Lemma payloads_with_edges st self m : payloads (with_edges st self m) = payloads st.
Proof.
  unfold payloads, with_edges. simpl. apply list_fmap_ext.
  intros _ node _. apply data_set_edges.
Qed.

Lemma listed_with_edges st self m : listed st → listed (with_edges st self m).
Proof. unfold listed, with_edges. simpl. by rewrite length_set_edges. Qed.

Lemma find_cases st d :
  (find d true st).2 = st ∨
  (Forall (λ node, data (obj (heap st) node) ≠ d) (nodes st) ∧
   (find d true st).2 =
     {| heap := heap st ++ [init d];
        nodes := nodes st ++ [length (heap st)] |}).
Proof.
  destruct (list_find (λ node, data (obj (heap st) node) = d) (nodes st))
    as [[i node]|] eqn:Hf.
  - left. by rewrite (find_found _ _ _ _ _ Hf).
  - right. rewrite (find_new _ _ Hf). split; [|done]. by apply list_find_None in Hf.
Qed.

Lemma listed_find st d : listed st → listed (find d true st).2.
Proof.
  intros Hl. destruct (find_cases st d) as [-> | [_ ->]]; [done|].
  unfold listed in *. simpl. rewrite length_app. simpl.
  apply Forall_app. split; [|apply Forall_singleton; lia].
  eapply Forall_impl; [done|]. simpl. lia.
Qed.

Lemma payloads_find st d :
  listed st → NoDup (payloads st) → NoDup (payloads (find d true st).2).
Proof.
  intros Hl Hnd. destruct (find_cases st d) as [-> | [Hnew ->]]; [done|].
  unfold payloads. simpl. rewrite fmap_app. simpl. rewrite obj_app_new. simpl.
  assert ((λ node, data (obj (heap st ++ [init d]) node)) <$> nodes st
          = payloads st) as ->.
  { apply Forall_fmap_ext_1. eapply Forall_impl; [exact Hl|].
    intros node Hnode. simpl. by rewrite obj_app_l. }
  apply NoDup_app. split; [done|]. split; [|apply NoDup_singleton].
  intros p Hp Hd. apply list_elem_of_singleton in Hd as ->.
  unfold payloads in Hp. apply list_elem_of_fmap in Hp as (node & Hd & Hin).
  rewrite Forall_forall in Hnew. by apply (Hnew node Hin).
Qed.

Lemma reachable_inv st :
  reachable hash recursion_limit st → listed st ∧ NoDup (payloads st).
Proof.
  induction 1 as [d | st d _ [IHl IHp] | st self d amount _ [IHl IHp]].
  - split; [by repeat constructor|]. unfold payloads. simpl. apply NoDup_singleton.
  - split; [by apply listed_find | by apply payloads_find].
  - apply (inc_preserves (λ st, listed st ∧ NoDup (payloads st))); [| |done].
    + intros st' [? ?]. split; [by apply listed_find | by apply payloads_find].
    + intros st' m [? ?]. split; [by apply listed_with_edges|].
      by rewrite payloads_with_edges.
Qed.

(** *** The key test in a graph *)

Lemma hash_distinct_payloads σ :
  NoDup (data <$> σ) → hash_inj_on hash (data <$> σ) → hash_distinct hash σ.
Proof.
  intros Hnd Hinj a b Ha Hb Hh. unfold node_hash in Hh.
  assert (∀ r, (r < length σ)%nat → (data <$> σ) !! r = Some (data (obj σ r))) as Hl.
  { intros r Hr. by rewrite list_lookup_fmap, (obj_elem_of _ _ Hr). }
  apply Hinj in Hh; [| eapply list_elem_of_lookup_2; by apply Hl ..].
  eapply NoDup_lookup; [done | by apply Hl |]. rewrite Hh. by apply Hl.
Qed.

Lemma key_match_is σ stored key :
  hash_distinct hash σ → (stored < length σ)%nat → (key < length σ)%nat →
  key_match hash recursion_limit σ stored key = is_eq stored key.
Proof.
  intros Hd Hs Hk. unfold key_match, key_test, is_eq.
  destruct (Nat.eqb_spec stored key) as [-> | Hne].
  - by rewrite bool_decide_eq_true_2.
  - rewrite bool_decide_eq_false_2 by done.
    destruct (Z.eqb_spec (node_hash hash σ stored) (node_hash hash σ key)) as [Hh | _];
      [|done].
    by apply Hd in Hh.
Qed.

Lemma key_match_agrees σ (m : list (nat * Z)) key :
  hash_distinct hash σ → Forall (λ k, (k < length σ)%nat) (keys m) →
  (key < length σ)%nat → agrees (key_match hash recursion_limit σ) m key.
Proof.
  intros Hd Hm Hk. unfold agrees. eapply Forall_impl; [exact Hm|].
  intros stored Hs. by apply key_match_is.
Qed.

(** *** [inc] in a graph *)

Lemma with_edges_twice st self m m' :
  with_edges (with_edges st self m) self m' = with_edges st self m'.
Proof.
  unfold with_edges, set_edges. simpl. f_equal.
  rewrite list_alter_alter_eq. by apply list_alter_ext.
Qed.

Lemma graph_with_edges st self m :
  graph st → Forall (λ k, (k < length (heap st))%nat) (keys m) →
  graph (with_edges st self m).
Proof.
  intros [Hn Ha Hc Hp] Hm. split; simpl.
  - by apply listed_with_edges.
  - intros node. rewrite length_set_edges. apply Ha.
  - unfold closed. rewrite length_set_edges. unfold set_edges.
    by apply Forall_alter.
  - by rewrite fmap_data_set_edges.
Qed.

Lemma graph_find st d : graph st → graph (find d true st).2.
Proof.
  intros [Hn Ha Hc Hp]. destruct (find_cases st d) as [-> | [Hnew ->]]; [done|].
  split; simpl.
  - unfold listed in *. simpl. rewrite length_app. simpl. apply Forall_app.
    split; [|apply Forall_singleton; lia].
    eapply Forall_impl; [exact Hn|]. simpl. lia.
  - intros node. rewrite length_app. simpl. intros Hnode.
    apply elem_of_app. destruct (decide (node = length (heap st))) as [-> | Hne].
    + right. by left.
    + left. apply Ha. lia.
  - unfold closed. rewrite length_app. simpl. apply Forall_app. split.
    + eapply Forall_impl; [exact Hc|]. intros n Hk. simpl in Hk.
      eapply Forall_impl; [exact Hk|]. simpl. lia.
    + apply Forall_singleton. simpl. constructor.
  - rewrite fmap_app. simpl. apply NoDup_app. split; [done|].
    split; [|apply NoDup_singleton].
    intros p Hp' Hd. apply list_elem_of_singleton in Hd as ->.
    apply list_elem_of_lookup in Hp' as [r Hr].
    rewrite list_lookup_fmap in Hr. apply fmap_Some in Hr as (n & Hr & Hd).
    rewrite Forall_forall in Hnew. apply (Hnew r).
    + apply Ha. by eapply lookup_lt_Some.
    + by rewrite (obj_lookup _ _ _ Hr).
Qed.

Lemma find_child st d :
  graph st →
  ∃ child, find d true st = (Ok child, (find d true st).2) ∧
           (child < length (heap (find d true st).2))%nat ∧
           data (obj (heap (find d true st).2) child) = d.
Proof.
  intros Hg.
  destruct (list_find (λ node, data (obj (heap st) node) = d) (nodes st))
    as [[i node]|] eqn:Hf.
  - rewrite (find_found _ _ _ _ _ Hf). exists node. simpl.
    apply list_find_Some in Hf as (Hi & Hd & _). split; [done|]. split; [|done].
    exact (Forall_lookup_1 _ _ _ _ (graph_nodes _ Hg) Hi).
  - rewrite (find_new _ _ Hf). exists (length (heap st)). simpl.
    rewrite length_app, obj_app_new. simpl. split; [done|]. split; [lia | done].
Qed.

Lemma find_heap st d :
  heap (find d true st).2 = heap st ∨
  heap (find d true st).2 = heap st ++ [init d].
Proof. destruct (find_cases st d) as [-> | [_ ->]]; auto. Qed.

Lemma find_heap_length st d :
  (length (heap st) ≤ length (heap (find d true st).2))%nat.
Proof.
  destruct (find_heap st d) as [-> | ->]; [done|]. rewrite length_app. lia.
Qed.

Lemma find_heap_obj st d r :
  (r < length (heap st))%nat → obj (heap (find d true st).2) r = obj (heap st) r.
Proof.
  intros Hr. destruct (find_heap st d) as [-> | ->]; [done | by apply obj_app_l].
Qed.

Lemma find_heap_payloads st d :
  data <$> heap (find d true st).2 ⊆ d :: (data <$> heap st).
Proof.
  destruct (find_heap st d) as [-> | ->].
  - intros p Hp. by right.
  - rewrite fmap_app. simpl. intros p Hp.
    apply elem_of_app in Hp as [Hp | Hp]; [by right|].
    apply list_elem_of_singleton in Hp as ->. by left.
Qed.

Lemma hash_inj_on_subseteq ps qs :
  ps ⊆ qs → hash_inj_on hash qs → hash_inj_on hash ps.
Proof. intros Hsub Hinj p q Hp Hq. apply Hinj; by apply Hsub. Qed.

Lemma closed_keys σ r :
  closed σ → Forall (λ k, (k < length σ)%nat) (keys (edges (obj σ r))).
Proof.
  intros Hc. destruct (decide (r < length σ)%nat) as [Hr | Hr].
  - eapply (Forall_lookup_1 _ _ _ _ Hc). by apply obj_elem_of.
  - rewrite obj_outside by lia. constructor.
Qed.

(** [inc] in a graph: the child is the node [find] returns, and the entries
    of [self] change as under the identity test. *)
Lemma inc_graph st self d amount :
  graph st → (self < length (heap st))%nat →
  hash_inj_on hash (d :: (data <$> heap st)) →
  ∃ child m',
    find d true st = (Ok child, (find d true st).2) ∧
    iadd_item is_eq (edges (obj (heap (find d true st).2) self)) child amount
      = (Ok (), m') ∧
    inc hash recursion_limit self d amount st
      = (Ok child, with_edges (find d true st).2 self m').
Proof.
  intros Hg Hself Hinj.
  destruct (find_child st d Hg) as (child & Hfind & Hchild & Hdata).
  pose proof (graph_find st d Hg) as Hg1.
  pose proof (find_heap_length st d) as Hlen.
  set (st1 := (find d true st).2) in *.
  assert (hash_distinct hash (heap st1)) as Hd1.
  { apply hash_distinct_payloads; [apply (graph_payloads _ Hg1)|].
    eapply hash_inj_on_subseteq; [apply find_heap_payloads | done]. }
  set (m := edges (obj (heap st1) self)).
  pose proof (closed_keys (heap st1) self (graph_closed _ Hg1)) as Hkeys. fold m in Hkeys.
  destruct (iadd_item_is m child amount) as (m' & Hiadd & _).
  exists child, m'. split; [done|]. split; [done|].
  unfold inc, mbind. rewrite Hfind. unfold on_node at 1. fold m.
  rewrite (getitem_agrees _ _ _ (key_match_agrees _ _ _ Hd1 Hkeys Hchild)).
  unfold iadd_item in Hiadd. rewrite getitem_is in *.
  set (m1 := if decide (child ∈ keys m) then m else m ++ [(child, 0)]) in *.
  unfold on_node.
  assert (edges (obj (heap (with_edges st1 self m1)) self) = m1) as ->.
  { simpl. rewrite obj_set_edges_eq by lia. done. }
  assert (agrees (key_match hash recursion_limit (heap (with_edges st1 self m1))) m1 child)
    as Hag.
  { apply key_match_agrees.
    - intros a b. simpl. rewrite length_set_edges. unfold node_hash.
      rewrite !data_set_edges. apply Hd1.
    - simpl. rewrite length_set_edges. unfold m1. case_decide; [done|].
      unfold keys. rewrite fmap_app. apply Forall_app. split; [done|].
      by apply Forall_singleton.
    - simpl. by rewrite length_set_edges. }
  rewrite (setitem_agrees _ _ _ _ Hag), Hiadd. by rewrite with_edges_twice.
Qed.

Lemma find_fixed st d node :
  find d true st = (Ok node, st) ↔
  ∃ i, list_find (λ node, data (obj (heap st) node) = d) (nodes st) = Some (i, node).
Proof.
  split.
  - destruct (list_find (λ node, data (obj (heap st) node) = d) (nodes st))
      as [[i node']|] eqn:Hf.
    + rewrite (find_found _ _ _ _ _ Hf). intros [= ->]. by exists i.
    + rewrite (find_new _ _ Hf). intros [= _ Hst]. apply (f_equal nodes) in Hst.
      simpl in Hst. apply (f_equal length) in Hst. rewrite length_app in Hst.
      simpl in Hst. lia.
  - intros [i Hf]. by apply (find_found _ _ _ i).
Qed.

Lemma find_with_edges st d node self m :
  find d true st = (Ok node, st) →
  find d true (with_edges st self m) = (Ok node, with_edges st self m).
Proof.
  rewrite !find_fixed. intros [i Hf]. exists i. rewrite <- Hf. simpl.
  apply list_find_ext. intros r. by rewrite data_set_edges.
Qed.

Lemma inc_graph_post st self d amount :
  graph st → (self < length (heap st))%nat →
  hash_inj_on hash (d :: (data <$> heap st)) →
  ∃ child st',
    inc hash recursion_limit self d amount st = (Ok child, st') ∧
    graph st' ∧
    (child < length (heap st'))%nat ∧
    (length (heap st) ≤ length (heap st'))%nat ∧
    find d true st' = (Ok child, st') ∧
    data <$> heap st' ⊆ d :: (data <$> heap st) ∧
    edge_weight (heap st') self child = edge_weight (heap st) self child + amount.
Proof.
  intros Hg Hself Hinj.
  destruct (inc_graph st self d amount Hg Hself Hinj) as (child & m' & Hfind & Hiadd & Hinc).
  destruct (find_child st d Hg) as (child' & Hfind' & Hchild & Hdata).
  rewrite Hfind in Hfind'. injection Hfind' as <-.
  pose proof (graph_find st d Hg) as Hg1.
  pose proof (find_heap_length st d) as Hlen.
  pose proof (find_heap_obj st d self Hself) as Hobj.
  pose proof (find_heap_payloads st d) as Hsub.
  pose proof (find_twice _ _ _ _ Hfind) as Hagain.
  set (st1 := (find d true st).2) in *.
  pose proof (closed_keys (heap st1) self (graph_closed _ Hg1)) as Hkeys.
  destruct (iadd_item_is (edges (obj (heap st1) self)) child amount)
    as (m'' & Hiadd' & Hw & _ & Hk).
  rewrite Hiadd in Hiadd'. injection Hiadd' as <-.
  exists child, (with_edges st1 self m'). split; [done|]. split.
  { apply graph_with_edges; [done|]. rewrite Hk. case_decide; [done|].
    apply Forall_app. split; [done | by apply Forall_singleton]. }
  simpl. rewrite length_set_edges, fmap_data_set_edges.
  repeat split; [done | done | by apply find_with_edges | done |].
  unfold edge_weight. rewrite obj_set_edges_eq by lia. simpl. by rewrite Hw, Hobj.
Qed.


End node_facts.

(** *** The states the program reaches *)

Section any_key_test.
Context {K : Type}.
Variable key_eq : K → K → result bool.
Implicit Types m : list (K * Z).



End any_key_test.

Section reach_facts.
Context {payload : Type} `{EqDecision payload} `{Inhabited payload}.
Variable hash : payload → Z.
Variable recursion_limit : nat.
Implicit Types (σ : list (MarkovNode payload)) (st : state payload) (r node : nat) (d : payload).



End reach_facts.

Section walk_facts.
Context {payload : Type} `{EqDecision payload} `{Inhabited payload}.
Implicit Types (σ : list (MarkovNode payload)) (node target : nat).

Lemma inc_indep (h h' : payload → Z) l l' (st : state payload) self d amount :
  graph st → (self < length (heap st))%nat →
  hash_inj_on h (d :: (data <$> heap st)) →
  hash_inj_on h' (d :: (data <$> heap st)) →
  inc h l self d amount st = inc h' l' self d amount st.
Proof.
  intros Hg Hself Hinj Hinj'.
  destruct (inc_graph h l st self d amount Hg Hself Hinj) as (c & m & Hf & Hi & ->).
  destruct (inc_graph h' l' st self d amount Hg Hself Hinj') as (c' & m' & Hf' & Hi' & ->).
  congruence.
Qed.

Lemma train_indep (h h' : payload → Z) l l' (ps : list payload) training :
  hash_inj_on h ps → hash_inj_on h' ps → training ⊆ ps →
  ∀ (st : state payload) node,
    graph st → (node < length (heap st))%nat → data <$> heap st ⊆ ps →
    train h l node training st = train h' l' node training st.
Proof.
  intros Hinj Hinj'. induction training as [|c cs IH]; intros Hsub st node Hg Hnode Hps;
    [done|].
  assert (c :: (data <$> heap st) ⊆ ps) as Hc.
  { intros p Hp. apply elem_of_cons in Hp as [-> | Hp]; [apply Hsub; by left | by apply Hps]. }
  cbn [train]. unfold mbind.
  rewrite (inc_indep h h' l l') by (done || by eapply hash_inj_on_subseteq).
  destruct (inc_graph_post h' l' st node c 1 Hg Hnode)
    as (child & st' & -> & Hg' & Hchild & _ & _ & Hsub' & _).
  { by eapply hash_inj_on_subseteq. }
  apply IH; [| done | done |].
  - intros p Hp. apply Hsub. by right.
  - intros p Hp. apply Hc. by apply Hsub'.
Qed.

(** *** The generator *)

Lemma yield_Stop d (t : trace payload) out :
  yield d t = Stop out ↔ ∃ out', t = Stop out' ∧ out = d :: out'.
Proof.
  destruct t; simpl; split; try (intros [= <-]; eauto); try (by intros (? & ? & ?)).
  by intros (? & [= <-] & ->).
Qed.

Lemma iter_terminal fuel σ rand i node :
  truth (edges (obj σ node)) = false →
  iter fuel σ rand i node = Stop [data (obj σ node)].
Proof. intros Ht. destruct fuel; simpl; by rewrite Ht. Qed.

Lemma truth_false {K} (m : list (K * Z)) : truth m = false ↔ m = [].
Proof. by destruct m. Qed.

Lemma iter_path_stop σ rand i node visited target fuel :
  path σ rand i node visited target →
  edges (obj σ target) = [] → (length visited ≤ fuel)%nat →
  iter fuel σ rand i node = Stop ((λ r, data (obj σ r)) <$> (visited ++ [target])).
Proof.
  intros Hpath Hend. revert fuel.
  induction Hpath as [i node | i node node' visited target Ht Hcall _ IH]; intros fuel Hfuel.
  - apply iter_terminal. by apply truth_false.
  - destruct fuel as [|fuel]; [simpl in Hfuel; lia|].
    simpl in *. rewrite Ht. simpl in Hcall. rewrite Hcall.
    rewrite (IH Hend fuel) by lia. done.
Qed.

Lemma iter_path_abort σ rand i node visited target fuel :
  path σ rand i node visited target →
  edges (obj σ target) ≠ [] →
  Forall (λ w, w = 0) (values (edges (obj σ target))) →
  (length visited < fuel)%nat →
  iter fuel σ rand i node
    = Abort ((λ r, data (obj σ r)) <$> (visited ++ [target])) ValueError.
Proof.
  intros Hpath Hne Hzero. revert fuel.
  induction Hpath as [i node | i node node' visited target Ht Hcall _ IH]; intros fuel Hfuel.
  - destruct fuel as [|fuel]; [lia|]. cbn [iter].
    assert (truth (edges (obj σ node)) = true) as ->.
    { destruct (truth _) eqn:Ht; [done|]. by apply truth_false in Ht. }
    assert ((call (edges (obj σ node)) (rand i)).1 = Raise ValueError) as ->; [|done].
    apply call_Raise. right. repeat split; [done|].
    unfold total_weight. apply Z.eq_le_incl.
    clear Hne. induction Hzero as [|w ws -> _ IHz]; simpl; lia.
  - destruct fuel as [|fuel]; [simpl in Hfuel; lia|].
    cbn [iter]. rewrite Ht, Hcall.
    rewrite (IH Hne Hzero fuel) by (simpl in Hfuel; lia). done.
Qed.

Lemma iter_Stop_path σ rand fuel : ∀ i node out,
  iter fuel σ rand i node = Stop out →
  ∃ visited target,
    path σ rand i node visited target ∧ edges (obj σ target) = [] ∧
    (length visited ≤ fuel)%nat ∧
    out = (λ r, data (obj σ r)) <$> (visited ++ [target]).
Proof.
  induction fuel as [|fuel IH]; intros i node out; cbn [iter];
    destruct (truth (edges (obj σ node))) eqn:Ht.
  - done.
  - intros [= <-]. exists [], node. repeat split; [constructor | by apply truth_false | done].
  - intros Hy. apply yield_Stop in Hy as (out' & Hrest & ->).
    destruct ((call (edges (obj σ node)) (rand i)).1) as [node'|e] eqn:Hcall; [|done].
    apply IH in Hrest as (visited & target & Hpath & Hend & Hlen & ->).
    exists (node :: visited), target.
    repeat split; [by econstructor | done | simpl; lia].
  - intros [= <-]. exists [], node.
    repeat split; [constructor | by apply truth_false | simpl; lia].
Qed.

End walk_facts.

(** *** The examples *)

Ltac hash_inj :=
  let p := fresh "p" in let q := fresh "q" in
  let Hp := fresh "Hp" in let Hq := fresh "Hq" in let Hh := fresh "Hh" in
  intros p q Hp Hq Hh;
  repeat (apply elem_of_cons in Hp as [-> | Hp]);
  try (by apply elem_of_nil in Hp);
  repeat (apply elem_of_cons in Hq as [-> | Hq]);
  try (by apply elem_of_nil in Hq);
  try done; vm_compute in Hh; discriminate.

Lemma ord_hash_inj : hash_inj_on ord_hash [""; "a"; "b"; newline]%string.
Proof. hash_inj. Qed.

Lemma graph_start : graph start.
Proof.
  split.
  - by repeat constructor.
  - intros node Hnode. simpl in Hnode. assert (node = 0%nat) as -> by lia. by left.
  - by repeat constructor.
  - simpl. apply NoDup_singleton.
Qed.

(** ** The properties of [MarkovNode] *)

(** C1: training the sequence of the test cell character by character from
    [[MarkovNode('')]], for a hash without collisions on the four payloads,
    ends at the node of the line break and leaves the four nodes [''],
    ['a'], ['b'], ['\n'], in this order; every edge weight is the number of
    times the transition occurs in the sequence, in particular 14 from ['a']
    to ['b'], 3 from ['a'] to ['a'] and 1 from ['a'] to ['\n']. *)
Theorem training_example (hash : string → Z) (recursion_limit : nat) :
  hash_inj_on hash [""; "a"; "b"; newline]%string →
  train hash recursion_limit 0%nat (chars training) start = (Ok 3%nat, trained) ∧
  payloads trained = [""; "a"; "b"; newline]%string ∧
  Forall (λ s, Forall (λ c,
      edge_weight (heap trained) s c =
        transition_count (""%string :: chars training)
          (data (obj (heap trained) s)) (data (obj (heap trained) c)))
    (nodes trained)) (nodes trained) ∧
  edge_weight (heap trained) 1%nat 2%nat = 14 ∧
  edge_weight (heap trained) 1%nat 1%nat = 3 ∧
  edge_weight (heap trained) 1%nat 3%nat = 1.
Proof.
  intros Hinj. split.
  - rewrite (train_indep hash ord_hash recursion_limit 0%nat
               [""; "a"; "b"; newline]%string (chars training) Hinj ord_hash_inj).
    + by vm_compute.
    + assert (Forall (λ c, c ∈ [""; "a"; "b"; newline]%string) (chars training)) as Hall
        by (apply (bool_decide_unpack _); by vm_compute).
      intros c Hc. by apply (proj1 (Forall_forall _ _) Hall).
    + apply graph_start.
    + simpl. lia.
    + intros p Hp. simpl in Hp. apply list_elem_of_singleton in Hp as ->. by left.
  - split; [reflexivity|]. split; [|by vm_compute].
    apply (bool_decide_unpack _). by vm_compute.
Qed.

Lemma training_example_witness :
  hash_inj_on ord_hash [""; "a"; "b"; newline]%string ∧
  train ord_hash 1000 0%nat (chars training) start = (Ok 3%nat, trained).
Proof.
  split; [exact ord_hash_inj|].
  exact (proj1 (training_example ord_hash 1000 ord_hash_inj)).
Defined.

Section claims.
Context {payload : Type} `{EqDecision payload} `{Inhabited payload}.
Variable hash : payload → Z.
Variable recursion_limit : nat.
Implicit Types (σ : list (MarkovNode payload)) (st : state payload).

(** C2: the generator finishes exactly when the walk from [node] arrives,
    after the nodes [visited], at a node [target] without entries; it has
    then yielded the payloads of the visited nodes and, as its last
    element, the payload of [target]; a start node without entries gives
    exactly its own payload. *)
Theorem iter_ends_with_terminal σ (rand : nat → random.float) (i node : nat)
    (fuel : nat) :
  (∀ out,
     iter fuel σ rand i node = Stop out ↔
     ∃ visited target,
       path σ rand i node visited target ∧ edges (obj σ target) = [] ∧
       (length visited ≤ fuel)%nat ∧
       out = (λ r, data (obj σ r)) <$> (visited ++ [target])) ∧
  (∀ out,
     iter fuel σ rand i node = Stop out →
     ∃ target, edges (obj σ target) = [] ∧ last out = Some (data (obj σ target))) ∧
  (edges (obj σ node) = [] → iter fuel σ rand i node = Stop [data (obj σ node)]).
Proof.
  split; [|split].
  - intros out. split; [apply iter_Stop_path|].
    intros (visited & target & Hpath & Hend & Hfuel & ->). by apply iter_path_stop.
  - intros out Hout.
    apply iter_Stop_path in Hout as (visited & target & _ & Hend & _ & ->).
    exists target. split; [done|]. rewrite fmap_app. apply last_snoc.
  - intros Hnode. apply iter_terminal. by apply truth_false.
Qed.

(** C3: [find(nodes, d, True)] does not raise; called twice with the same
    payload it returns the same object, the second call leaves the state as
    it is, and the list is at most one longer than before the first call. *)
Theorem find_or_create_idempotent st (d : payload) :
  ∃ node st1,
    find d true st = (Ok node, st1) ∧
    find d true st1 = (Ok node, st1) ∧
    (length (nodes st1) ≤ length (nodes st) + 1)%nat.
Proof.
  destruct (list_find (λ node, data (obj (heap st) node) = d) (nodes st))
    as [[i node]|] eqn:Hf.
  - exists node, st. rewrite (find_found _ _ _ _ _ Hf). repeat split. lia.
  - rewrite (find_new _ _ Hf).
    destruct (find_again _ _ Hf) as [i Hi].
    eexists _, _. split; [done|]. split.
    + by apply (find_found _ _ _ i).
    + simpl. rewrite length_app. simpl. lia.
Qed.


(** C7: when the walk arrives at a node whose mapping has entries, all of
    weight 0, [__call__] raises there and the generator ends with that
    exception, after the payloads yielded so far; the exception is one the
    specification calls EmptyDistribution. *)
Theorem iter_raises_on_zero_weights σ (rand : nat → random.float) (i node : nat)
    (visited : list nat) (target : nat) (fuel : nat) :
  path σ rand i node visited target →
  edges (obj σ target) ≠ [] →
  Forall (λ w, w = 0) (values (edges (obj σ target))) →
  (length visited < fuel)%nat →
  ∃ e, iter fuel σ rand i node
         = Abort ((λ r, data (obj σ r)) <$> (visited ++ [target])) e ∧
       (call (edges (obj σ target)) (rand (i + length visited)%nat)).1 = Raise e ∧
       EmptyDistribution e.
Proof.
  intros Hpath Hne Hzero Hfuel. exists ValueError.
  split; [by apply iter_path_abort|]. split; [|by right].
  apply call_Raise. right. repeat split; [done|].
  unfold total_weight. apply Z.eq_le_incl.
  clear Hne. induction Hzero as [|w ws -> _ IHz]; simpl; lia.
Qed.

(** C9: in every state reached from a list with one start node by
    [find(nodes, d, True)] and [inc], the payloads of the list are pairwise
    different: two entries with equal payloads are the same entry and the
    same object. *)
Theorem reachable_unique_payloads st :
  reachable hash recursion_limit st →
  NoDup (payloads st) ∧
  (∀ i j a b, nodes st !! i = Some a → nodes st !! j = Some b →
              data (obj (heap st) a) = data (obj (heap st) b) → i = j ∧ a = b).
Proof.
  intros Hr. destruct (reachable_inv hash recursion_limit st Hr) as [_ Hnd].
  split; [done|]. intros i j a b Hi Hj Hdata.
  assert (i = j) as ->.
  { eapply (NoDup_lookup _ _ _ _ Hnd); unfold payloads; rewrite list_lookup_fmap.
    - by rewrite Hi.
    - rewrite Hj. simpl. by rewrite Hdata. }
  split; [done | congruence].
Qed.

End claims.

Lemma iter_ends_with_terminal_witness :
  path usage (λ _, 0%Q) 0 0%nat [0%nat] 1%nat ∧
  edges (obj usage 1%nat) = [] ∧
  iter 1 usage (λ _, 0%Q) 0 0%nat = Stop ["a"; "b"]%string.
Proof.
  assert (path usage (λ _, 0%Q) 0 0%nat [0%nat] 1%nat) as Hpath.
  { eapply path_step; [reflexivity | reflexivity | apply path_here]. }
  split; [exact Hpath|]. split; [reflexivity|].
  apply (proj1 (iter_ends_with_terminal usage (λ _, 0%Q) 0 0%nat 1)).
  exists [0%nat], 1%nat. repeat split; [exact Hpath | simpl; lia].
Defined.



(** C5, at three inputs: a [MarkovNode] has the hash of its payload and the
    equality of [dict]. Two objects [MarkovNode('a')], one with an edge and
    one without, have equal payloads and equal hashes and are different
    keys; [MarkovNode(-1)] and [MarkovNode(-2)] have different payloads and
    equal hashes and are the same key; and with an edge to itself each, the
    key test on the two raises [RecursionError]. *)
Theorem node_keys_not_by_payload :
  (data (obj usage 0%nat) = data (obj usage 2%nat) ∧
   node_hash ord_hash usage 0%nat = node_hash ord_hash usage 2%nat ∧
   key_match ord_hash 1000 usage 0%nat 2%nat = Ok false) ∧
  (data (obj collided 0%nat) ≠ data (obj collided 1%nat) ∧
   node_hash int_hash collided 0%nat = node_hash int_hash collided 1%nat ∧
   key_match int_hash 1000 collided 0%nat 1%nat = Ok true) ∧
  (data (obj looped 0%nat) ≠ data (obj looped 1%nat) ∧
   node_hash int_hash looped 0%nat = node_hash int_hash looped 1%nat ∧
   key_match int_hash 1000 looped 0%nat 1%nat = Raise RecursionError).
Proof. by vm_compute. Qed.

Lemma iter_raises_on_zero_weights_witness :
  path stalled (λ _, 0%Q) 0 0%nat [] 0%nat ∧
  ∃ e, iter 1 stalled (λ _, 0%Q) 0 0%nat
         = Abort ((λ r, data (obj stalled r)) <$> ([] ++ [0%nat])) e ∧
       (call (edges (obj stalled 0%nat)) 0%Q).1 = Raise e ∧
       EmptyDistribution e.
Proof.
  split; [apply path_here|].
  apply (iter_raises_on_zero_weights stalled (λ _, 0%Q) 0 0%nat [] 0%nat 1).
  - apply path_here.
  - discriminate.
  - by repeat constructor.
  - simpl. lia.
Defined.

Lemma reachable_unique_payloads_witness :
  NoDup (payloads (inc ord_hash 0 0%nat "a"%string 1 start).2).
Proof.
  apply (reachable_unique_payloads ord_hash 0).
  apply reach_inc. apply (reach_start ord_hash 0 ""%string).
Defined.

(** The store [usage] is what the cell of basic usage builds. *)
Example usage_cell :
  inc ord_hash 1000 0%nat "b"%string 1
    {| heap := [init "a"; init "b"]%string; nodes := [0; 1]%nat |}
  = (Ok 1%nat, {| heap := take 2 usage; nodes := [0; 1]%nat |}).
Proof. reflexivity. Qed.

(** The store [stalled] is what reading [nodes[0][nodes[1]]] leaves. *)
Example stalled_cell :
  on_node ord_hash 1000 0%nat (λ eq m, getitem eq m 1%nat)
    {| heap := [init "a"; init "b"]%string; nodes := [0; 1]%nat |}
  = (Ok 0, {| heap := stalled; nodes := [0; 1]%nat |}).
Proof. reflexivity. Qed.

(** * Further properties *)

(** ** The draw, by cumulative weights *)

Lemma sum_take_le ws i j :
  Forall (λ w, 0 ≤ w) ws → (i ≤ j)%nat →
  sum_weights (take i ws) ≤ sum_weights (take j ws).
Proof.
  intros Hnn. revert i j. induction Hnn as [|w ws Hw Hws IH]; intros i j Hij.
  - by rewrite !take_nil.
  - destruct i as [|i]; destruct j as [|j]; simpl; try lia.
    + pose proof (sum_nonneg (take j ws) (Forall_take _ _ _ Hws)). lia.
    + specialize (IH i j). lia.
Qed.

Lemma scan_index {K} (m : list (K * Z)) acc x i k w :
  m !! i = Some (k, w) →
  (∀ j, (j < i)%nat → float_lt x (acc + sum_weights (take (S j) (values m))) = false) →
  float_lt x (acc + sum_weights (take (S i) (values m))) = true →
  scan m acc x = Some k.
Proof.
  revert acc i. induction m as [|[k0 w0] m IH]; intros acc i Hi Hbefore Hat; [done|].
  simpl. destruct i as [|i].
  - simpl in Hi. injection Hi as -> ->. simpl in Hat. rewrite Z.add_0_r in Hat.
    by rewrite Hat.
  - pose proof (Hbefore 0%nat ltac:(lia)) as H0. simpl in H0. rewrite Z.add_0_r in H0.
    rewrite H0. apply (IH (acc + w0) i); [done | |].
    + intros j Hj. specialize (Hbefore (S j) ltac:(lia)). simpl in Hbefore.
      by rewrite Z.add_assoc in Hbefore.
    + simpl in Hat. by rewrite Z.add_assoc in Hat.
Qed.

Section cumulative_facts.
Context {K : Type}.
Implicit Types m : list (K * Z).

(** The entry [__call__] selects, by its cumulative weights. *)
Lemma call_interval m u :
  (0 <= u)%Q → (u < 1)%Q → 0 < total_weight m →
  ∃ i k w,
    m !! i = Some (k, w) ∧ (call m u).1 = Ok k ∧
    sum_weights (take i (values m)) * Zpos (Qden u) ≤ Qnum u * total_weight m ∧
    Qnum u * total_weight m < sum_weights (take (S i) (values m)) * Zpos (Qden u).
Proof.
  intros H0 H1 Hpos. unfold call, total_weight in *. simpl.
  set (ws := values m) in *.
  destruct (choices_positive (keys m) ws u (length_keys_values m) Hpos)
    as (i & k & Hch & Hk & Hbis).
  rewrite Hch. simpl.
  assert (length ws ≠ 0%nat) as Hn by (destruct ws; simpl in *; [lia | done]).
  destruct (bisect_spec (accumulate ws) (Qmult u (inject_Z (sum_weights ws))) 0 (length ws - 1))
    as (i' & Hi' & Hrange & Hleft & Hright).
  { lia. }
  { unfold accumulate. rewrite length_accumulate_from. lia. }
  rewrite Hbis in Hi'. injection Hi' as <-.
  destruct (lookup_lt_is_Some_2 ws i) as [w Hw]; [lia|].
  pose proof (unit_interval u H0 H1) as Hu.
  exists i, k, w. split.
  { unfold keys in Hk. unfold ws, values in Hw.
    rewrite list_lookup_fmap in Hk. rewrite list_lookup_fmap in Hw.
    apply fmap_Some in Hk as ([k0 w0] & Hm & ->).
    apply fmap_Some in Hw as ([k1 w1] & Hm' & ->).
    rewrite Hm in Hm'. by injection Hm' as <- <-. }
  split; [done|]. split.
  - destruct Hleft as [-> | (c & Hc & Hlt)]; [simpl; nia|].
    destruct i as [|i]; [simpl; nia|].
    replace (S i - 1)%nat with i in Hc by lia.
    rewrite accumulate_lookup in Hc by lia. injection Hc as <-.
    rewrite float_lt_scaled in Hlt. by apply Z.ltb_ge in Hlt.
  - destruct Hright as [-> | (c & Hc & Hlt)].
    + replace (S (length ws - 1)) with (length ws) by lia.
      rewrite firstn_all. nia.
    + rewrite accumulate_lookup in Hc by lia. injection Hc as <-.
      rewrite float_lt_scaled in Hlt. lia.
Qed.

Lemma call_scan m u :
  Forall (λ w, 0 ≤ w) (values m) →
  (0 <= u)%Q → (u < 1)%Q → 0 < total_weight m →
  ∃ k, (call m u).1 = Ok k ∧
       scan m 0 (Qmult u (inject_Z (total_weight m))) = Some k.
Proof.
  intros Hnn H0 H1 Hpos.
  destruct (call_interval m u H0 H1 Hpos) as (i & k & w & Hi & Hcall & Hlo & Hhi).
  exists k. split; [done|]. apply (scan_index m 0 _ i k w Hi).
  - intros j Hj. rewrite float_lt_scaled. apply Z.ltb_ge.
    pose proof (sum_take_le (values m) (S j) i Hnn ltac:(lia)).
    assert (0 < Zpos (Qden u)) by lia. nia.
  - rewrite float_lt_scaled. apply Z.ltb_lt. lia.
Qed.

Lemma scan_filter m acc x :
  float_lt x acc = false →
  scan (filter (λ e, e.2 ≠ 0) m) acc x = scan m acc x.
Proof.
  revert acc. induction m as [|[k w] m IH]; intros acc Hacc; [done|].
  rewrite filter_cons. simpl. destruct (decide (w ≠ 0)) as [Hw | Hw].
  - simpl. destruct (float_lt x (acc + w)) eqn:Hlt; [done | by apply IH].
  - assert (w = 0) as -> by lia. rewrite Z.add_0_r, Hacc. by apply IH.
Qed.

Lemma sum_filter_nonzero (ws : list (K * Z)) :
  total_weight (filter (λ e, e.2 ≠ 0) ws) = total_weight ws.
Proof.
  unfold total_weight, values. induction ws as [|[k w] ws IH]; [done|].
  rewrite filter_cons. simpl. destruct (decide (w ≠ 0)) as [Hw | Hw].
  - rewrite fmap_cons. simpl. by rewrite IH.
  - assert (w = 0) as -> by lia. by rewrite IH.
Qed.

(** X2: entries of weight 0 do not change what is drawn: on weights that
    are not negative and not all 0, [__call__] returns the same key, for
    the same random number of [[0, 1)], with the entries of weight 0 as
    without them. *)
Theorem zero_weights_do_not_matter m u :
  Forall (λ w, 0 ≤ w) (values m) →
  (0 <= u)%Q → (u < 1)%Q → 0 < total_weight m →
  (call (filter (λ e, e.2 ≠ 0) m) u).1 = (call m u).1.
Proof.
  intros Hnn H0 H1 Hpos.
  destruct (call_scan m u Hnn H0 H1 Hpos) as (k & -> & Hscan).
  assert (Forall (λ w, 0 ≤ w) (values (filter (λ e, e.2 ≠ 0) m))) as Hnn'.
  { unfold values in *. rewrite Forall_fmap in *. rewrite Forall_forall in *.
    intros e He. apply list_elem_of_filter in He as [_ He]. by apply Hnn. }
  destruct (call_scan (filter (λ e, e.2 ≠ 0) m) u Hnn' H0 H1) as (k' & -> & Hscan').
  { by rewrite sum_filter_nonzero. }
  rewrite sum_filter_nonzero, scan_filter in Hscan'; [congruence|].
  rewrite float_lt_scaled. apply Z.ltb_ge. pose proof (unit_interval u H0 H1). nia.
Qed.

End cumulative_facts.

Section total_facts.
Context {K : Type} `{EqDecision K}.
Implicit Types m : list (K * Z).

Lemma store_item_is_total m k v :
  ∃ m', store_item is_eq m k v = Ok m' ∧
        total_weight m' = total_weight m - weight_of m k + v ∧
        (∀ P : Z → Prop, Forall P (values m) → P v → Forall P (values m')).
Proof.
  induction m as [|[stored w] m (m' & Hm' & Htot & HP)].
  - exists [(k, v)]. repeat split; [unfold total_weight; simpl; lia|].
    intros P _ Hv. by repeat constructor.
  - cbn [store_item weight_of]. destruct (decide (stored = k)) as [-> | Hne].
    + rewrite is_eq_true. cbn [bind]. exists ((k, v) :: m).
      repeat split; [unfold total_weight; simpl; lia|].
      intros P Hm Hv. apply Forall_cons in Hm as [_ Hm]. by constructor.
    + rewrite is_eq_false by done. cbn [bind]. rewrite Hm'. cbn [bind].
      exists ((stored, w) :: m'). repeat split.
      * unfold total_weight in *. simpl. lia.
      * intros P Hm Hv. apply Forall_cons in Hm as [Hw Hm]. constructor; [done|].
        by apply HP.
Qed.

(** X3: [self[k] += amount] on a mapping whose keys compare by ordinary
    equality does not raise; afterwards [self[k]] reads the old weight of
    [k] (0 for a key that was not stored) plus the amount and changes
    nothing any more, the weight of every other key is as before, the
    total weight has grown by the amount, and the keys are the old ones,
    in their order, with [k] appended at the end when it was not stored. *)
Theorem increment_adds m k amount :
  ∃ m', iadd_item is_eq m k amount = (Ok (), m') ∧
        (getitem is_eq m' k) = (Ok (weight_of m k + amount), m') ∧
        (∀ k', k' ≠ k → weight_of m' k' = weight_of m k') ∧
        total_weight m' = total_weight m + amount ∧
        keys m' = (if decide (k ∈ keys m) then keys m else keys m ++ [k]).
Proof.
  destruct (iadd_item_is m k amount) as (m' & Hiadd & Hk & Hother & Hkeys).
  exists m'. split; [done|]. split.
  { rewrite getitem_is, Hk. rewrite decide_True; [done|]. rewrite Hkeys.
    case_decide; [done|]. apply elem_of_app. right. by left. }
  split; [done|]. split; [|done].
  unfold iadd_item in Hiadd. rewrite getitem_is in Hiadd. unfold setitem in Hiadd.
  destruct (decide (k ∈ keys m)) as [Hin | Hin].
  - destruct (store_item_is_total m k (weight_of m k + amount)) as (m'' & Hst & Htot & _).
    rewrite Hst in Hiadd. injection Hiadd as <-. lia.
  - destruct (store_item_is_total (m ++ [(k, 0)]) k (weight_of m k + amount))
      as (m'' & Hst & Htot & _).
    rewrite Hst in Hiadd. injection Hiadd as <-. rewrite Htot.
    rewrite weight_of_app_new by done. rewrite decide_True by done.
    rewrite (weight_of_not_elem m k Hin).
    unfold total_weight, values. rewrite fmap_app, sum_app. simpl. lia.
Qed.

End total_facts.

(** ** [find] and [inc] in any state *)

Section frame_facts.
Context {payload : Type} `{EqDecision payload} `{Inhabited payload}.
Variable hash : payload → Z.
Variable recursion_limit : nat.
Implicit Types (σ : list (MarkovNode payload)) (st : state payload) (r node : nat) (d : payload).

(** X4: [find(nodes, d)] without [add] never changes the list or an
    object; it returns the first node of the list whose payload is [d],
    and it raises, and then [KeyError], exactly when no node of the list
    has the payload. *)
Theorem find_first st d :
  (find d false st).2 = st ∧
  match (find d false st).1 with
  | Ok node =>
      ∃ i, nodes st !! i = Some node ∧ data (obj (heap st) node) = d ∧
           ∀ j node', (j < i)%nat → nodes st !! j = Some node' →
                      data (obj (heap st) node') ≠ d
  | Raise e =>
      e = KeyError ∧ Forall (λ node, data (obj (heap st) node) ≠ d) (nodes st)
  end.
Proof.
  unfold find.
  destruct (list_find (λ node, data (obj (heap st) node) = d) (nodes st))
    as [[i node]|] eqn:Hf; simpl.
  - split; [done|]. apply list_find_Some in Hf as (Hi & Hd & Hbefore).
    exists i. repeat split; [done..|]. intros j node' Hj Hn. by apply (Hbefore j).
  - split; [done|]. split; [done|]. by apply list_find_None in Hf.
Qed.

(** [find] with [add]: the node found without [add], or a new one. *)
Lemma find_add_cases st d :
  ∃ node st1,
    find d true st = (Ok node, st1) ∧
    find d false st1 = (Ok node, st1) ∧
    data (obj (heap st1) node) = d ∧
    ((find d false st).1 = Ok node ∧ st1 = st ∨
     (find d false st).1 = Raise KeyError ∧
     node = length (heap st) ∧
     heap st1 = heap st ++ [init d] ∧ nodes st1 = nodes st ++ [node]).
Proof.
  destruct (list_find (λ node, data (obj (heap st) node) = d) (nodes st))
    as [[i node]|] eqn:Hf.
  - exists node, st. rewrite !(find_found _ _ _ _ _ Hf).
    apply list_find_Some in Hf as (_ & Hd & _). repeat split; [done|]. by left.
  - rewrite (find_new _ _ Hf). destruct (find_again _ _ Hf) as [i Hi].
    eexists _, _. split; [done|]. split; [by apply (find_found _ _ _ i)|].
    simpl. rewrite obj_app_new. split; [done|]. right.
    unfold find. by rewrite Hf.
Qed.

Lemma inc_state st self d amount :
  (inc hash recursion_limit self d amount st).2 = (find d true st).2 ∨
  ∃ m, (inc hash recursion_limit self d amount st).2
         = with_edges (find d true st).2 self m.
Proof.
  unfold inc, mbind, on_node.
  destruct (find d true st) as [[child|e] st1]; simpl; [|by left].
  destruct (getitem _ _ _) as [[w|e] m1]; simpl; [|right; by exists m1].
  destruct (setitem _ _ _ _) as [[?|e] m2]; simpl; right; exists m2;
    by rewrite with_edges_twice.
Qed.

Lemma find_frame st d :
  let st1 := (find d true st).2 in
  nodes st `prefix_of` nodes st1 ∧
  (length (nodes st1) ≤ length (nodes st) + 1)%nat ∧
  d ∈ payloads st1 ∧
  (∀ r, (r < length (heap st))%nat → obj (heap st1) r = obj (heap st) r).
Proof.
  simpl. destruct (find_add_cases st d) as (node & st1 & Hfind & Hfind' & Hd & Hcases).
  rewrite Hfind. simpl.
  assert (d ∈ payloads st1) as Hin.
  { pose proof (find_twice _ _ _ _ Hfind) as Hfix.
    apply find_fixed in Hfix as [i Hi]. apply list_find_Some in Hi as (Hi & _ & _).
    unfold payloads. apply list_elem_of_fmap. exists node. split; [done|].
    by eapply list_elem_of_lookup_2. }
  destruct Hcases as [[_ ->] | (_ & -> & Hheap & Hnodes)].
  - repeat split; [done | lia | done].
  - rewrite Hnodes, Hheap. repeat split.
    + by apply prefix_app_r.
    + rewrite length_app. simpl. lia.
    + done.
    + intros r Hr. by apply obj_app_l.
Qed.

(** X5: [find(nodes, d, True)] is get-or-create: it returns the node that
    [find(nodes, d)] returns and changes nothing when there is one, and
    otherwise, where [find(nodes, d)] raises [KeyError], it appends one new
    object with the payload [d] and no entries at the end of the list and
    returns it, leaving the payloads of the list followed by [d]; in both
    cases [find(nodes, d)] returns the same node afterwards. *)
Theorem find_after_add st d :
  ∃ node st1,
    find d true st = (Ok node, st1) ∧
    find d false st1 = (Ok node, st1) ∧
    ((find d false st).1 = Ok node ∧ st1 = st ∨
     (find d false st).1 = Raise KeyError ∧
     node = length (heap st) ∧
     heap st1 = heap st ++ [init d] ∧ nodes st1 = nodes st ++ [node] ∧
     (listed st → payloads st1 = payloads st ++ [d])).
Proof.
  destruct (find_add_cases st d) as (node & st1 & Hfind & Hfind' & Hd & Hcases).
  exists node, st1. do 2 (split; [done|]).
  destruct Hcases as [[Hold ->] | (Hold & -> & Hheap & Hnodes)]; [by left|].
  right. do 4 (split; [done|]). intros Hl.
  unfold payloads. rewrite Hnodes, Hheap, fmap_app. f_equal.
  - apply list_fmap_ext. intros i r Hr. rewrite obj_app_l; [done|].
    unfold listed in Hl. rewrite Forall_lookup in Hl. by apply (Hl i).
  - simpl. by rewrite obj_app_new.
Qed.

(** X6: what [inc] never does, whether it returns or raises: it removes or
    reorders no entry of the list and adds at most one, at the end; it
    changes the payload of no object; it changes no object but [self] and
    the one it may have added; and afterwards the list has a node with
    the payload [childData]. *)
Theorem inc_frame st self d amount :
  let st' := (inc hash recursion_limit self d amount st).2 in
  nodes st `prefix_of` nodes st' ∧
  (length (nodes st') ≤ length (nodes st) + 1)%nat ∧
  d ∈ payloads st' ∧
  (∀ r, (r < length (heap st))%nat →
        data (obj (heap st') r) = data (obj (heap st) r) ∧
        (r ≠ self → obj (heap st') r = obj (heap st) r)).
Proof.
  simpl. destruct (find_frame st d) as (Hpre & Hlen & Hin & Hobj).
  destruct (inc_state st self d amount) as [-> | [m ->]].
  - repeat split; [done..| |]; intros; by rewrite Hobj.
  - rewrite payloads_with_edges. simpl. repeat split; [done..| |].
    + by rewrite data_set_edges, Hobj.
    + intros Hne. by rewrite obj_set_edges_ne, Hobj.
Qed.

End frame_facts.

(** ** The increment on a mapping with distinct keys *)

Section increment_facts.
Context {K : Type} `{EqDecision K}.
Implicit Types m : list (K * Z).

Lemma store_item_is_last m k w v :
  k ∉ keys m → store_item is_eq (m ++ [(k, w)]) k v = Ok (m ++ [(k, v)]).
Proof.
  induction m as [|[stored w'] m IH]; rewrite ?keys_cons; intros Hnin.
  - cbn [app store_item]. by rewrite is_eq_true.
  - apply not_elem_of_cons in Hnin as [Hne Hnin]. cbn [app store_item].
    rewrite is_eq_false by done. cbn [bind]. by rewrite IH.
Qed.

Lemma iadd_item_is_new m k amount :
  k ∉ keys m → iadd_item is_eq m k amount = (Ok (), m ++ [(k, amount)]).
Proof.
  intros Hnin. unfold iadd_item. rewrite getitem_is, decide_False by done.
  unfold setitem. rewrite store_item_is_last by done.
  by rewrite weight_of_not_elem.
Qed.

Lemma weight_of_elem_Forall (P : Z → Prop) m k :
  k ∈ keys m → Forall P (values m) → P (weight_of m k).
Proof.
  induction m as [|[stored w] m IH]; rewrite ?keys_cons; intros Hin Hm.
  - by apply not_elem_of_nil in Hin.
  - apply Forall_cons in Hm as [Hw Hm]. cbn [weight_of].
    destruct (decide (stored = k)) as [-> | Hne]; [done|].
    apply elem_of_cons in Hin as [-> | Hin]; [done | by apply IH].
Qed.

Lemma iadd_item_is_positive m k amount m' :
  0 < amount → Forall (λ w, 0 < w) (values m) →
  iadd_item is_eq m k amount = (Ok (), m') → Forall (λ w, 0 < w) (values m').
Proof.
  intros Ha Hm. destruct (decide (k ∈ keys m)) as [Hin | Hin].
  - unfold iadd_item. rewrite getitem_is, decide_True by done. unfold setitem.
    destruct (store_item_is_total m k (weight_of m k + amount)) as (m'' & -> & _ & HP).
    intros [= <-]. apply HP; [done|].
    pose proof (weight_of_elem_Forall (λ w, 0 < w) m k Hin Hm). simpl in *. lia.
  - rewrite iadd_item_is_new by done. intros [= <-].
    unfold values. rewrite fmap_app. apply Forall_app. split; [done|].
    by apply Forall_singleton.
Qed.

Lemma iadd_item_is_NoDup m k amount m' :
  NoDup (keys m) → iadd_item is_eq m k amount = (Ok (), m') → NoDup (keys m').
Proof.
  intros Hnd Hiadd. destruct (iadd_item_is m k amount) as (m'' & Hi & _ & _ & Hkeys).
  rewrite Hiadd in Hi. injection Hi as <-. rewrite Hkeys.
  case_decide as Hin; [done|]. apply NoDup_app. split; [done|].
  split; [|apply NoDup_singleton].
  intros x Hx Hk. apply list_elem_of_singleton in Hk as ->. done.
Qed.

End increment_facts.

(** ** Training counts transitions *)

Section transition_facts.
Context {payload : Type} `{EqDecision payload} `{Inhabited payload}.
Variable hash : payload → Z.
Variable recursion_limit : nat.
Implicit Types (σ : list (MarkovNode payload)) (st : state payload) (r node : nat) (d p q : payload).

Lemma graph_data_inj st a b :
  graph st → (a < length (heap st))%nat → (b < length (heap st))%nat →
  data (obj (heap st) a) = data (obj (heap st) b) → a = b.
Proof.
  intros Hg Ha Hb Hd.
  assert (∀ r, (r < length (heap st))%nat →
               (data <$> heap st) !! r = Some (data (obj (heap st) r))) as Hl.
  { intros r Hr. by rewrite list_lookup_fmap, (obj_elem_of _ _ Hr). }
  eapply (NoDup_lookup _ _ _ _ (graph_payloads _ Hg)); [by apply Hl|].
  rewrite Hd. by apply Hl.
Qed.

Lemma node_of_graph st p a :
  graph st →
  node_of st p = Some a ↔ (a < length (heap st))%nat ∧ data (obj (heap st) a) = p.
Proof.
  intros Hg. unfold node_of. split.
  - intros Hn. apply fmap_Some in Hn as ([i a'] & Hf & ->). simpl.
    apply list_find_Some in Hf as (Hi & Hd & _). split; [|done].
    exact (Forall_lookup_1 _ _ _ _ (graph_nodes _ Hg) Hi).
  - intros [Ha Hd].
    destruct (list_find (λ node, data (obj (heap st) node) = p) (nodes st))
      as [[i b]|] eqn:Hf; simpl.
    + apply list_find_Some in Hf as (Hi & Hd' & _). f_equal.
      apply (graph_data_inj st); [done | | done | congruence].
      exact (Forall_lookup_1 _ _ _ _ (graph_nodes _ Hg) Hi).
    + apply list_find_None in Hf. rewrite Forall_forall in Hf.
      destruct (Hf a); [by apply (graph_all _ Hg) | done].
Qed.

Lemma node_of_None st p :
  graph st → node_of st p = None ↔ p ∉ data <$> heap st.
Proof.
  intros Hg. split.
  - intros Hn Hin. apply list_elem_of_lookup in Hin as [a Ha].
    rewrite list_lookup_fmap in Ha. apply fmap_Some in Ha as (n & Ha & ->).
    assert (node_of st (data n) = Some a) as Hs.
    { apply node_of_graph; [done|]. split; [by eapply lookup_lt_Some|].
      by rewrite (obj_lookup _ _ _ Ha). }
    congruence.
  - intros Hnin. destruct (node_of st p) as [a|] eqn:Hn; [|done].
    apply node_of_graph in Hn as [Ha Hd]; [|done]. destruct Hnin.
    rewrite <- Hd. apply list_elem_of_lookup. exists a.
    by rewrite list_lookup_fmap, (obj_elem_of _ _ Ha).
Qed.

Lemma edge_weight_outside σ a b :
  closed σ → (length σ ≤ b)%nat → edge_weight σ a b = 0.
Proof.
  intros Hc Hb. unfold edge_weight. apply weight_of_not_elem.
  intros Hin. pose proof (closed_keys σ a Hc) as Hk.
  rewrite Forall_forall in Hk. specialize (Hk b Hin). lia.
Qed.

(** The edges after [inc] in a graph. *)
Lemma inc_edges st self d amount :
  graph st → (self < length (heap st))%nat →
  hash_inj_on hash (d :: (data <$> heap st)) →
  ∃ child st',
    inc hash recursion_limit self d amount st = (Ok child, st') ∧
    graph st' ∧
    (child < length (heap st'))%nat ∧
    data (obj (heap st') child) = d ∧
    (length (heap st) ≤ length (heap st'))%nat ∧
    data <$> heap st' ⊆ d :: (data <$> heap st) ∧
    (∀ r, data (obj (heap st') r) = data (obj (heap (find d true st).2) r)) ∧
    (∀ r, (r < length (heap st))%nat → data (obj (heap st') r) = data (obj (heap st) r)) ∧
    (∀ a b, (a < length (heap st))%nat →
       edge_weight (heap st') a b =
         edge_weight (heap st) a b + (if decide (a = self ∧ b = child) then amount else 0)) ∧
    (∀ a b, (length (heap st) ≤ a)%nat → edge_weight (heap st') a b = 0) ∧
    (∀ r, r ≠ self → obj (heap st') r = obj (heap (find d true st).2) r) ∧
    ∃ m', iadd_item is_eq (edges (obj (heap st) self)) child amount = (Ok (), m') ∧
          edges (obj (heap st') self) = m'.
Proof.
  intros Hg Hself Hinj.
  destruct (inc_graph hash recursion_limit st self d amount Hg Hself Hinj)
    as (child & m' & Hfind & Hiadd & Hinc).
  destruct (inc_graph_post hash recursion_limit st self d amount Hg Hself Hinj)
    as (child' & st' & Hinc' & Hg' & Hchild & Hlen & Hfind' & Hsub & _).
  rewrite Hinc in Hinc'. injection Hinc' as <- <-.
  pose proof (find_heap_obj st d) as Hobj.
  pose proof (find_heap_length st d) as Hlen1.
  destruct (find_child st d Hg) as (c & Hf & _ & Hdata).
  rewrite Hfind in Hf. injection Hf as <-.
  set (st1 := (find d true st).2) in *.
  rewrite (Hobj self Hself) in Hiadd.
  destruct (iadd_item_is (edges (obj (heap st) self)) child amount)
    as (m'' & Hiadd' & Hw & Hother & _).
  rewrite Hiadd in Hiadd'. injection Hiadd' as <-.
  exists child, (with_edges st1 self m'). simpl in *.
  rewrite length_set_edges in *.
  split; [done|]. split; [done|]. split; [done|].
  split; [by rewrite data_set_edges|]. split; [done|]. split; [done|].
  split; [intros r; by rewrite data_set_edges|].
  split; [intros r Hr; by rewrite data_set_edges, Hobj|].
  split; [|split; [|split]].
  - intros a b Ha. unfold edge_weight.
    destruct (decide (a = self)) as [-> | Hne].
    + rewrite obj_set_edges_eq by lia. simpl.
      destruct (decide (b = child)) as [-> | Hb].
      * by rewrite decide_True, Hw.
      * rewrite decide_False by (by intros [? ?]). rewrite Hother by done. lia.
    + rewrite obj_set_edges_ne by done. rewrite Hobj by done.
      rewrite decide_False by (by intros [? ?]). lia.
  - intros a b Ha. unfold edge_weight. rewrite obj_set_edges_ne by lia.
    destruct (find_heap st d) as [Heq | Heq]; fold st1 in Heq; rewrite Heq.
    + by rewrite obj_outside.
    + destruct (decide (a = length (heap st))) as [-> | Hne].
      * by rewrite obj_app_new.
      * rewrite obj_app_beyond by lia. by rewrite obj_outside.
  - intros r Hr. by rewrite obj_set_edges_ne.
  - exists m'. split; [done|]. by rewrite obj_set_edges_eq by lia.
Qed.

Lemma weight_between_graph st p q a b :
  graph st →
  (a < length (heap st))%nat → data (obj (heap st) a) = p →
  (b < length (heap st))%nat → data (obj (heap st) b) = q →
  weight_between st p q = edge_weight (heap st) a b.
Proof.
  intros Hg Ha Hp Hb Hq. unfold weight_between.
  by rewrite (proj2 (node_of_graph st p a Hg)), (proj2 (node_of_graph st q b Hg)).
Qed.

Lemma weight_between_absent st p q :
  graph st → p ∉ data <$> heap st ∨ q ∉ data <$> heap st →
  weight_between st p q = 0.
Proof.
  intros Hg [Hp | Hq]; unfold weight_between.
  - by rewrite (proj2 (node_of_None st p Hg)).
  - rewrite (proj2 (node_of_None st q Hg)) by done. by destruct (node_of st p).
Qed.

Lemma data_elem_of σ r : (r < length σ)%nat → data (obj σ r) ∈ data <$> σ.
Proof.
  intros Hr. apply list_elem_of_lookup. exists r.
  by rewrite list_lookup_fmap, (obj_elem_of _ _ Hr).
Qed.

(** [inc] counts one transition: the weight between the payload of [self]
    and [d] grows by the amount, and no other weight changes. *)
Lemma inc_between st self d amount :
  graph st → (self < length (heap st))%nat →
  hash_inj_on hash (d :: (data <$> heap st)) →
  ∃ child st',
    inc hash recursion_limit self d amount st = (Ok child, st') ∧
    graph st' ∧
    (child < length (heap st'))%nat ∧
    data (obj (heap st') child) = d ∧
    (∀ x, x ∈ data <$> heap st' ↔ x = d ∨ x ∈ data <$> heap st) ∧
    ∀ p q, weight_between st' p q =
             weight_between st p q +
             (if decide (p = data (obj (heap st) self) ∧ q = d) then amount else 0).
Proof.
  intros Hg Hself Hinj.
  destruct (inc_edges st self d amount Hg Hself Hinj)
    as (child & st' & Hinc & Hg' & Hchild & Hdata & Hlen & Hsub & _ & Hold & Hedge & Hnew & _).
  exists child, st'. do 4 (split; [done|]).
  set (s := data (obj (heap st) self)).
  assert (∀ r, (r < length (heap st'))%nat → (length (heap st) ≤ r)%nat →
               data (obj (heap st') r) ∉ data <$> heap st) as Hfresh.
  { intros r Hr Hge Hin. apply list_elem_of_lookup in Hin as [r' Hr'].
    rewrite list_lookup_fmap in Hr'. apply fmap_Some in Hr' as (n & Hn & Hd).
    assert (r' < length (heap st))%nat as Hlt by (by eapply lookup_lt_Some).
    assert (r = r'); [|lia].
    apply (graph_data_inj st' r r' Hg'); [done | lia |].
    by rewrite Hd, (Hold r' Hlt), (obj_lookup _ _ _ Hn). }
  assert (∀ x, x ∈ data <$> heap st → x ∈ data <$> heap st') as Hmono.
  { intros x Hx. apply list_elem_of_lookup in Hx as [r Hr].
    rewrite list_lookup_fmap in Hr. apply fmap_Some in Hr as (n & Hn & ->).
    assert (r < length (heap st))%nat as Hlt by (by eapply lookup_lt_Some).
    rewrite <- (obj_lookup _ _ _ Hn), <- (Hold r Hlt). apply data_elem_of. lia. }
  split.
  { intros x. split.
    - intros Hx. apply Hsub in Hx. by apply elem_of_cons in Hx.
    - intros [-> | Hx]; [|by apply Hmono]. rewrite <- Hdata. by apply data_elem_of. }
  intros p q.
  destruct (decide (p ∈ data <$> heap st')) as [Hp | Hp]; cycle 1.
  { rewrite !weight_between_absent; [|done| by left; auto |done| by left].
    rewrite decide_False; [done|]. intros [-> _]. apply Hp, Hmono.
    by apply data_elem_of. }
  destruct (decide (q ∈ data <$> heap st')) as [Hq | Hq]; cycle 1.
  { rewrite !weight_between_absent; [|done| by right; auto |done| by right].
    rewrite decide_False; [done|]. intros [_ ->]. apply Hq.
    rewrite <- Hdata. by apply data_elem_of. }
  apply list_elem_of_lookup in Hp as [a Ha]. rewrite list_lookup_fmap in Ha.
  apply fmap_Some in Ha as (na & Ha & ->).
  apply list_elem_of_lookup in Hq as [b Hb]. rewrite list_lookup_fmap in Hb.
  apply fmap_Some in Hb as (nb & Hb & ->).
  assert (a < length (heap st'))%nat as Hal by (by eapply lookup_lt_Some).
  assert (b < length (heap st'))%nat as Hbl by (by eapply lookup_lt_Some).
  rewrite <- (obj_lookup _ _ _ Ha), <- (obj_lookup _ _ _ Hb).
  rewrite (weight_between_graph st' _ _ a b Hg' Hal eq_refl Hbl eq_refl).
  assert (b = child ↔ data (obj (heap st') b) = d) as Hbc.
  { split; [by intros ->|]. intros Hd. apply (graph_data_inj st'); [done..|congruence]. }
  destruct (decide (a < length (heap st))%nat) as [Hao | Han]; cycle 1.
  { rewrite Hnew by lia.
    rewrite weight_between_absent; [|done|left; apply Hfresh; lia].
    rewrite decide_False; [done|]. intros [Hs _].
    apply (Hfresh a Hal); [lia|]. rewrite Hs. by apply data_elem_of. }
  rewrite (Hedge a b Hao).
  assert (a = self ↔ data (obj (heap st') a) = s) as Has.
  { rewrite (Hold a Hao). split; [by intros ->|]. intros Hd.
    by apply (graph_data_inj st). }
  assert ((if decide (a = self ∧ b = child) then amount else 0) =
          (if decide (data (obj (heap st') a) = s ∧ data (obj (heap st') b) = d)
           then amount else 0)) as ->.
  { destruct (decide (a = self ∧ b = child)) as [[? ?] | Hn].
    - rewrite decide_True; [done|]. split; [by apply Has | by apply Hbc].
    - rewrite decide_False; [done|]. intros [? ?]. apply Hn.
      split; [by apply Has | by apply Hbc]. }
  f_equal.
  destruct (decide (b < length (heap st))%nat) as [Hbo | Hbn].
  - symmetry. apply weight_between_graph; [done | done | by rewrite Hold | done | by rewrite Hold].
  - rewrite edge_weight_outside; [|apply (graph_closed _ Hg) | lia].
    symmetry. apply weight_between_absent; [done|]. right. apply Hfresh; lia.
Qed.

Lemma Forall_obj (P : MarkovNode payload → Prop) σ :
  Forall P σ ↔ ∀ r, (r < length σ)%nat → P (obj σ r).
Proof.
  rewrite Forall_lookup. split.
  - intros HP r Hr. apply (HP r). by apply obj_elem_of.
  - intros HP r n Hn. rewrite <- (obj_lookup _ _ _ Hn). apply HP. by eapply lookup_lt_Some.
Qed.

Lemma inc_keeps (P : list (nat * Z) → Prop) st self d amount :
  graph st → (self < length (heap st))%nat →
  hash_inj_on hash (d :: (data <$> heap st)) →
  P [] →
  (∀ m k m', P m → iadd_item is_eq m k amount = (Ok (), m') → P m') →
  Forall (λ n, P (edges n)) (heap st) →
  Forall (λ n, P (edges n)) (heap (inc hash recursion_limit self d amount st).2).
Proof.
  intros Hg Hself Hinj Hnil Hstep HP.
  destruct (inc_edges st self d amount Hg Hself Hinj)
    as (child & st' & Hinc & Hg' & Hchild & Hdata & Hlen & Hsub & _ & _ & _ & _ & Hother
        & m' & Hiadd & Hm').
  rewrite Hinc. simpl. rewrite Forall_obj in HP. apply Forall_obj. intros r Hr.
  destruct (decide (r = self)) as [-> | Hne].
  - rewrite Hm'. eapply Hstep; [|exact Hiadd]. by apply HP.
  - rewrite (Hother r Hne).
    destruct (decide (r < length (heap st))%nat) as [Hro | Hrn].
    + rewrite find_heap_obj by done. by apply HP.
    + destruct (find_heap st d) as [Heq | Heq]; rewrite Heq.
      * by rewrite obj_outside by lia.
      * destruct (decide (r = length (heap st))) as [-> | Hne'].
        -- by rewrite obj_app_new.
        -- rewrite obj_app_beyond by lia. by rewrite obj_outside by lia.
Qed.

Lemma last_cons_default {A} (l : list A) (a x : A) :
  List.last (a :: l) x = List.last l a.
Proof.
  revert a x. induction l as [|b l IH]; intros a x; [done|].
  change (List.last (a :: b :: l) x) with (List.last (b :: l) x).
  by rewrite (IH b x), (IH b a).
Qed.

(** Training counts transitions. *)
Lemma train_between tokens : ∀ st node,
  graph st → (node < length (heap st))%nat →
  hash_inj_on hash (tokens ++ (data <$> heap st)) →
  ∃ final st',
    train hash recursion_limit node tokens st = (Ok final, st') ∧
    graph st' ∧
    (final < length (heap st'))%nat ∧
    data (obj (heap st') final) = List.last tokens (data (obj (heap st) node)) ∧
    (∀ x, x ∈ data <$> heap st' ↔ x ∈ tokens ∨ x ∈ data <$> heap st) ∧
    (weights_positive (heap st) → weights_positive (heap st')) ∧
    (keys_distinct (heap st) → keys_distinct (heap st')) ∧
    ∀ p q, weight_between st' p q =
             weight_between st p q + count_pairs (data (obj (heap st) node) :: tokens) p q.
Proof.
  induction tokens as [|c cs IH]; intros st node Hg Hnode Hinj.
  - exists node, st. simpl. do 4 (split; [done|]). split.
    { intros x. split; [by right|]. intros [Hx | Hx]; [by apply elem_of_nil in Hx | done]. }
    do 2 (split; [done|]). intros p q. lia.
  - assert (hash_inj_on hash (c :: (data <$> heap st))) as Hinj1.
    { eapply hash_inj_on_subseteq; [|exact Hinj]. intros x Hx.
      apply elem_of_cons in Hx as [-> | Hx]; [by left | right].
      apply elem_of_app. by right. }
    destruct (inc_between st node c 1 Hg Hnode Hinj1)
      as (child & st1 & Hinc & Hg1 & Hchild & Hdata & Hmem & Hw).
    assert (hash_inj_on hash (cs ++ (data <$> heap st1))) as Hinj2.
    { eapply hash_inj_on_subseteq; [|exact Hinj]. intros x Hx.
      apply elem_of_app in Hx as [Hx | Hx]; [by right; apply elem_of_app; left|].
      apply Hmem in Hx as [-> | Hx]; [by left | right]. apply elem_of_app. by right. }
    destruct (IH st1 child Hg1 Hchild Hinj2)
      as (final & st' & Htrain & Hg' & Hfinal & Hlast & Hmem' & Hpos & Hkeys & Hw').
    exists final, st'. cbn [train]. unfold mbind. rewrite Hinc.
    split; [done|]. split; [done|]. split; [done|]. split.
    { by rewrite Hlast, Hdata, last_cons_default. }
    split.
    { intros x. rewrite Hmem', Hmem, elem_of_cons. tauto. }
    split.
    { intros Hp. apply Hpos.
      pose proof (inc_keeps (λ m, Forall (λ w, 0 < w) (values m)) st node c 1
                    Hg Hnode Hinj1) as Hk.
      rewrite Hinc in Hk. apply Hk; [constructor | | done].
      intros m k m' Hm Hi. by apply (iadd_item_is_positive m k 1). }
    split.
    { intros Hk. apply Hkeys.
      pose proof (inc_keeps (λ m, NoDup (keys m)) st node c 1 Hg Hnode Hinj1) as Hk'.
      rewrite Hinc in Hk'. apply Hk'; [constructor | | done].
      intros m k m' Hm Hi. by apply (iadd_item_is_NoDup m k 1). }
    intros p q. rewrite Hw', Hw, Hdata.
    change (count_pairs (data (obj (heap st) node) :: c :: cs) p q)
      with ((if decide (data (obj (heap st) node) = p ∧ c = q) then 1 else 0)
            + count_pairs (c :: cs) p q).
    destruct (decide (p = data (obj (heap st) node) ∧ q = c)) as [[-> ->] | Hn].
    + rewrite decide_True by done. lia.
    + rewrite decide_False; [lia|]. intros [<- <-]. by apply Hn.
Qed.

End transition_facts.

(** ** The walk on a trained graph *)

Section generation_facts.
Context {payload : Type} `{EqDecision payload} `{Inhabited payload}.
Implicit Types (σ : list (MarkovNode payload)) (st : state payload) (r node : nat) (d p q : payload).

Lemma emitted_yield d (t : trace payload) : emitted (yield d t) = d :: emitted t.
Proof. by destruct t. Qed.

(** What the generator has yielded lies along a path. *)
Lemma iter_emitted σ rand fuel : ∀ i node,
  ∃ visited target,
    path σ rand i node visited target ∧
    emitted (iter fuel σ rand i node) `prefix_of`
      (λ r, data (obj σ r)) <$> (visited ++ [target]).
Proof.
  induction fuel as [|fuel IH]; intros i node; cbn [iter];
    destruct (truth (edges (obj σ node))) eqn:Ht.
  - exists [], node. split; [constructor|]. simpl. apply prefix_nil.
  - exists [], node. split; [constructor | done].
  - rewrite emitted_yield.
    destruct ((call (edges (obj σ node)) (rand i)).1) as [node'|e] eqn:Hcall.
    + destruct (IH (S i) node') as (visited & target & Hpath & Hpre).
      exists (node :: visited), target. split; [by econstructor|].
      simpl. by apply prefix_cons.
    + exists [], node. split; [constructor | done].
  - exists [], node. split; [constructor | done].
Qed.

(** Each step of a path follows an entry of positive weight. *)
Lemma path_adjacent σ rand i node visited target a b :
  (∀ j, (0 <= rand j)%Q ∧ (rand j < 1)%Q) →
  path σ rand i node visited target →
  adjacent (visited ++ [target]) a b →
  ∃ k w, edges (obj σ a) !! k = Some (b, w) ∧ 0 < w.
Proof.
  intros Hrand Hpath. induction Hpath as [i node | i node node' visited target Ht Hcall Hpath IH].
  - intros (l1 & l2 & Heq). destruct l1 as [|? [|]]; simplify_eq/=.
  - intros (l1 & l2 & Heq). destruct l1 as [|c l1].
    + simpl in Heq. injection Heq as <- Heq.
      assert (b = node') as ->.
      { inversion Hpath; subst; simpl in Heq; by injection Heq. }
      destruct (Hrand i) as [H0 H1].
      by apply (call_entry _ (rand i)).
    + simpl in Heq. injection Heq as <- Heq. apply IH. by exists l1, l2.
Qed.

Lemma adjacent_prefix {A} (l l' : list A) x y :
  l `prefix_of` l' → adjacent l x y → adjacent l' x y.
Proof.
  intros [k ->] (l1 & l2 & ->). exists l1, (l2 ++ k).
  by rewrite <- app_assoc.
Qed.

Lemma adjacent_fmap {A B} (f : A → B) (l : list A) x y :
  adjacent (f <$> l) x y → ∃ a b, adjacent l a b ∧ x = f a ∧ y = f b.
Proof.
  intros (l1 & l2 & Heq). apply fmap_app_inv in Heq as (k1 & k2 & -> & Heq & ->).
  symmetry in Heq. apply fmap_cons_inv in Heq as (a & k3 & -> & Heq & ->).
  symmetry in Heq. apply fmap_cons_inv in Heq as (b & k4 & -> & -> & ->).
  exists a, b. split; [by exists k1, k4 | done].
Qed.

Lemma positive_total {K} (m : list (K * Z)) :
  m ≠ [] → Forall (λ w, 0 < w) (values m) → 0 < total_weight m.
Proof.
  unfold total_weight, values. destruct m as [|[k w] m]; [done|]. intros _ Hm.
  rewrite fmap_cons in *. apply Forall_cons in Hm as [Hw Hm].
  assert (0 ≤ sum_weights m.*2) as Hs.
  { apply sum_nonneg. eapply Forall_impl; [done|]. simpl. lia. }
  change (sum_weights ((k, w).2 :: m.*2)) with (w + sum_weights m.*2). simpl in Hw. lia.
Qed.

Lemma weights_positive_obj σ r :
  weights_positive σ → Forall (λ w, 0 < w) (values (edges (obj σ r))).
Proof.
  intros Hpos. destruct (decide (r < length σ)%nat) as [Hr | Hr].
  - by apply (proj1 (Forall_obj _ σ) Hpos).
  - rewrite obj_outside by lia. constructor.
Qed.

(** No exception on positive weights. *)
Lemma iter_no_abort σ rand fuel : ∀ i node out e,
  weights_positive σ → iter fuel σ rand i node ≠ Abort out e.
Proof.
  induction fuel as [|fuel IH]; intros i node out e Hpos; cbn [iter];
    destruct (truth (edges (obj σ node))) eqn:Ht; try done.
  destruct ((call (edges (obj σ node)) (rand i)).1) as [node'|e'] eqn:Hcall.
  - specialize (IH (S i) node'). destruct (iter fuel σ rand (S i) node'); try done.
    simpl. intros [= <- <-]. by eapply IH.
  - exfalso. apply call_Raise in Hcall as [[Hnil _] | (Hne & Hle & _)].
    + by rewrite Hnil in Ht.
    + pose proof (positive_total _ Hne (weights_positive_obj σ node Hpos)). lia.
Qed.

(** *** The generator with the floats of CPython *)

Lemma totals_bounded_obj σ r :
  totals_bounded σ → Z.abs (total_weight (edges (obj σ r))) < OVERFLOW.
Proof.
  intros Hb. destruct (decide (r < length σ)%nat) as [Hr | Hr].
  - by apply (proj1 (Forall_obj _ σ) Hb).
  - rewrite obj_outside by lia. by vm_compute.
Qed.

(** No exception on positive weights whose totals have floats. *)
Lemma iter_float_no_abort σ rand fuel : ∀ i node out e,
  weights_positive σ → totals_bounded σ →
  iter_float fuel σ rand i node ≠ Abort out e.
Proof.
  induction fuel as [|fuel IH]; intros i node out e Hpos Hb; cbn [iter_float];
    destruct (truth (edges (obj σ node))) eqn:Ht; try done.
  destruct ((call_float (edges (obj σ node)) (rand i)).1) as [node'|e'] eqn:Hcall.
  - specialize (IH (S i) node'). destruct (iter_float fuel σ rand (S i) node'); try done.
    simpl. intros [= <- <-]. by eapply IH.
  - exfalso. pose proof (totals_bounded_obj σ node Hb) as Hlt.
    apply call_float_Raise in Hcall as [[Hnil _] | [(Hne & Hle & _) | (Hne & Hov & _)]].
    + by rewrite Hnil in Ht.
    + pose proof (positive_total _ Hne (weights_positive_obj σ node Hpos)). lia.
    + lia.
Qed.

(** The generator reads the random numbers from the [i]-th on. *)
Lemma iter_rand_ext σ fuel : ∀ rand rand' i node,
  (∀ j, (i ≤ j)%nat → rand j = rand' j) →
  iter fuel σ rand i node = iter fuel σ rand' i node.
Proof.
  induction fuel as [|fuel IH]; intros rand rand' i node Hext; cbn [iter]; [done|].
  destruct (truth (edges (obj σ node))); [|done].
  rewrite <- (Hext i) by lia.
  destruct ((call (edges (obj σ node)) (rand i)).1) as [node'|e]; [|done].
  f_equal. apply IH. intros j Hj. apply Hext. lia.
Qed.

(** The generator with the floats of CPython is the generator of the
    exact model on some random numbers of [[0, 1)]. *)
Lemma iter_float_exact σ (ks : nat → Z) fuel : ∀ i node,
  totals_bounded σ → (∀ j, 0 ≤ ks j < 2 ^ 53) →
  ∃ rand, (∀ j, (0 <= rand j)%Q ∧ (rand j < 1)%Q) ∧
          iter_float fuel σ (λ j, random_float (ks j)) i node = iter fuel σ rand i node.
Proof.
  intros i node Hb Hks. revert i node.
  induction fuel as [|fuel IH]; intros i node.
  { exists (λ _, 0%Q). split; [done|]. done. }
  cbn [iter_float iter].
  destruct (truth (edges (obj σ node))) eqn:Ht.
  2: { exists (λ _, 0%Q). split; [done|]. done. }
  destruct (call_float_call (edges (obj σ node)) (ks i) (Hks i)
              (totals_bounded_obj σ node Hb)) as (u & H0 & H1 & Hcall).
  rewrite Hcall.
  destruct ((call (edges (obj σ node)) u).1) as [node'|e] eqn:Hres.
  - destruct (IH (S i) node') as (rand & Hunit & Hiter).
    exists (λ j, if decide (j = i) then u else rand j). split.
    + intros j. destruct (decide (j = i)); [done | apply Hunit].
    + cbn beta. rewrite decide_True by done. rewrite Hres, Hiter.
      f_equal. apply iter_rand_ext. intros j Hj. by rewrite decide_False by lia.
  - exists (λ _, u). split; [done|]. by rewrite Hres.
Qed.

End generation_facts.

(** ** Training from one start node *)

Section start_facts.
Context {payload : Type} `{EqDecision payload} `{Inhabited payload}.
Variable hash : payload → Z.
Variable recursion_limit : nat.
Implicit Types (σ : list (MarkovNode payload)) (st : state payload) (r node : nat) (d p q s : payload).

Lemma inc_keeps_nodes st self d amount :
  let st' := (inc hash recursion_limit self d amount st).2 in
  nodes st `prefix_of` nodes st' ∧
  (length (heap st) ≤ length (heap st'))%nat ∧
  ∀ r, (r < length (heap st))%nat → data (obj (heap st') r) = data (obj (heap st) r).
Proof.
  simpl. destruct (find_frame st d) as (Hpre & _ & _ & Hobj).
  pose proof (find_heap_length st d) as Hlen.
  destruct (inc_state hash recursion_limit st self d amount) as [-> | [m ->]].
  - repeat split; [done..|]. intros; by rewrite Hobj.
  - simpl. rewrite length_set_edges. repeat split; [done..|].
    intros r Hr. by rewrite data_set_edges, Hobj.
Qed.

Lemma train_keeps_nodes tokens : ∀ st node,
  let st' := (train hash recursion_limit node tokens st).2 in
  nodes st `prefix_of` nodes st' ∧
  (length (heap st) ≤ length (heap st'))%nat ∧
  ∀ r, (r < length (heap st))%nat → data (obj (heap st') r) = data (obj (heap st) r).
Proof.
  induction tokens as [|c cs IH]; intros st node; simpl.
  - repeat split; [done..|]. done.
  - unfold mbind. destruct (inc_keeps_nodes st node c 1) as (Hpre & Hlen & Hd).
    destruct (inc hash recursion_limit node c 1 st) as [[child|e] st1]; simpl in *;
      [|done].
    destruct (IH st1 child) as (Hpre' & Hlen' & Hd').
    split; [by etrans|]. split; [lia|].
    intros r Hr. rewrite Hd' by lia. by apply Hd.
Qed.

Lemma graph_start_at s : graph (start_at s).
Proof.
  split.
  - by repeat constructor.
  - intros node Hnode. simpl in Hnode. assert (node = 0%nat) as -> by lia. by left.
  - by repeat constructor.
  - simpl. apply NoDup_singleton.
Qed.

Lemma weight_between_start_at s p q : weight_between (start_at s) p q = 0.
Proof.
  unfold weight_between.
  destruct (node_of (start_at s) p) as [a|] eqn:Ha; [|done].
  destruct (node_of (start_at s) q) as [b|] eqn:Hb; [|done].
  apply node_of_graph in Ha as [Ha _]; [|apply graph_start_at].
  simpl in Ha. by assert (a = 0%nat) as -> by lia.
Qed.

(** What training from [[MarkovNode(s)]] leaves. *)
Lemma train_start s tokens :
  hash_inj_on hash (s :: tokens) →
  ∃ final st',
    train hash recursion_limit 0%nat tokens (start_at s) = (Ok final, st') ∧
    graph st' ∧ nodes st' !! 0%nat = Some 0%nat ∧ data (obj (heap st') 0%nat) = s ∧
    (final < length (heap st'))%nat ∧
    data (obj (heap st') final) = List.last tokens s ∧
    (∀ x, x ∈ data <$> heap st' ↔ x = s ∨ x ∈ tokens) ∧
    weights_positive (heap st') ∧ keys_distinct (heap st') ∧
    ∀ p q, weight_between st' p q = count_pairs (s :: tokens) p q.
Proof.
  intros Hinj.
  destruct (train_between hash recursion_limit tokens (start_at s) 0%nat)
    as (final & st' & Htrain & Hg & Hfinal & Hlast & Hmem & Hpos & Hkeys & Hw).
  { apply graph_start_at. }
  { simpl. lia. }
  { eapply hash_inj_on_subseteq; [|exact Hinj]. intros x Hx.
    apply elem_of_app in Hx as [Hx | Hx]; [by right|].
    apply list_elem_of_singleton in Hx as ->. by left. }
  exists final, st'. split; [done|]. split; [done|].
  assert (nodes (start_at s) `prefix_of` nodes st' ∧
          data (obj (heap st') 0%nat) = s) as [[k Hk] Hd].
  { destruct (train_keeps_nodes tokens (start_at s) 0%nat) as (Hpre & _ & Hd).
    rewrite Htrain in Hpre, Hd. simpl in Hpre, Hd. split; [done|].
    by rewrite Hd by lia. }
  split; [by rewrite Hk|]. split; [done|]. split; [done|]. split; [done|]. split.
  { intros x. rewrite Hmem. simpl. rewrite list_elem_of_singleton. tauto. }
  split; [apply Hpos; by repeat constructor|].
  split; [apply Hkeys; repeat constructor; apply NoDup_nil_2|].
  intros p q. by rewrite Hw, weight_between_start_at.
Qed.

End start_facts.

Section training_properties.
Context {payload : Type} `{EqDecision payload} `{Inhabited payload}.
Variable hash : payload → Z.
Variable recursion_limit : nat.
Implicit Types (σ : list (MarkovNode payload)) (st : state payload) (r node : nat) (d p q s : payload).

Lemma train_reachable tokens : ∀ st node,
  reachable hash recursion_limit st →
  reachable hash recursion_limit (train hash recursion_limit node tokens st).2.
Proof.
  induction tokens as [|c cs IH]; intros st node Hr; [done|].
  cbn [train]. unfold mbind.
  pose proof (reach_inc hash recursion_limit st node c 1 Hr) as Hr1.
  destruct (inc hash recursion_limit node c 1 st) as [[child|e] st1]; [|done].
  by apply IH.
Qed.

Lemma payloads_graph st x : graph st → x ∈ payloads st ↔ x ∈ data <$> heap st.
Proof.
  intros Hg. unfold payloads. rewrite !list_elem_of_fmap. split.
  - intros (node & -> & Hin). exists (obj (heap st) node). split; [done|].
    apply list_elem_of_lookup. exists node. apply obj_elem_of.
    pose proof (graph_nodes _ Hg) as Hl. unfold listed in Hl.
    rewrite Forall_forall in Hl. by apply Hl.
  - intros (n & -> & Hin). apply list_elem_of_lookup in Hin as [r Hr].
    exists r. split; [by rewrite (obj_lookup _ _ _ Hr)|].
    apply (graph_all _ Hg). by eapply lookup_lt_Some.
Qed.

(** X8: the training loop [for c in tokens: node = node.inc(nodes, c)]
    from [[MarkovNode(s)]], for any start payload and any sequence on
    which the hash has no collisions, does not raise; it leaves one node
    for [s] and one for every token, with pairwise different payloads;
    it ends at the node of the last token; and the weight between two
    payloads is the number of places of [s] followed by the sequence where
    the first is followed by the second. *)
Theorem train_counts_transitions s tokens :
  hash_inj_on hash (s :: tokens) →
  ∃ final st',
    train hash recursion_limit 0%nat tokens (start_at s) = (Ok final, st') ∧
    NoDup (payloads st') ∧
    (∀ x, x ∈ payloads st' ↔ x = s ∨ x ∈ tokens) ∧
    node_of st' (List.last tokens s) = Some final ∧
    ∀ p q, weight_between st' p q = count_pairs (s :: tokens) p q.
Proof.
  intros Hinj.
  destruct (train_start hash recursion_limit s tokens Hinj)
    as (final & st' & Htrain & Hg & _ & _ & Hfinal & Hlast & Hmem & _ & _ & Hw).
  exists final, st'. split; [done|]. split.
  { apply (reachable_inv hash recursion_limit).
    pose proof (train_reachable tokens (start_at s) 0%nat
                  (reach_start hash recursion_limit s)) as Hr.
    by rewrite Htrain in Hr. }
  split; [intros x; by rewrite payloads_graph, Hmem|].
  split; [by apply node_of_graph|]. done.
Qed.

Lemma train_names_reachable (names : list (list payload)) : ∀ st,
  reachable hash recursion_limit st →
  reachable hash recursion_limit (train_names hash recursion_limit names st).2.
Proof.
  induction names as [|name rest IH]; intros st Hr; [done|].
  cbn [train_names]. unfold mbind at 1. unfold first_node.
  destruct (nodes st !! 0%nat) as [node|]; [|done].
  unfold mbind. pose proof (train_reachable name st node Hr) as Hr1.
  destruct (train hash recursion_limit node name st) as [[final|e] st1]; [|done].
  by apply IH.
Qed.

(** The loop of names from a graph whose first node carries [s]. *)
Lemma train_names_between s (names : list (list payload)) : ∀ st,
  graph st → nodes st !! 0%nat = Some 0%nat → (0 < length (heap st))%nat →
  data (obj (heap st) 0%nat) = s →
  hash_inj_on hash (concat names ++ (data <$> heap st)) →
  ∃ st',
    train_names hash recursion_limit names st = (Ok (), st') ∧
    graph st' ∧ nodes st' !! 0%nat = Some 0%nat ∧ data (obj (heap st') 0%nat) = s ∧
    (0 < length (heap st'))%nat ∧
    (∀ x, x ∈ data <$> heap st' ↔ x ∈ concat names ∨ x ∈ data <$> heap st) ∧
    (weights_positive (heap st) → weights_positive (heap st')) ∧
    (keys_distinct (heap st) → keys_distinct (heap st')) ∧
    ∀ p q, weight_between st' p q = weight_between st p q + count_all s names p q.
Proof.
  induction names as [|name rest IH]; intros st Hg H0 Hlen Hs Hinj.
  - exists st. simpl. do 5 (split; [done|]). split.
    + intros x. split; [by right|]. intros [Hx | Hx]; [by apply elem_of_nil in Hx | done].
    + do 2 (split; [done|]). intros p q. lia.
  - cbn [train_names]. unfold mbind, first_node. rewrite H0.
    destruct (train_between hash recursion_limit name st 0%nat Hg Hlen)
      as (final & st1 & Htrain & Hg1 & _ & _ & Hmem1 & Hpos1 & Hkeys1 & Hw1).
    { eapply hash_inj_on_subseteq; [|exact Hinj]. intros x Hx. simpl.
      rewrite <- app_assoc. apply elem_of_app in Hx as [Hx | Hx]; apply elem_of_app; [by left|].
      right. apply elem_of_app. by right. }
    rewrite Htrain.
    destruct (train_keeps_nodes hash recursion_limit name st 0%nat) as ([k Hk] & Hlen1 & Hd1).
    rewrite Htrain in Hk, Hlen1, Hd1. simpl in Hk, Hlen1, Hd1.
    destruct (IH st1) as (st' & Hnames & Hg' & H0' & Hs' & Hlen' & Hmem' & Hpos' & Hkeys' & Hw').
    { done. }
    { rewrite Hk. by rewrite lookup_app_l by (apply lookup_lt_is_Some; eauto). }
    { lia. }
    { by rewrite Hd1. }
    { eapply hash_inj_on_subseteq; [|exact Hinj]. intros x Hx. simpl.
      rewrite <- app_assoc. apply elem_of_app in Hx as [Hx | Hx].
      - apply elem_of_app. right. apply elem_of_app. by left.
      - apply Hmem1 in Hx as [Hx | Hx]; apply elem_of_app; [by left|].
        right. apply elem_of_app. by right. }
    exists st'. do 5 (split; [done|]). split; [|split; [tauto|split; [tauto|]]].
    + intros x. rewrite Hmem', Hmem1. simpl. rewrite elem_of_app. tauto.
    + intros p q. rewrite Hw', Hw1, Hs. cbn [count_all]. lia.
Qed.

(** What the loop of names leaves from [[MarkovNode(s)]]. *)
Lemma train_names_start s (names : list (list payload)) :
  hash_inj_on hash (s :: concat names) →
  ∃ st',
    train_names hash recursion_limit names (start_at s) = (Ok (), st') ∧
    graph st' ∧ nodes st' !! 0%nat = Some 0%nat ∧ data (obj (heap st') 0%nat) = s ∧
    (0 < length (heap st'))%nat ∧
    (∀ x, x ∈ data <$> heap st' ↔ x = s ∨ x ∈ concat names) ∧
    weights_positive (heap st') ∧ keys_distinct (heap st') ∧
    ∀ p q, weight_between st' p q = count_all s names p q.
Proof.
  intros Hinj.
  destruct (train_names_between s names (start_at s))
    as (st' & Hnames & Hg' & H0' & Hs' & Hlen' & Hmem' & Hpos' & Hkeys' & Hw').
  { apply graph_start_at. }
  { done. }
  { simpl. lia. }
  { done. }
  { eapply hash_inj_on_subseteq; [|exact Hinj]. intros x Hx.
    apply elem_of_app in Hx as [Hx | Hx]; [by right|].
    apply list_elem_of_singleton in Hx as ->. by left. }
  exists st'. do 5 (split; [done|]). split; [|split; [|split]].
  - intros x. rewrite Hmem'. simpl. rewrite list_elem_of_singleton. tauto.
  - apply Hpos'. by repeat constructor.
  - apply Hkeys'. repeat constructor.
  - intros p q. by rewrite Hw', weight_between_start_at.
Qed.

(** X9: the training loop of the cell of names, which starts every name
    again at [nodes[0]], does not raise from [[MarkovNode(s)]] when the
    hash has no collisions on the payloads; [nodes[0]] stays the node of
    [s]; the payloads of the list are pairwise different and are [s] and
    the tokens of the names; and the weight between two payloads is the
    number of transitions from the first to the second, summed over the
    names, each name begun with [s]. *)
Theorem train_names_counts s (names : list (list payload)) :
  hash_inj_on hash (s :: concat names) →
  ∃ st',
    train_names hash recursion_limit names (start_at s) = (Ok (), st') ∧
    find s false st' = (Ok 0%nat, st') ∧
    NoDup (payloads st') ∧
    (∀ x, x ∈ payloads st' ↔ x = s ∨ x ∈ concat names) ∧
    ∀ p q, weight_between st' p q = count_all s names p q.
Proof.
  intros Hinj.
  destruct (train_names_start s names Hinj)
    as (st' & Hnames & Hg & H0 & Hs & Hlen & Hmem & _ & _ & Hw).
  exists st'. split; [done|]. split; [|split; [|split; [|done]]].
  - assert (node_of st' s = Some 0%nat) as Hn by (by apply node_of_graph).
    unfold node_of in Hn. apply fmap_Some in Hn as ([i c] & Hf & ->).
    by apply (find_found _ _ _ i).
  - apply (reachable_inv hash recursion_limit).
    pose proof (train_names_reachable names (start_at s)
                  (reach_start hash recursion_limit s)) as Hr.
    by rewrite Hnames in Hr.
  - intros x. by rewrite payloads_graph, Hmem.
Qed.

End training_properties.

(** ** The further properties of [WeightMap] and [MarkovNode] *)

Section draw_properties.
Context {K : Type} `{EqDecision K}.
Implicit Types m : list (K * Z).

Lemma scan_ext m acc x y :
  (∀ c, float_lt x c = float_lt y c) → scan m acc x = scan m acc y.
Proof.
  intros Hxy. revert acc. induction m as [|[k w] m IH]; intros acc; [done|].
  simpl. by rewrite Hxy, IH.
Qed.

(** X1: on weights that are not negative, with a total that is positive
    and below [OVERFLOW], [__call__] with the floats of CPython, when
    [random()] returns [k * 2**-53], converts the total to its nearest
    float and searches the rounded product [x = random() * total]; it
    returns the key of the entry whose interval of cumulative weights
    contains [x]: the sum of the weights before it is at most [x] and the
    sum with its own weight is above [x]. The entry has a positive weight,
    and its key is the one a scan of the cumulative weights from the left
    finds. *)
Theorem call_by_cumulative_weight m k :
  Forall (λ w, 0 ≤ w) (values m) → 0 ≤ k < 2 ^ 53 →
  0 < total_weight m → total_weight m < OVERFLOW →
  let x := float_mul (random_float k) (inject_Z (nearest_float (total_weight m))) in
  ∃ i key w,
    float_of_int (total_weight m) = Ok (inject_Z (nearest_float (total_weight m))) ∧
    (call_float m (random_float k)).1 = Ok key ∧ m !! i = Some (key, w) ∧ 0 < w ∧
    float_lt x (sum_weights (take i (values m))) = false ∧
    float_lt x (sum_weights (take i (values m)) + w) = true ∧
    scan m 0 x = Some key.
Proof.
  intros Hnn Hk Hpos Hov x. fold (searched k (total_weight m)) in x.
  destruct (searched_unit k (total_weight m) Hk Hpos) as [H0 H1].
  set (u := place (searched k (total_weight m)) (total_weight m)) in *.
  destruct (call_interval m u H0 H1 Hpos) as (i & key & w & Hi & Hcall & Hlo & Hhi).
  destruct (call_scan m u Hnn H0 H1 Hpos) as (key' & Hcall' & Hscan).
  assert (key' = key) as -> by congruence.
  assert ((values m) !! i = Some w) as Hw.
  { unfold values. by rewrite list_lookup_fmap, Hi. }
  rewrite (sum_take_S _ _ _ Hw) in Hhi.
  assert (∀ c, float_lt x c = (Qnum u * total_weight m <? c * Zpos (Qden u))) as Hx.
  { intros c. rewrite <- float_lt_scaled. symmetry. by apply float_lt_place. }
  exists i, key, w.
  split; [by apply float_of_int_pos|].
  split; [by rewrite call_float_exact|]. split; [done|].
  assert (float_lt x (sum_weights (take i (values m))) = false) as Hbefore.
  { rewrite Hx. apply Z.ltb_ge. lia. }
  assert (float_lt x (sum_weights (take i (values m)) + w) = true) as Hupto.
  { rewrite Hx. apply Z.ltb_lt. lia. }
  split; [|split; [done|split; [done|]]].
  - rewrite Hx in Hbefore, Hupto. apply Z.ltb_ge in Hbefore. apply Z.ltb_lt in Hupto.
    assert (0 < Zpos (Qden u)) by lia. nia.
  - rewrite <- Hscan. apply scan_ext. intros c. symmetry. by apply float_lt_place.
Qed.

(** X18: whenever the total weight has a float, the draw with the floats
    of CPython is a draw of the exact model: for every value
    [k * 2**-53] of [random()] there is a number [u] of [[0, 1)] at which
    [call] returns, or raises, what [call_float] does. *)
Theorem call_float_refines_call m k :
  0 ≤ k < 2 ^ 53 → Z.abs (total_weight m) < OVERFLOW →
  ∃ u, (0 <= u)%Q ∧ (u < 1)%Q ∧ call_float m (random_float k) = call m u.
Proof. apply call_float_call. Qed.
End draw_properties.

Section node_properties.
Context {payload : Type} `{EqDecision payload} `{Inhabited payload}.
Variable hash : payload → Z.
Variable recursion_limit : nat.
Implicit Types (σ : list (MarkovNode payload)) (st : state payload) (r node : nat) (d p q s : payload).

(** X7: in a graph, with a hash without collisions on the payloads,
    [self.inc(nodes, d, amount)] does not raise and leaves a graph; the
    node it returns is the one [find(nodes, d)] returns afterwards; the
    payloads are the old ones and [d]; and the weight between the payload
    of [self] and [d] has grown by the amount, while the weight between
    any other two payloads is as before. *)
Theorem inc_counts_transition st self d amount :
  graph st → (self < length (heap st))%nat →
  hash_inj_on hash (d :: (data <$> heap st)) →
  ∃ child st',
    inc hash recursion_limit self d amount st = (Ok child, st') ∧
    graph st' ∧
    find d false st' = (Ok child, st') ∧
    (∀ x, x ∈ payloads st' ↔ x = d ∨ x ∈ payloads st) ∧
    ∀ p q, weight_between st' p q =
             weight_between st p q +
             (if decide (p = data (obj (heap st) self) ∧ q = d) then amount else 0).
Proof.
  intros Hg Hself Hinj.
  destruct (inc_between hash recursion_limit st self d amount Hg Hself Hinj)
    as (child & st' & Hinc & Hg' & Hchild & Hdata & Hmem & Hw).
  exists child, st'. do 2 (split; [done|]). split; [|split; [|done]].
  - assert (node_of st' d = Some child) as Hn by (by apply node_of_graph).
    unfold node_of in Hn. apply fmap_Some in Hn as ([i c] & Hf & ->).
    by apply (find_found _ _ _ i).
  - intros x. by rewrite !payloads_graph, Hmem.
Qed.

(** X10: when every stored weight is positive and the total weight of
    every node has a float, the generator, with the floats of CPython,
    never ends with an exception, from whatever node it starts and
    whatever the random numbers are: it finishes, or it is still
    running. *)
Theorem generation_never_raises σ rand fuel i node :
  weights_positive σ → totals_bounded σ →
  ∃ out, iter_float fuel σ rand i node = Stop out ∨ iter_float fuel σ rand i node = More out.
Proof.
  intros Hpos Hb. pose proof (iter_float_no_abort σ rand fuel i node) as Hno.
  destruct (iter_float fuel σ rand i node) as [out|out e|out]; [eauto | | eauto].
  by destruct (Hno out e Hpos Hb).
Qed.

(** X19: when the total weight of every node has a float, what the
    generator does with the floats of CPython, on the values
    [ks j * 2**-53] of [random()], the generator of the exact model does
    on some random numbers of [[0, 1)]: the same payloads, and the same
    end. *)
Theorem iter_float_refines_iter σ (ks : nat → Z) fuel i node :
  totals_bounded σ → (∀ j, 0 ≤ ks j < 2 ^ 53) →
  ∃ rand, (∀ j, (0 <= rand j)%Q ∧ (rand j < 1)%Q) ∧
          iter_float fuel σ (λ j, random_float (ks j)) i node = iter fuel σ rand i node.
Proof. apply iter_float_exact. Qed.

Lemma emitted_edge σ rand fuel i node x y :
  (∀ j, (0 <= rand j)%Q ∧ (rand j < 1)%Q) →
  adjacent (emitted (iter fuel σ rand i node)) x y →
  ∃ a b k w,
    data (obj σ a) = x ∧ data (obj σ b) = y ∧
    edges (obj σ a) !! k = Some (b, w) ∧ 0 < w.
Proof.
  intros Hrand Hadj.
  destruct (iter_emitted σ rand fuel i node) as (visited & target & Hpath & Hpre).
  apply (adjacent_prefix _ _ _ _ Hpre) in Hadj.
  apply adjacent_fmap in Hadj as (a & b & Hadj & -> & ->).
  destruct (path_adjacent σ rand i node visited target a b Hrand Hpath Hadj)
    as (k & w & Hk & Hw).
  by exists a, b, k, w.
Qed.

(** X11: with random numbers of [[0, 1)], whatever the generator yields
    follows the edges: two values yielded one after the other are the
    payloads of two nodes of which the first has an entry of positive
    weight for the second; and the first value yielded is the payload of
    the node the generator was started on. *)
Theorem walk_follows_positive_edges σ rand fuel i node :
  (∀ j, (0 <= rand j)%Q ∧ (rand j < 1)%Q) →
  (∀ x y, adjacent (emitted (iter fuel σ rand i node)) x y →
     ∃ a b k w,
       data (obj σ a) = x ∧ data (obj σ b) = y ∧
       edges (obj σ a) !! k = Some (b, w) ∧ 0 < w) ∧
  (∀ x, head (emitted (iter fuel σ rand i node)) = Some x → x = data (obj σ node)).
Proof.
  intros Hrand. split; [intros x y; by apply emitted_edge|].
  intros x. destruct fuel as [|fuel]; cbn [iter];
    destruct (truth (edges (obj σ node))); try rewrite emitted_yield; simpl; congruence.
Qed.

Lemma lookup_edge_valid st a b k w :
  graph st → edges (obj (heap st) a) !! k = Some (b, w) →
  (a < length (heap st))%nat ∧ (b < length (heap st))%nat ∧ b ∈ keys (edges (obj (heap st) a)).
Proof.
  intros Hg Hk.
  assert (a < length (heap st))%nat as Ha.
  { destruct (decide (a < length (heap st))%nat) as [|Hn]; [done|].
    rewrite obj_outside in Hk by lia. done. }
  assert (b ∈ keys (edges (obj (heap st) a))) as Hin.
  { unfold keys. apply list_elem_of_fmap. exists (b, w). split; [done|].
    by eapply list_elem_of_lookup_2. }
  split; [done|]. split; [|done].
  pose proof (closed_keys (heap st) a (graph_closed _ Hg)) as Hc.
  rewrite Forall_forall in Hc. by apply Hc.
Qed.

(** X12: on the graph the cell of names trains from [[MarkovNode(s)]], with
    a hash without collisions on the payloads and random numbers of
    [[0, 1)], the generator never ends with an exception, from whatever node
    it starts, and it yields one value after another only where some name,
    begun with [s], has the second after the first. *)
Theorem trained_walk_follows_training s names rand fuel i node :
  hash_inj_on hash (s :: concat names) →
  (∀ j, (0 <= rand j)%Q ∧ (rand j < 1)%Q) →
  let σ := heap (train_names hash recursion_limit names (start_at s)).2 in
  (∀ out e, iter fuel σ rand i node ≠ Abort out e) ∧
  (∀ x y, adjacent (emitted (iter fuel σ rand i node)) x y →
          0 < count_all s names x y).
Proof.
  intros Hinj Hrand.
  destruct (train_names_start hash recursion_limit s names Hinj)
    as (st' & Htrain & Hg & _ & _ & _ & _ & Hpos & _ & Hw).
  rewrite Htrain. cbn zeta. simpl snd. split.
  - intros out e. by apply iter_no_abort.
  - intros x y Hadj.
    destruct (emitted_edge _ _ _ _ _ _ _ Hrand Hadj) as (a & b & k & w & <- & <- & Hk & _).
    destruct (lookup_edge_valid st' a b k w Hg Hk) as (Ha & Hb & Hin).
    rewrite <- Hw, (weight_between_graph st' _ _ a b Hg Ha eq_refl Hb eq_refl).
    unfold edge_weight.
    apply (weight_of_elem_Forall (λ w, 0 < w)); [done|].
    by apply weights_positive_obj.
Qed.

(** X13: on the graph the cell of names trains from [[MarkovNode(s)]], a
    node has no entries, so that the generator stops there, exactly when
    no name, begun with [s], has anything after the payload of the
    node. *)
Theorem terminal_iff_never_followed s names r :
  hash_inj_on hash (s :: concat names) →
  let st' := (train_names hash recursion_limit names (start_at s)).2 in
  (r < length (heap st'))%nat →
  edges (obj (heap st') r) = [] ↔
  ∀ q, count_all s names (data (obj (heap st') r)) q = 0.
Proof.
  intros Hinj.
  destruct (train_names_start hash recursion_limit s names Hinj)
    as (st' & Htrain & Hg & _ & _ & _ & _ & Hpos & _ & Hw).
  rewrite Htrain. cbn zeta. simpl snd. intros Hr. split.
  - intros Hnil q. rewrite <- Hw.
    destruct (decide (q ∈ data <$> heap st')) as [Hq | Hq].
    + apply list_elem_of_lookup in Hq as [b Hb]. rewrite list_lookup_fmap in Hb.
      apply fmap_Some in Hb as (n & Hb & ->).
      rewrite (weight_between_graph st' _ _ r b Hg Hr eq_refl);
        [|by eapply lookup_lt_Some | by rewrite (obj_lookup _ _ _ Hb)].
      unfold edge_weight. by rewrite Hnil.
    + apply weight_between_absent; [done | by right].
  - intros Hzero. destruct (edges (obj (heap st') r)) as [|[b w] m] eqn:He; [done|].
    exfalso.
    assert (edges (obj (heap st') r) !! 0%nat = Some (b, w)) as Hk by (by rewrite He).
    destruct (lookup_edge_valid st' r b 0%nat w Hg Hk) as (_ & Hb & Hin).
    specialize (Hzero (data (obj (heap st') b))).
    rewrite <- Hw, (weight_between_graph st' _ _ r b Hg Hr eq_refl Hb eq_refl) in Hzero.
    pose proof (weight_of_elem_Forall (λ w, 0 < w) _ b Hin
                  (weights_positive_obj (heap st') r Hpos)) as Hlt.
    unfold edge_weight in Hzero. simpl in Hlt. lia.
Qed.

(** X17: the increment of [inc] is not checked: on a node without entries
    in a graph, [inc] with an increment that is 0 or negative, and above
    [- OVERFLOW], leaves one entry whose weight is not positive, and the
    generator started on the node then yields its payload and ends with
    [ValueError]. *)
Theorem inc_without_weight_stalls st self d amount rand fuel i :
  graph st → (self < length (heap st))%nat →
  hash_inj_on hash (d :: (data <$> heap st)) →
  edges (obj (heap st) self) = [] → amount ≤ 0 → - OVERFLOW < amount →
  iter_float (S fuel) (heap (inc hash recursion_limit self d amount st).2) rand i self
  = Abort [data (obj (heap st) self)] ValueError.
Proof.
  intros Hg Hself Hinj Hnil Hle Hov.
  destruct (inc_edges hash recursion_limit st self d amount Hg Hself Hinj)
    as (child & st' & Hinc & _ & _ & _ & _ & _ & _ & Hdata & _ & _ & _ & m' & Hiadd & Hm').
  rewrite Hinc. simpl snd. rewrite Hnil in Hiadd.
  rewrite iadd_item_is_new in Hiadd by (apply not_elem_of_nil).
  injection Hiadd as <-. simpl in Hm'.
  cbn [iter_float]. rewrite Hm', (Hdata self Hself).
  assert ((call_float [(child, amount)] (rand i)).1 = Raise ValueError) as ->.
  { apply call_float_Raise. right. left. split; [done|].
    unfold total_weight. simpl. split; [lia|]. split; [lia|]. done. }
  done.
Qed.

End node_properties.

(** ** Payloads with equal hashes *)

Section collisions.
Context {payload : Type} `{EqDecision payload} `{Inhabited payload}.
Variable hash : payload → Z.
Variable depth : nat.
Implicit Types (σ : list (MarkovNode payload)) (st : state payload) (r node : nat) (d p q s : payload).

Lemma key_match_collision σ x y :
  node_hash hash σ x = node_hash hash σ y →
  edges (obj σ x) = [] → edges (obj σ y) = [] →
  key_match hash (S depth) σ x y = Ok true.
Proof.
  intros Hh Hx Hy. unfold key_match, key_test. rewrite Hh, Z.eqb_refl.
  destruct (x =? y)%nat; [done|]. cbn [node_eq]. by rewrite Hx, Hy.
Qed.

(** X14: [__hash__] is the hash of the payload and [==] is the one of
    [dict]; so for two different payloads [p] and [q] with the same hash,
    [nodes[0].inc(nodes, p, a)] followed by [nodes[0].inc(nodes, q, b)] on
    [[MarkovNode(s)]] creates a node for [q], returns it, and adds [b] to
    the entry of the node of [p], which has no entries either: the weight
    from [s] to [p] is [a + b], there is no edge from [s] to [q], and for
    a positive [a + b] below [OVERFLOW] the generator from [nodes[0]],
    with the floats of CPython, yields [s] and [p]. The payload [s] of
    the start node is neither [p] nor [q]. *)
Theorem colliding_payloads_share_an_edge s p q a b :
  hash p = hash q → p ≠ q → s ≠ p → s ≠ q →
  let st' := {| heap := [ {| data := s; edges := [(1%nat, a + b)] |}; init p; init q ];
                nodes := [0%nat; 1%nat; 2%nat] |} in
  mbind (inc hash (S depth) 0%nat p a) (λ _, inc hash (S depth) 0%nat q b) (start_at s)
    = (Ok 2%nat, st') ∧
  weight_between st' s p = a + b ∧ weight_between st' s q = 0 ∧
  (0 < a + b → a + b < OVERFLOW →
   ∀ rand fuel i, iter_float (S (S fuel)) (heap st') rand i 0%nat = Stop [s; p]).
Proof.
  intros Hh Hpq Hsp Hsq. cbn zeta. split; [|split; [|split]].
  - unfold mbind at 1. unfold inc at 1. unfold mbind, find, on_node, start_at. cbn.
    destruct (decide (s = p)) as [|_]; [congruence|]. cbn.
    unfold inc, mbind, find, on_node. cbn.
    destruct (decide (s = q)) as [|_]; [congruence|]. cbn.
    destruct (decide (p = q)) as [|_]; [congruence|]. cbn.
    unfold getitem, setitem. cbn [lookup_item store_item bind].
    rewrite key_match_collision by done. cbn -[key_match].
    rewrite key_match_collision by done. cbn.
    done.
  - unfold weight_between, node_of. cbn [heap nodes].
    cbn [list_find]. rewrite decide_True by done. cbn.
    rewrite decide_False by (cbn; congruence).
    rewrite decide_True by done. by cbn.
  - unfold weight_between, node_of. cbn [heap nodes].
    cbn [list_find]. rewrite decide_True by done. cbn.
    rewrite decide_False by (cbn; congruence).
    rewrite decide_False by (cbn; congruence).
    rewrite decide_True by done. by cbn.
  - intros Hpos Hov rand fuel i. cbn [heap].
    destruct (call_float_Ok [(1%nat, a + b)] (rand i)) as (k & Hcall & Hk).
    { unfold total_weight. simpl. lia. }
    { unfold total_weight. simpl. lia. }
    apply list_elem_of_singleton in Hk as ->.
    cbn [iter_float]. change (edges (obj _ 0%nat)) with [(1%nat, a + b)].
    cbn [truth length Nat.eqb negb]. rewrite Hcall. done.
Qed.
End collisions.

(** ** The cell of n-grams *)

Section window_facts.
Context {C : Type} `{EqDecision C}.
Implicit Types (l u w pre rest : list C).

(** The window holds the last [k] elements read so far. *)
Lemma deque_append_drop k pre x :
  (0 < k)%nat →
  deque_append k (drop (length pre - k) pre) x
  = drop (length (pre ++ [x]) - k) (pre ++ [x]).
Proof.
  intros Hk. unfold deque_append. rewrite !length_app, length_drop. simpl.
  destruct (decide (length pre < k)%nat) as [Hlt | Hge].
  - replace (length pre - k)%nat with 0%nat by lia. rewrite drop_0. f_equal. lia.
  - replace (length pre - (length pre - k) + 1 - k)%nat with 1%nat by lia.
    rewrite drop_app_le by (rewrite length_drop; lia).
    rewrite drop_drop. rewrite (drop_app_le pre) by lia. do 2 f_equal. lia.
Qed.

Lemma slide_spec k rest : ∀ pre,
  (0 < k)%nat →
  slide k (drop (length pre - k) pre) rest =
  (λ j, drop (length pre + S j - k) (take (length pre + S j) (pre ++ rest)))
    <$> seq 0 (length rest).
Proof.
  induction rest as [|x rest IH]; intros pre Hk; [done|].
  cbn [slide length seq fmap list_fmap].
  rewrite deque_append_drop by done. f_equal.
  - rewrite (cons_middle x pre rest), app_assoc.
    rewrite take_app_length' by (rewrite length_app; simpl; lia).
    by rewrite length_app.
  - rewrite (IH (pre ++ [x])) by done. rewrite <- fmap_S_seq, <- list_fmap_compose.
    apply list_fmap_ext. intros i j _. simpl.
    rewrite length_app, <- app_assoc. simpl. do 2 f_equal; lia.
Qed.

(** [sliding_window(u, n+1)] yields the [n + 1] elements from every
    position that has as many, from left to right. *)
Lemma windows_spec (n : nat) u :
  windows n u = (λ j, take (S n) (drop j u)) <$> seq 0 (length u - n).
Proof.
  unfold windows.
  destruct (decide (length u ≤ n)%nat) as [Hle | Hgt].
  - rewrite drop_ge by done. replace (length u - n)%nat with 0%nat by lia. done.
  - assert (length (take n u) = n) as Hlen by (rewrite length_take; lia).
    replace (take n u) with (drop (length (take n u) - S n) (take n u)) at 1
      by (rewrite Hlen; replace (n - S n)%nat with 0%nat by lia; apply drop_0).
    rewrite slide_spec by lia. rewrite take_drop, Hlen, length_drop.
    apply list_fmap_ext. intros i j Hj. apply lookup_seq in Hj as [-> Hj]. simpl.
    replace (n + S i - S n)%nat with i by lia.
    rewrite take_drop_commute. do 2 f_equal. lia.
Qed.
End window_facts.

(** *** Counting pairs *)

Section pair_facts.
Context {A : Type} `{EqDecision A}.
Implicit Types (l : list (A * A)) (p q : A).

Lemma count_pair_nil p q : count_pair [] p q = 0.
Proof. done. Qed.

Lemma count_pair_cons e l p q :
  count_pair (e :: l) p q = (if decide (e = (p, q)) then 1 else 0) + count_pair l p q.
Proof.
  unfold count_pair. rewrite filter_cons. case_decide; simpl; lia.
Qed.

Lemma count_pair_app l1 l2 p q :
  count_pair (l1 ++ l2) p q = count_pair l1 p q + count_pair l2 p q.
Proof.
  unfold count_pair. rewrite filter_app, length_app. lia.
Qed.

Lemma count_pair_pos l p q : 0 < count_pair l p q ↔ (p, q) ∈ l.
Proof.
  unfold count_pair. split.
  - intros Hpos. destruct (filter (λ e, e = (p, q)) l) as [|e f] eqn:Hf; [simpl in Hpos; lia|].
    assert (e ∈ filter (λ e, e = (p, q)) l) as He by (rewrite Hf; by left).
    apply list_elem_of_filter in He as [-> He]. done.
  - intros Hin.
    assert ((p, q) ∈ filter (λ e, e = (p, q)) l) as He by (by apply list_elem_of_filter).
    destruct (filter (λ e, e = (p, q)) l); [by apply elem_of_nil in He | simpl; lia].
Qed.

Lemma pair_payloads_cons e l : pair_payloads (e :: l) = e.1 :: e.2 :: pair_payloads l.
Proof. done. Qed.

Lemma pair_payloads_app l1 l2 :
  pair_payloads (l1 ++ l2) = pair_payloads l1 ++ pair_payloads l2.
Proof. unfold pair_payloads. by rewrite bind_app. Qed.

End pair_facts.

(** *** One transition on a rooted graph *)

Section rooted_facts.
Context {payload : Type} `{EqDecision payload} `{Inhabited payload}.
Variable hash : payload → Z.
Variable recursion_limit : nat.
Implicit Types (σ : list (MarkovNode payload)) (st : state payload) (r node : nat) (d p q s : payload).

Lemma rooted_start_at s : rooted s (start_at s).
Proof.
  split; [apply graph_start_at|]. split; [by repeat constructor|].
  split; [by repeat constructor|]. split; [done|]. split; [simpl; lia | done].
Qed.

(** [inc] with the increment 1 on a rooted graph. *)
Lemma inc_rooted s st self d :
  rooted s st → (self < length (heap st))%nat →
  hash_inj_on hash (d :: (data <$> heap st)) →
  ∃ child st',
    inc hash recursion_limit self d 1 st = (Ok child, st') ∧
    rooted s st' ∧
    (∀ x, x ∈ data <$> heap st' ↔ x = d ∨ x ∈ data <$> heap st) ∧
    ∀ p q, weight_between st' p q =
             weight_between st p q +
             (if decide (p = data (obj (heap st) self) ∧ q = d) then 1 else 0).
Proof.
  intros (Hg & Hpos & Hkeys & H0 & Hlen & Hs) Hself Hinj.
  destruct (inc_between hash recursion_limit st self d 1 Hg Hself Hinj)
    as (child & st' & Hinc & Hg' & Hchild & Hdata & Hmem & Hw).
  exists child, st'. split; [done|]. split; [|done].
  destruct (inc_keeps_nodes hash recursion_limit st self d 1) as ([k Hk] & Hlen' & Hd').
  rewrite Hinc in Hk, Hlen', Hd'. simpl in Hk, Hlen', Hd'.
  split; [done|]. split.
  { pose proof (inc_keeps hash recursion_limit (λ m, Forall (λ w, 0 < w) (values m))
                  st self d 1 Hg Hself Hinj) as Hk'.
    rewrite Hinc in Hk'. apply Hk'; [constructor | | done].
    intros m k' m' Hm Hi. by apply (iadd_item_is_positive m k' 1). }
  split.
  { pose proof (inc_keeps hash recursion_limit (λ m, NoDup (keys m))
                  st self d 1 Hg Hself Hinj) as Hk'.
    rewrite Hinc in Hk'. apply Hk'; [constructor | | done].
    intros m k' m' Hm Hi. by apply (iadd_item_is_NoDup m k' 1). }
  split.
  { rewrite Hk. by rewrite lookup_app_l by (apply lookup_lt_is_Some; eauto). }
  split; [lia|]. by rewrite Hd'.
Qed.

(** [find] with [add] on a rooted graph. *)
Lemma find_rooted s st p :
  rooted s st →
  ∃ node st1,
    find p true st = (Ok node, st1) ∧
    rooted s st1 ∧
    (node < length (heap st1))%nat ∧ data (obj (heap st1) node) = p ∧
    (∀ x, x ∈ data <$> heap st1 ↔ x = p ∨ x ∈ data <$> heap st) ∧
    ∀ x y, weight_between st1 x y = weight_between st x y.
Proof.
  intros (Hg & Hpos & Hkeys & H0 & Hlen & Hs).
  destruct (find_child st p Hg) as (node & Hfind & Hnode & Hdata).
  pose proof (graph_find st p Hg) as Hg1.
  exists node, (find p true st).2. split; [done|].
  destruct (find_cases st p) as [Heq | [Hnew Heq]]; rewrite Heq in *.
  - split; [done|]. do 2 (split; [done|]). split; [|done].
    intros x. split; [by right|]. intros [-> | Hx]; [|done].
    rewrite <- Hdata. by apply data_elem_of.
  - simpl in *.
    assert (p ∉ data <$> heap st) as Hp.
    { intros Hin. apply list_elem_of_lookup in Hin as [a Ha].
      rewrite list_lookup_fmap in Ha. apply fmap_Some in Ha as (o & Ha & ->).
      rewrite Forall_forall in Hnew. apply (Hnew a).
      - apply (graph_all _ Hg). by eapply lookup_lt_Some.
      - by rewrite (obj_lookup _ _ _ Ha). }
    split.
    { split; [done|]. simpl. split.
      { apply Forall_app. split; [done|]. by repeat constructor. }
      split.
      { apply Forall_app. split; [done|]. by repeat constructor. }
      split; [by rewrite lookup_app_l by (apply lookup_lt_is_Some; eauto)|].
      split; [rewrite length_app; lia|]. by rewrite obj_app_l. }
    do 2 (split; [done|]). split.
    { intros x. rewrite fmap_app, elem_of_app. simpl. rewrite list_elem_of_singleton. tauto. }
    intros x y.
    set (st1 := {| heap := heap st ++ [init p]; nodes := nodes st ++ [length (heap st)] |}) in *.
    assert (∀ a b, (a < length (heap st))%nat →
                   edge_weight (heap st1) a b = edge_weight (heap st) a b) as Hold.
    { intros a b Ha. unfold edge_weight. simpl. by rewrite obj_app_l. }
    assert (∀ b, edge_weight (heap st1) (length (heap st)) b = 0) as Hnew_out.
    { intros b. unfold edge_weight. simpl. by rewrite obj_app_new. }
    unfold weight_between at 1.
    destruct (node_of st1 x) as [a|] eqn:Ha.
    2: { apply (node_of_None _ _ Hg1) in Ha. symmetry. apply weight_between_absent; [done|].
         left. intros Hx. apply Ha. simpl. rewrite fmap_app. apply elem_of_app. by left. }
    destruct (node_of st1 y) as [b|] eqn:Hb.
    2: { apply (node_of_None _ _ Hg1) in Hb. symmetry. apply weight_between_absent; [done|].
         right. intros Hy. apply Hb. simpl. rewrite fmap_app. apply elem_of_app. by left. }
    apply (node_of_graph _ _ _ Hg1) in Ha as [Ha Hxa].
    apply (node_of_graph _ _ _ Hg1) in Hb as [Hb Hyb].
    simpl in Ha, Hb. rewrite length_app in Ha, Hb. simpl in Ha, Hb.
    destruct (decide (a = length (heap st))) as [-> | Hna].
    { rewrite Hnew_out. symmetry. apply weight_between_absent; [done|]. left.
      rewrite <- Hxa. simpl. by rewrite obj_app_new. }
    rewrite Hold by lia.
    destruct (decide (b = length (heap st))) as [-> | Hnb].
    { rewrite (edge_weight_outside _ _ _ (graph_closed _ Hg)) by lia.
      symmetry. apply weight_between_absent; [done|]. right.
      rewrite <- Hyb. simpl. by rewrite obj_app_new. }
    symmetry. apply weight_between_graph; [done | lia | | lia |].
    + rewrite <- Hxa. simpl. by rewrite obj_app_l by lia.
    + rewrite <- Hyb. simpl. by rewrite obj_app_l by lia.
Qed.

(** One transition: [find(nodes, p, True).inc(nodes, q)]. *)
Lemma transition_rooted s st p q :
  rooted s st →
  hash_inj_on hash (p :: q :: (data <$> heap st)) →
  ∃ st',
    mbind (find p true) (λ node,
      mbind (inc hash recursion_limit node q 1) (λ _ st, (Ok (), st))) st = (Ok (), st') ∧
    rooted s st' ∧
    (∀ x, x ∈ data <$> heap st' ↔ x = p ∨ x = q ∨ x ∈ data <$> heap st) ∧
    ∀ x y, weight_between st' x y =
             weight_between st x y + (if decide ((p, q) = (x, y)) then 1 else 0).
Proof.
  intros Hr Hinj.
  destruct (find_rooted s st p Hr) as (node & st1 & Hfind & Hr1 & Hnode & Hdata & Hmem1 & Hw1).
  destruct (inc_rooted s st1 node q Hr1 Hnode) as (child & st' & Hinc & Hr' & Hmem' & Hw').
  { eapply hash_inj_on_subseteq; [|exact Hinj]. intros x Hx.
    apply elem_of_cons in Hx as [-> | Hx]; [right; by left|].
    apply Hmem1 in Hx as [-> | Hx]; [by left | by do 2 right]. }
  exists st'. unfold mbind. rewrite Hfind, Hinc. split; [done|]. split; [done|]. split.
  - intros x. rewrite Hmem', Hmem1. tauto.
  - intros x y. rewrite Hw', Hw1, Hdata.
    destruct (decide (x = p ∧ y = q)) as [[-> ->] | Hn].
    + by rewrite decide_True.
    + rewrite decide_False; [done|]. intros [= -> ->]. by apply Hn.
Qed.

End rooted_facts.

(** *** Training the grams *)

Section gram_facts.
Context {C : Type} `{EqDecision C}.
Variable hash : list C → Z.
Variable recursion_limit : nat.
Variable upper : list C → list C.
Variable n : nat.
Implicit Types (st : state (list C)) (u w name s : list C) (names : list (list C)).

(** The window at a position, its gram and its letter. *)
Lemma window_at u j :
  (j + n < length u)%nat →
  ∃ c, u !! (j + n)%nat = Some c ∧
       last (take (S n) (drop j u)) = Some c ∧
       take (length (take (S n) (drop j u)) - 1) (take (S n) (drop j u)) = take n (drop j u) ∧
       take 1 (drop (j + n) u) = [c].
Proof.
  intros Hj. destruct (lookup_lt_is_Some_2 u (j + n)%nat Hj) as [c Hc].
  assert (length (take (S n) (drop j u)) = S n) as Hlen.
  { rewrite length_take, length_drop. lia. }
  exists c. split; [done|]. split; [|split].
  - rewrite last_lookup, Hlen. simpl. rewrite lookup_take_lt by lia.
    by rewrite lookup_drop.
  - rewrite Hlen, take_take. f_equal. lia.
  - by rewrite (drop_S _ _ _ Hc).
Qed.

(** The inner loop, on the windows at the positions [js]. *)
Lemma train_positions s u (js : list nat) : ∀ st,
  Forall (λ j, (j + n < length u)%nat) js →
  rooted s st →
  hash_inj_on hash
    (pair_payloads ((λ j, (take n (drop j u), take 1 (drop (j + n) u))) <$> js)
     ++ (data <$> heap st)) →
  ∃ st',
    train_windows hash recursion_limit ((λ j, take (S n) (drop j u)) <$> js) st
      = (Ok (), st') ∧
    rooted s st' ∧
    (∀ x, x ∈ data <$> heap st' ↔
          x ∈ pair_payloads ((λ j, (take n (drop j u), take 1 (drop (j + n) u))) <$> js)
          ∨ x ∈ data <$> heap st) ∧
    ∀ x y, weight_between st' x y =
             weight_between st x y +
             count_pair ((λ j, (take n (drop j u), take 1 (drop (j + n) u))) <$> js) x y.
Proof.
  induction js as [|j js IH]; intros st Hjs Hr Hinj.
  - exists st. simpl. do 2 (split; [done|]). split.
    + intros x. split; [by right|]. intros [Hx | Hx]; [by apply elem_of_nil in Hx | done].
    + intros x y. rewrite count_pair_nil. lia.
  - apply Forall_cons in Hjs as [Hj Hjs].
    destruct (window_at u j Hj) as (c & Hc & Hlast & Hgram & Hletter).
    rewrite !fmap_cons in *. rewrite pair_payloads_cons in Hinj. simpl in Hinj.
    cbn [train_windows]. unfold mbind at 1. unfold gram_step. rewrite Hlast, Hgram.
    rewrite Hletter in Hinj.
    destruct (transition_rooted hash recursion_limit s st (take n (drop j u)) [c] Hr)
      as (st1 & Hstep & Hr1 & Hmem1 & Hw1).
    { eapply hash_inj_on_subseteq; [|exact Hinj]. intros x Hx.
      apply elem_of_cons in Hx as [-> | Hx]; [by left|].
      apply elem_of_cons in Hx as [-> | Hx]; [right; by left|].
      do 2 right. apply elem_of_app. by right. }
    rewrite Hstep.
    destruct (IH st1 Hjs Hr1) as (st' & Htrain & Hr' & Hmem' & Hw').
    { eapply hash_inj_on_subseteq; [|exact Hinj]. intros x Hx.
      apply elem_of_app in Hx as [Hx | Hx].
      - do 2 right. apply elem_of_app. by left.
      - apply Hmem1 in Hx as [-> | [-> | Hx]]; [by left | right; by left|].
        do 2 right. apply elem_of_app. by right. }
    exists st'. split; [done|]. split; [done|]. split.
    + intros x. rewrite Hmem', Hmem1, pair_payloads_cons, Hletter. simpl.
      rewrite !elem_of_cons. tauto.
    + intros x y. rewrite Hw', Hw1, count_pair_cons, Hletter.
      destruct (decide ((take n (drop j u), [c]) = (x, y))); lia.
Qed.

Lemma train_windows_rooted s u st :
  rooted s st →
  hash_inj_on hash (pair_payloads (gram_pairs n u) ++ (data <$> heap st)) →
  ∃ st',
    train_windows hash recursion_limit (windows n u) st = (Ok (), st') ∧
    rooted s st' ∧
    (∀ x, x ∈ data <$> heap st' ↔
          x ∈ pair_payloads (gram_pairs n u) ∨ x ∈ data <$> heap st) ∧
    ∀ x y, weight_between st' x y = weight_between st x y + count_pair (gram_pairs n u) x y.
Proof.
  intros Hr Hinj. rewrite windows_spec. apply train_positions; [|done..].
  apply Forall_forall. intros j Hj. apply elem_of_seq in Hj. lia.
Qed.

(** The loop of names of the cell of n-grams. *)
Lemma train_grams_rooted names : ∀ st,
  rooted [] st →
  hash_inj_on hash (pair_payloads (names ≫= name_pairs upper n) ++ (data <$> heap st)) →
  ∃ st',
    train_grams hash recursion_limit upper n names st = (Ok (), st') ∧
    rooted [] st' ∧
    (∀ x, x ∈ data <$> heap st' ↔
          x ∈ pair_payloads (names ≫= name_pairs upper n) ∨ x ∈ data <$> heap st) ∧
    ∀ x y, weight_between st' x y =
             weight_between st x y + count_pair (names ≫= name_pairs upper n) x y.
Proof.
  induction names as [|name names IH]; intros st Hr Hinj.
  - exists st. simpl. do 2 (split; [done|]). split.
    + intros x. split; [by right|]. intros [Hx | Hx]; [by apply elem_of_nil in Hx | done].
    + intros x y. rewrite count_pair_nil. lia.
  - rewrite bind_cons in *. unfold name_pairs at 1 in Hinj.
    rewrite pair_payloads_app, pair_payloads_cons in Hinj. simpl in Hinj.
    pose proof Hr as (Hg & _ & _ & H0 & Hlen & Hs).
    cbn [train_grams]. unfold mbind at 1. unfold first_node. rewrite H0.
    destruct (inc_rooted hash recursion_limit [] st 0%nat (upper (take n name)) Hr Hlen)
      as (child & st1 & Hinc & Hr1 & Hmem1 & Hw1).
    { eapply hash_inj_on_subseteq; [|exact Hinj]. intros x Hx.
      apply elem_of_cons in Hx as [-> | Hx]; [right; by left|].
      do 2 right. rewrite <- app_assoc. apply elem_of_app. right. apply elem_of_app. by right. }
    unfold mbind at 1. rewrite Hinc.
    destruct (train_windows_rooted [] (upper name) st1 Hr1)
      as (st2 & Hwin & Hr2 & Hmem2 & Hw2).
    { eapply hash_inj_on_subseteq; [|exact Hinj]. intros x Hx.
      apply elem_of_app in Hx as [Hx | Hx].
      - do 2 right. rewrite <- app_assoc. apply elem_of_app. by left.
      - apply Hmem1 in Hx as [-> | Hx]; [right; by left|].
        do 2 right. rewrite <- app_assoc. apply elem_of_app. right. apply elem_of_app. by right. }
    unfold mbind at 1. rewrite Hwin.
    destruct (IH st2 Hr2) as (st' & Htrain & Hr' & Hmem' & Hw').
    { eapply hash_inj_on_subseteq; [|exact Hinj]. intros x Hx.
      apply elem_of_app in Hx as [Hx | Hx].
      - do 2 right. rewrite <- app_assoc. apply elem_of_app. right. apply elem_of_app. by left.
      - apply Hmem2 in Hx as [Hx | Hx].
        + do 2 right. rewrite <- app_assoc. apply elem_of_app. by left.
        + apply Hmem1 in Hx as [-> | Hx]; [right; by left|].
          do 2 right. rewrite <- app_assoc. apply elem_of_app. right.
          apply elem_of_app. by right. }
    exists st'. split; [done|]. split; [done|]. split.
    + intros x. rewrite Hmem', Hmem2, Hmem1. unfold name_pairs at 2.
      rewrite pair_payloads_app, pair_payloads_cons. simpl.
      rewrite ?elem_of_app, ?elem_of_cons, ?elem_of_app.
      assert ([] ∈ data <$> heap st) as Hroot by (rewrite <- Hs; by apply data_elem_of).
      split; [tauto|]. intros [[-> | ?] | ?]; tauto.
    + intros x y. rewrite Hw', Hw2, Hw1, Hs. unfold name_pairs at 2.
      rewrite count_pair_app, count_pair_cons.
      destruct (decide (x = [] ∧ y = upper (take n name))) as [[-> ->] | Hn].
      * rewrite decide_True by done. lia.
      * rewrite decide_False; [lia|]. intros [= <- <-]. by apply Hn.
Qed.

End gram_facts.

(** *** Printing a name *)

Section rooted_draw_facts.
Context {payload : Type} `{EqDecision payload} `{Inhabited payload}.
Implicit Types (st : state payload) (p q s : payload).

(** A positive weight between two payloads: the first has a node, which
    [find] returns, and the node has entries. *)
Lemma weight_between_pos st p q :
  graph st → 0 < weight_between st p q →
  ∃ a, find p false st = (Ok a, st) ∧ (a < length (heap st))%nat ∧
       data (obj (heap st) a) = p ∧ edges (obj (heap st) a) ≠ [].
Proof.
  intros Hg Hpos. unfold weight_between in Hpos.
  destruct (node_of st p) as [a|] eqn:Ha; [|lia].
  destruct (node_of st q) as [b|] eqn:Hb; [|lia].
  exists a. split.
  { unfold node_of in Ha. apply fmap_Some in Ha as ([i a'] & Hf & ->).
    by apply (find_found _ _ _ i). }
  apply (node_of_graph _ _ _ Hg) in Ha as [Ha Hd]. do 2 (split; [done|]).
  intros Hnil. unfold edge_weight in Hpos. rewrite Hnil in Hpos. simpl in Hpos. lia.
Qed.

(** The draw at a node with entries of a rooted graph. *)
Lemma call_rooted s st a u :
  rooted s st → (a < length (heap st))%nat → edges (obj (heap st) a) ≠ [] →
  ∃ child, (call (edges (obj (heap st) a)) u).1 = Ok child ∧
           0 < weight_between st (data (obj (heap st) a)) (data (obj (heap st) child)).
Proof.
  intros (Hg & Hpos & _) Ha Hne.
  pose proof (weights_positive_obj (heap st) a Hpos) as Hw.
  destruct (call_Ok (edges (obj (heap st) a)) u (positive_total _ Hne Hw))
    as (child & Hcall & Hin).
  exists child. split; [done|].
  assert (child < length (heap st))%nat as Hchild.
  { pose proof (closed_keys (heap st) a (graph_closed _ Hg)) as Hc.
    rewrite Forall_forall in Hc. by apply Hc. }
  rewrite (weight_between_graph st _ _ a child Hg Ha eq_refl Hchild eq_refl).
  unfold edge_weight. by apply (weight_of_elem_Forall (λ w, 0 < w)).
Qed.

End rooted_draw_facts.

Section list_facts.
Context {C : Type}.
Implicit Types (s u t : list C).

Lemma last_drop s m : (m < length s)%nat → last (drop m s) = last s.
Proof.
  intros Hm. rewrite !last_lookup, length_drop, lookup_drop. f_equal. lia.
Qed.

Lemma take_S_drop u j c (k : nat) :
  u !! (j + k)%nat = Some c → take (S k) (drop j u) = take k (drop j u) ++ [c].
Proof.
  intros Hc. apply take_S_r. by rewrite lookup_drop.
Qed.

Lemma drop_take_shift u j c (k : nat) :
  u !! (j + k)%nat = Some c → (0 < k)%nat →
  drop 1 (take k (drop j u)) ++ [c] = take k (drop (S j) u).
Proof.
  intros Hc Hk. destruct k as [|k]; [lia|].
  assert (take (S k) (drop (S j) u) = take k (drop (S j) u) ++ [c]) as ->.
  { apply take_S_r. rewrite lookup_drop. rewrite <- Hc. f_equal. lia. }
  f_equal. replace (S j) with (j + 1)%nat by lia. rewrite <- drop_drop.
  destruct (drop j u); simpl; by rewrite ?take_nil.
Qed.
End list_facts.

Section gram_generation.
Context {C : Type} `{EqDecision C}.
Variable hash : list C → Z.
Variable recursion_limit : nat.
Variable upper : list C → list C.
Variable newline_char : C.
Variable n : nat.
Implicit Types (st : state (list C)) (u w name s t : list C) (names : list (list C)).

Lemma elem_of_gram_pairs u x y :
  (x, y) ∈ gram_pairs n u ↔
  ∃ j, (j + n < length u)%nat ∧ x = take n (drop j u) ∧ y = take 1 (drop (j + n) u).
Proof.
  unfold gram_pairs. rewrite list_elem_of_fmap. split.
  - intros (j & [= -> ->] & Hj). apply elem_of_seq in Hj. exists j. split; [lia | done].
  - intros (j & Hj & -> & ->). exists j. split; [done|]. apply elem_of_seq. lia.
Qed.

Lemma elem_of_name_pairs names x y :
  (x, y) ∈ names ≫= name_pairs upper n ↔
  ∃ name, name ∈ names ∧
    ((x = [] ∧ y = upper (take n name)) ∨
     ∃ j, (j + n < length (upper name))%nat ∧
          x = take n (drop j (upper name)) ∧ y = take 1 (drop (j + n) (upper name))).
Proof.
  rewrite list_elem_of_bind. unfold name_pairs. split.
  - intros (name & Hin & Hname). exists name. split; [done|].
    apply elem_of_cons in Hin as [[= -> ->] | Hin]; [by left | right].
    by apply elem_of_gram_pairs.
  - intros (name & Hname & [[-> ->] | Hj]); exists name; (split; [|done]).
    + by left.
    + right. by apply elem_of_gram_pairs.
Qed.

Section trained_graph.
Variable names : list (list C).
Variable st : state (list C).
Hypothesis Hn : (0 < n)%nat.
Hypothesis Hnames :
  Forall (λ name, upper (take n name) = take n (upper name) ∧
                  last (upper name) = Some newline_char) names.
Hypothesis Hrooted : rooted [] st.
Hypothesis Hweights :
  ∀ x y, weight_between st x y = count_pair (names ≫= name_pairs upper n) x y.

(** The letters that follow a gram in the graph follow it in a name. *)
Lemma gram_draw name j (x : random.float) :
  name ∈ names → (j + n < length (upper name))%nat →
  ∃ node child name' j' c,
    find (take n (drop j (upper name))) false st = (Ok node, st) ∧
    (call (edges (obj (heap st) node)) x).1 = Ok child ∧
    data (obj (heap st) child) = [c] ∧
    name' ∈ names ∧ upper name' !! (j' + n)%nat = Some c ∧
    take n (drop j (upper name)) = take n (drop j' (upper name')).
Proof.
  intros Hname Hj. pose proof Hrooted as (Hg & _).
  assert (0 < weight_between st (take n (drop j (upper name)))
                (take 1 (drop (j + n) (upper name)))) as Hpos.
  { rewrite Hweights. apply count_pair_pos, elem_of_name_pairs.
    exists name. split; [done|]. right. by exists j. }
  destruct (weight_between_pos st _ _ Hg Hpos) as (node & Hfind & Hnode & Hdata & Hne).
  destruct (call_rooted [] st node x Hrooted Hnode Hne) as (child & Hcall & Hpos').
  rewrite Hdata, Hweights in Hpos'.
  apply count_pair_pos, elem_of_name_pairs in Hpos'
    as (name' & Hname' & [[Hnil _] | (j' & Hj' & Hgram & Hletter)]).
  { apply (f_equal length) in Hnil. rewrite length_take, length_drop in Hnil.
    simpl in Hnil. lia. }
  destruct (lookup_lt_is_Some_2 (upper name') (j' + n)%nat Hj') as [c Hc].
  rewrite (drop_S _ _ _ Hc) in Hletter. simpl in Hletter. rewrite take_0 in Hletter.
  by exists node, child, name', j', c.
Qed.

(** What the loop has printed so far ends with a gram of a name. *)
Lemma extend_spec fuel rand : ∀ i s,
  (∃ name j, name ∈ names ∧ (j < length (upper name))%nat ∧
             suffix n s = take n (drop j (upper name))) →
  (∃ name, name ∈ names ∧ take n s = take n (upper name)) →
  (∀ k, (k + n < length s)%nat →
     ∃ name j, name ∈ names ∧ (j + n < length (upper name))%nat ∧
               take (S n) (drop k s) = take (S n) (drop j (upper name))) →
  match extend newline_char n fuel st rand i s with
  | Raise e => False
  | Ok None => True
  | Ok (Some out) =>
      last out = Some newline_char ∧
      (∃ name, name ∈ names ∧ take n out = take n (upper name)) ∧
      ∀ k, (k + n < length out)%nat →
        ∃ name j, name ∈ names ∧ (j + n < length (upper name))%nat ∧
                  take (S n) (drop k out) = take (S n) (drop j (upper name))
  end.
Proof.
  induction fuel as [|fuel IH]; intros i s (name & j & Hname & Hj & Hsuffix) Hstart Hwin.
  all: unfold suffix in Hsuffix; rewrite (proj2 (Nat.eqb_neq n 0)) in Hsuffix by lia.
  all: assert (length (take n (drop j (upper name))) ≠ 0%nat) as Hlen
         by (rewrite length_take, length_drop; lia).
  all: assert (0 < length s)%nat as Hs
         by (rewrite <- Hsuffix, length_drop in Hlen; lia).
  all: assert (last s = last (take n (drop j (upper name)))) as Hlast
         by (rewrite <- Hsuffix; symmetry; apply last_drop; lia).
  all: destruct (last s) as [c|] eqn:Hc;
         [|apply last_None in Hc; subst s; simpl in Hs; lia].
  all: cbn [extend]; rewrite Hc; destruct (decide (c = newline_char)) as [-> | Hne];
         [split; [done|]; split; done|].
  { done. }
  assert (j + n < length (upper name))%nat as Hjn.
  { destruct (decide (j + n < length (upper name))%nat) as [|Hge]; [done|]. exfalso.
    rewrite take_ge in Hlast by (rewrite length_drop; lia).
    rewrite last_drop in Hlast by done.
    rewrite Forall_forall in Hnames. destruct (Hnames name Hname) as [_ Hnl].
    congruence. }
  destruct (gram_draw name j (rand i) Hname Hjn)
    as (node & child & name' & j' & c' & Hfind & Hcall & Hdata & Hname' & Hc' & Hgram).
  unfold suffix. rewrite (proj2 (Nat.eqb_neq n 0)) by lia.
  rewrite Hsuffix, Hfind. cbn [fst bind]. rewrite Hcall. cbn [bind]. rewrite Hdata.
  assert (length (take n (drop j (upper name))) = n) as Hlen'
    by (rewrite length_take, length_drop; lia).
  assert (n ≤ length s)%nat as Hsn
    by (rewrite <- Hsuffix, length_drop in Hlen'; lia).
  apply IH.
  - exists name', (S j'). split; [done|].
    split; [apply lookup_lt_Some in Hc'; lia|].
    unfold suffix. rewrite (proj2 (Nat.eqb_neq n 0)) by lia.
    rewrite length_app. simpl. rewrite drop_app_le by lia.
    replace (length s + 1 - n)%nat with ((length s - n) + 1)%nat by lia.
    rewrite <- drop_drop, Hsuffix, Hgram. by apply drop_take_shift.
  - destruct Hstart as (name0 & Hname0 & Hstart). exists name0. split; [done|].
    by rewrite take_app_le.
  - intros k Hk. rewrite length_app in Hk. simpl in Hk.
    destruct (decide (k + n < length s)%nat) as [Hlt | Hge].
    + destruct (Hwin k Hlt) as (name1 & j1 & Hname1 & Hj1 & Hw).
      exists name1, j1. do 2 (split; [done|]). rewrite <- Hw.
      rewrite drop_app_le by lia. apply take_app_le. rewrite length_drop. lia.
    + exists name', j'. split; [done|]. split; [apply lookup_lt_Some in Hc'; lia|].
      assert (k = length s - n)%nat as -> by lia.
      rewrite drop_app_le by lia. rewrite Hsuffix, Hgram.
      rewrite (take_S_drop _ _ _ _ Hc'). apply take_ge.
      rewrite length_app, length_take, length_drop. simpl.
      apply lookup_lt_Some in Hc'. lia.
Qed.

Lemma generate_spec fuel rand :
  names ≠ [] →
  match generate newline_char n fuel st rand with
  | Raise e => False
  | Ok None => True
  | Ok (Some out) =>
      last out = Some newline_char ∧
      (∃ name, name ∈ names ∧ take n out = take n (upper name)) ∧
      ∀ k, (k + n < length out)%nat →
        ∃ name j, name ∈ names ∧ (j + n < length (upper name))%nat ∧
                  take (S n) (drop k out) = take (S n) (drop j (upper name))
  end.
Proof.
  intros Hne. pose proof Hrooted as (Hg & _ & _ & H0 & Hlen & Hs).
  assert (∃ name0, name0 ∈ names) as [name0 Hname0].
  { clear -Hne. destruct names as [|name0 names']; [done|]. exists name0. by left. }
  assert (0 < weight_between st [] (upper (take n name0))) as Hpos.
  { rewrite Hweights. apply count_pair_pos, elem_of_name_pairs.
    exists name0. split; [done|]. by left. }
  destruct (weight_between_pos st _ _ Hg Hpos) as (node & _ & Hnode & Hdata & Hedges).
  assert (node = 0%nat) as ->.
  { apply (graph_data_inj st); [done..|congruence]. }
  destruct (call_rooted [] st 0%nat (rand 0%nat) Hrooted Hlen Hedges)
    as (child & Hcall & Hpos').
  rewrite Hs, Hweights in Hpos'.
  apply count_pair_pos, elem_of_name_pairs in Hpos'
    as (name & Hname & [[_ Hchild] | (j & Hj & Hnil & _)]).
  2: { apply (f_equal length) in Hnil. rewrite length_take, length_drop in Hnil.
       simpl in Hnil. lia. }
  unfold generate, first_node. rewrite H0. cbn [fst bind]. rewrite Hcall. cbn [bind].
  rewrite Hchild.
  pose proof Hnames as Hall. rewrite Forall_forall in Hall.
  destruct (Hall name Hname) as [Hup Hnl]. rewrite Hup.
  assert (0 < length (upper name))%nat as Hu.
  { destruct (upper name); [done | simpl; lia]. }
  apply extend_spec.
  - exists name, 0%nat. do 2 (split; [done|]).
    unfold suffix. rewrite (proj2 (Nat.eqb_neq n 0)) by lia.
    rewrite length_take. replace (n `min` length (upper name) - n)%nat with 0%nat by lia.
    done.
  - exists name. split; [done|]. rewrite take_take. f_equal. lia.
  - intros k Hk. rewrite length_take in Hk. lia.
Qed.

End trained_graph.
End gram_generation.

Section gram_properties.
Context {C : Type} `{EqDecision C}.
Variable hash : list C → Z.
Variable recursion_limit : nat.
Variable upper : list C → list C.
Variable newline_char : C.
Variable n : nat.
Implicit Types (st : state (list C)) (u w name s t : list C) (names : list (list C)).

Lemma train_grams_start names :
  hash_inj_on hash ([] :: pair_payloads (names ≫= name_pairs upper n)) →
  ∃ st',
    train_grams hash recursion_limit upper n names (start_at []) = (Ok (), st') ∧
    rooted [] st' ∧
    (∀ x, x ∈ data <$> heap st' ↔ x = [] ∨ x ∈ pair_payloads (names ≫= name_pairs upper n)) ∧
    ∀ x y, weight_between st' x y = count_pair (names ≫= name_pairs upper n) x y.
Proof.
  intros Hinj.
  destruct (train_grams_rooted hash recursion_limit upper n names (start_at []))
    as (st' & Htrain & Hr & Hmem & Hw).
  { apply rooted_start_at. }
  { eapply hash_inj_on_subseteq; [|exact Hinj]. intros x Hx.
    apply elem_of_app in Hx as [Hx | Hx]; [by right|].
    apply list_elem_of_singleton in Hx as ->. by left. }
  exists st'. do 2 (split; [done|]). split.
  - intros x. rewrite Hmem. simpl. rewrite list_elem_of_singleton. tauto.
  - intros x y. by rewrite Hw, weight_between_start_at.
Qed.

(** X15: the training loop of the cell of n-grams does not raise from
    [[MarkovNode('')]] when the hash has no collisions on the payloads;
    [nodes[0]] stays the node of [''], the payloads of the list are [''],
    the first grams [name[:n].upper()], the grams and the letters; and the
    weight between two payloads is the number of times the pair is
    trained: once per name from [''] to the first gram of the name, and
    once per window of [n + 1] characters of [name.upper()] from the first
    [n] characters of the window to its last. *)
Theorem ngram_training_counts names :
  hash_inj_on hash ([] :: pair_payloads (names ≫= name_pairs upper n)) →
  ∃ st',
    train_grams hash recursion_limit upper n names (start_at []) = (Ok (), st') ∧
    find [] false st' = (Ok 0%nat, st') ∧
    (∀ x, x ∈ payloads st' ↔ x = [] ∨ x ∈ pair_payloads (names ≫= name_pairs upper n)) ∧
    ∀ x y, weight_between st' x y = count_pair (names ≫= name_pairs upper n) x y.
Proof.
  intros Hinj.
  destruct (train_grams_start names Hinj)
    as (st' & Htrain & (Hg & _ & _ & H0 & Hlen & Hs) & Hmem & Hw).
  exists st'. split; [done|]. split; [|split; [|done]].
  - assert (node_of st' [] = Some 0%nat) as Hn by (by apply node_of_graph).
    unfold node_of in Hn. apply fmap_Some in Hn as ([i c] & Hf & ->).
    by apply (find_found _ _ _ i).
  - intros x. by rewrite payloads_graph, Hmem.
Qed.

(** X16: when [n] is positive, there is a name, every [name.upper()] ends
    with a line break and begins with [name[:n].upper()], and the hash has
    no collisions on the payloads, printing a name from the graph the cell
    of n-grams has trained never raises: not [KeyError] from [find], not
    [IndexError] from [s[-1]], nothing from the draw. A name that is
    printed ends with a line break, begins with the first [n] characters
    of one of the names in upper case, and every [n + 1] characters in a
    row of it are [n + 1] characters in a row of one of the names in upper
    case. *)
Theorem ngram_generation names fuel rand :
  (0 < n)%nat → names ≠ [] →
  Forall (λ name, upper (take n name) = take n (upper name) ∧
                  last (upper name) = Some newline_char) names →
  hash_inj_on hash ([] :: pair_payloads (names ≫= name_pairs upper n)) →
  match
    generate newline_char n fuel
      (train_grams hash recursion_limit upper n names (start_at [])).2 rand
  with
  | Raise e => False
  | Ok None => True
  | Ok (Some out) =>
      last out = Some newline_char ∧
      (∃ name, name ∈ names ∧ take n out = take n (upper name)) ∧
      ∀ k, (k + n < length out)%nat →
        ∃ name j, name ∈ names ∧ (j + n < length (upper name))%nat ∧
                  take (S n) (drop k out) = take (S n) (drop j (upper name))
  end.
Proof.
  intros Hn Hne Hnames Hinj.
  destruct (train_grams_start names Hinj) as (st' & Htrain & Hr & _ & Hw).
  rewrite Htrain. simpl snd.
  by apply (generate_spec upper newline_char n names st' Hn Hnames Hr Hw).
Qed.

End gram_properties.

(** ** Instances *)

(** The random numbers that are all 0 lie in [[0, 1)]. *)
Lemma unit_zero : ∀ j : nat, (0 <= (λ _ : nat, 0%Q) j)%Q ∧ ((λ _ : nat, 0%Q) j < 1)%Q.
Proof. intros j. split; [apply Qle_refl | reflexivity]. Qed.

(** The weights 2 and 1 and the value of [random()] whose product with
    3.0 is rounded to 2.0. *)
Lemma call_by_cumulative_weight_witness :
  let m := [("a"%string, 2); ("b"%string, 1)] in
  let k := 6004799503160661 in
  let x := float_mul (random_float k) (inject_Z (nearest_float (total_weight m))) in
  ∃ i key w,
    float_of_int (total_weight m) = Ok (inject_Z (nearest_float (total_weight m))) ∧
    (call_float m (random_float k)).1 = Ok key ∧ m !! i = Some (key, w) ∧ 0 < w ∧
    float_lt x (sum_weights (take i (values m))) = false ∧
    float_lt x (sum_weights (take i (values m)) + w) = true ∧
    scan m 0 x = Some key.
Proof.
  apply (call_by_cumulative_weight [("a"%string, 2); ("b"%string, 1)] 6004799503160661).
  - change (Forall (λ w, 0 ≤ w) [2; 1]).
    repeat (apply Forall_cons_2; [lia|]). apply Forall_nil_2.
  - split; by vm_compute.
  - reflexivity.
  - reflexivity.
Defined.

Lemma call_float_refines_call_witness :
  ∃ u, (0 <= u)%Q ∧ (u < 1)%Q ∧
       call_float [("a"%string, 2); ("b"%string, 1)] (random_float 6004799503160661)
       = call [("a"%string, 2); ("b"%string, 1)] u.
Proof.
  apply (call_float_refines_call [("a"%string, 2); ("b"%string, 1)] 6004799503160661).
  - split; by vm_compute.
  - reflexivity.
Defined.

Lemma zero_weights_do_not_matter_witness :
  (call (filter (λ e, e.2 ≠ 0) [("a", 1); ("z", 0); ("b", 2)]%string) (1 # 2)).1
  = (call [("a", 1); ("z", 0); ("b", 2)]%string (1 # 2)).1.
Proof.
  apply (zero_weights_do_not_matter [("a", 1); ("z", 0); ("b", 2)]%string (1 # 2)).
  - change (Forall (λ w, 0 ≤ w) [1; 0; 2]).
    repeat (apply Forall_cons_2; [lia|]). apply Forall_nil_2.
  - unfold Qle. simpl. lia.
  - reflexivity.
  - reflexivity.
Defined.

Lemma inc_counts_transition_witness :
  ∃ child st',
    inc ord_hash 0 0%nat "a"%string 1 start = (Ok child, st') ∧
    graph st' ∧
    find "a"%string false st' = (Ok child, st') ∧
    (∀ x, x ∈ payloads st' ↔ x = "a"%string ∨ x ∈ payloads start) ∧
    ∀ p q, weight_between st' p q =
             weight_between start p q +
             (if decide (p = data (obj (heap start) 0%nat) ∧ q = "a"%string)
              then 1 else 0).
Proof.
  apply (inc_counts_transition ord_hash 0 start 0%nat "a"%string 1 graph_start).
  - simpl. lia.
  - hash_inj.
Defined.

Lemma train_counts_transitions_witness :
  ∃ final st',
    train ord_hash 0 0%nat ["a"; "b"; "a"]%string (start_at ""%string) = (Ok final, st') ∧
    NoDup (payloads st') ∧
    (∀ x, x ∈ payloads st' ↔ x = ""%string ∨ x ∈ ["a"; "b"; "a"]%string) ∧
    node_of st' (List.last ["a"; "b"; "a"]%string ""%string) = Some final ∧
    ∀ p q, weight_between st' p q = count_pairs [""; "a"; "b"; "a"]%string p q.
Proof.
  apply (train_counts_transitions ord_hash 0 ""%string ["a"; "b"; "a"]%string).
  hash_inj.
Defined.

Lemma train_names_counts_witness :
  ∃ st',
    train_names ord_hash 0 [["a"; "b"]; ["b"]]%string (start_at ""%string) = (Ok (), st') ∧
    find ""%string false st' = (Ok 0%nat, st') ∧
    NoDup (payloads st') ∧
    (∀ x, x ∈ payloads st' ↔ x = ""%string ∨ x ∈ concat [["a"; "b"]; ["b"]]%string) ∧
    ∀ p q, weight_between st' p q = count_all ""%string [["a"; "b"]; ["b"]]%string p q.
Proof.
  apply (train_names_counts ord_hash 0 ""%string [["a"; "b"]; ["b"]]%string).
  hash_inj.
Defined.

Lemma generation_never_raises_witness :
  ∃ out, iter_float 5 (heap trained) (λ _, 0%Q) 0 0%nat = Stop out ∨
         iter_float 5 (heap trained) (λ _, 0%Q) 0 0%nat = More out.
Proof.
  apply (generation_never_raises (heap trained) (λ _, 0%Q) 5 0 0%nat).
  - repeat constructor.
  - repeat (apply Forall_cons_2; [by vm_compute|]). apply Forall_nil_2.
Defined.

Lemma iter_float_refines_iter_witness :
  ∃ rand, (∀ j, (0 <= rand j)%Q ∧ (rand j < 1)%Q) ∧
          iter_float 5 (heap trained) (λ _, random_float (2 ^ 52)) 0 0%nat
          = iter 5 (heap trained) rand 0 0%nat.
Proof.
  apply (iter_float_refines_iter (heap trained) (λ _, 2 ^ 52) 5 0 0%nat).
  - repeat (apply Forall_cons_2; [by vm_compute|]). apply Forall_nil_2.
  - intros _. split; by vm_compute.
Defined.

Lemma walk_follows_positive_edges_witness :
  ∃ a b k w,
    data (obj usage a) = "a"%string ∧ data (obj usage b) = "b"%string ∧
    edges (obj usage a) !! k = Some (b, w) ∧ 0 < w.
Proof.
  apply (proj1 (walk_follows_positive_edges usage (λ _, 0%Q) 2 0 0%nat unit_zero)).
  by exists [], [].
Defined.

Lemma trained_walk_follows_training_witness :
  0 < count_all ""%string [["a"; "b"]; ["b"]]%string ""%string "a"%string.
Proof.
  assert (hash_inj_on ord_hash (""%string :: concat [["a"; "b"]; ["b"]]%string)) as Hinj
    by hash_inj.
  apply (proj2 (trained_walk_follows_training ord_hash 0 ""%string
                  [["a"; "b"]; ["b"]]%string (λ _, 0%Q) 3 0 0%nat Hinj unit_zero)).
  by exists [], ["b"%string].
Defined.

Lemma terminal_iff_never_followed_witness :
  edges (obj (heap (train_names ord_hash 0 [["a"]]%string (start_at ""%string)).2) 1%nat) = []
  ↔ ∀ q, count_all ""%string [["a"]]%string
           (data (obj (heap (train_names ord_hash 0 [["a"]]%string
                               (start_at ""%string)).2) 1%nat)) q = 0.
Proof.
  apply (terminal_iff_never_followed ord_hash 0 ""%string [["a"]]%string 1%nat).
  - hash_inj.
  - vm_compute. lia.
Defined.

(** In CPython [hash(-1) == hash(-2)]: the nodes [MarkovNode(-1)] and
    [MarkovNode(-2)] share their edge. *)
Lemma colliding_payloads_share_an_edge_witness :
  let st' := {| heap := [ {| data := 0; edges := [(1%nat, 2)] |}; init (-1); init (-2) ];
                nodes := [0%nat; 1%nat; 2%nat] |} in
  int_hash (-1) = int_hash (-2) ∧
  mbind (inc int_hash 1000 0%nat (-1) 1) (λ _, inc int_hash 1000 0%nat (-2) 1) (start_at 0)
    = (Ok 2%nat, st') ∧
  weight_between st' 0 (-1) = 2 ∧ weight_between st' 0 (-2) = 0 ∧
  iter_float 2 (heap st') (λ _, 0%Q) 0 0%nat = Stop [0; -1].
Proof.
  destruct (colliding_payloads_share_an_edge int_hash 999 0 (-1) (-2) 1 1)
    as (Hinc & Hp & Hq & Hiter); [reflexivity | lia..|].
  split; [reflexivity|]. split; [exact Hinc|]. split; [exact Hp|]. split; [exact Hq|].
  apply (Hiter ltac:(lia) ltac:(by vm_compute) (λ _, 0%Q) 0%nat 0%nat).
Defined.

Lemma inc_without_weight_stalls_witness :
  iter_float 1 (heap (inc ord_hash 0 0%nat "a"%string 0 start).2) (λ _, 0%Q) 0 0%nat
  = Abort [data (obj (heap start) 0%nat)] ValueError.
Proof.
  apply (inc_without_weight_stalls ord_hash 0 start 0%nat "a"%string 0 (λ _, 0%Q) 0 0%nat
           graph_start).
  - simpl. lia.
  - hash_inj.
  - reflexivity.
  - lia.
  - by vm_compute.
Defined.

(** *** The cell of n-grams on two names *)

Lemma codes_hash_two :
  hash_inj_on codes_hash ([] :: pair_payloads (gram_names ≫= name_pairs ascii_upper 3)).
Proof.
  intros p q Hp Hq Hh. vm_compute in Hp, Hq.
  repeat (apply elem_of_cons in Hp as [-> | Hp]);
    try (by apply elem_of_nil in Hp);
    repeat (apply elem_of_cons in Hq as [-> | Hq]);
    try (by apply elem_of_nil in Hq);
    try done; vm_compute in Hh; discriminate.
Qed.

Lemma ngram_training_counts_witness :
  ∃ st',
    train_grams codes_hash 1000 ascii_upper 3 gram_names (start_at []) = (Ok (), st') ∧
    find [] false st' = (Ok 0%nat, st') ∧
    (∀ x, x ∈ payloads st' ↔
          x = [] ∨ x ∈ pair_payloads (gram_names ≫= name_pairs ascii_upper 3)) ∧
    ∀ x y, weight_between st' x y =
             count_pair (gram_names ≫= name_pairs ascii_upper 3) x y.
Proof.
  apply (ngram_training_counts codes_hash 1000 ascii_upper 3 gram_names).
  exact codes_hash_two.
Defined.

Lemma ngram_generation_witness :
  match
    generate "010"%char 3 5
      (train_grams codes_hash 1000 ascii_upper 3 gram_names (start_at [])).2 (λ _, 0%Q)
  with
  | Raise e => False
  | Ok None => True
  | Ok (Some out) =>
      last out = Some "010"%char ∧
      (∃ name, name ∈ gram_names ∧ take 3 out = take 3 (ascii_upper name)) ∧
      ∀ k, (k + 3 < length out)%nat →
        ∃ name j, name ∈ gram_names ∧
                  (j + 3 < length (ascii_upper name))%nat ∧
                  take 4 (drop k out) = take 4 (drop j (ascii_upper name))
  end.
Proof.
  apply (ngram_generation codes_hash 1000 ascii_upper "010"%char 3 gram_names 5 (λ _, 0%Q)).
  - lia.
  - discriminate.
  - repeat (apply Forall_cons_2; [split; reflexivity|]). apply Forall_nil_2.
  - exact codes_hash_two.
Defined.

(** With the random number 0 at every draw, the cell trained on the two
    names prints ['ANNA\n']. *)
Example ngram_cell :
  generate "010"%char 3 5
    (train_grams codes_hash 1000 ascii_upper 3 gram_names (start_at [])).2 (λ _, 0%Q)
  = Ok (Some (list_ascii_of_string ("ANNA" ++ newline))).
Proof. vm_compute. reflexivity. Qed.
